(** * Token and session core of the honojs template

    A shallow embedding of the class [TokenService] of the token service:
    token issuance, verification, refresh and revocation over a Redis
    key-value store with per-key expiry, together with the properties the
    specification states about them.

    What the service calls but does not define (ioredis, jsonwebtoken,
    [JSON], [Date], uuid) is modelled separately from the service itself:
    Redis as a finite map with expiry times and a fault schedule, the
    other libraries as the fields of a [Platform] record. *)

From Stdlib Require Import ZArith String Ascii List Lia DecimalString.
From stdpp Require Import base option gmap strings list fin_maps.

Local Open Scope Z_scope.

(** ** Data model *)

(** [tokenType: 'access' | 'refresh'] *)
Inductive TokenType : Type := access | refresh.

Definition TokenType_eqb (a b : TokenType) : bool :=
  match a, b with
  | access, access | refresh, refresh => true
  | _, _ => false
  end.

(** [interface TokenPayload]; the optional members are options. *)
Record TokenPayload : Type := mkTokenPayload {
  userId : string;
  email : string;
  sessionId : string;
  tokenType : TokenType;
  exp : option Z;
  iat : option Z;
  iss : option string;
  aud : option string
}.

(** [interface TokenPair]; a [Date] is its millisecond instant. *)
Record TokenPair : Type := mkTokenPair {
  accessToken : string;
  refreshToken : string;
  accessTokenExpiresAt : Z;
  refreshTokenExpiresAt : Z
}.

(** The result of [refreshAccessToken]. *)
Record AccessGrant : Type := mkAccessGrant {
  grantToken : string;
  grantExpiresAt : Z
}.

(** The object kept under [token:<sessionId>], as [JSON.parse] returns it:
    each member may be missing ([undefined]). *)
Record SessionData : Type := mkSessionData {
  sd_userId : option string;
  sd_email : option string;
  sd_createdAt : option string;
  sd_lastUsedAt : option string
}.

(** An element of the array returned by [getUserSessions]. *)
Record SessionInfo : Type := mkSessionInfo {
  si_sessionId : string;
  si_createdAt : option string;
  si_lastUsedAt : option string
}.

(** ** The libraries the service calls

    [jws_encode payload secret] is the compact serialisation jsonwebtoken
    signs ([None] where it throws), [jws_decode] reads the payload of a
    token without checking anything ([None] for a malformed token) and
    [jws_check token secret] is the signature check.  [JSON_parse] is
    [None] where [JSON.parse], or reading a member of its result, throws. *)
Record Platform : Type := mkPlatform {
  JWT_SECRET : string;
  jws_encode : TokenPayload -> string -> option string;
  jws_decode : string -> option TokenPayload;
  jws_check : string -> string -> bool;
  JSON_stringify : SessionData -> string;
  JSON_parse : string -> option SessionData;
  toISOString : Z -> string;
  uuid_of : nat -> string
}.

(** What the proofs about round trips use of these libraries. *)
Record Lawful (P : Platform) : Prop := mkLawful {
  jws_decode_encode :
    forall p k t, jws_encode P p k = Some t -> jws_decode P t = Some p;
  jws_check_encode :
    forall p k t, jws_encode P p k = Some t -> jws_check P t k = true;
  JSON_parse_stringify :
    forall s, JSON_parse P (JSON_stringify P s) = Some s
}.

(** ** Redis *)

(** A key holds a string and, unless it is persistent, the second (of the
    epoch) at which it expires: SETEX and TTL count in seconds. *)
Record Entry : Type := mkEntry {
  value : string;
  expireAt : option Z
}.

(** The calls that leave the process, in the order they are made. *)
Inductive Event : Type :=
| EvExists (key : string)
| EvGet (key : string)
| EvSetex (key : string) (seconds : Z) (val : string)
| EvDel (key : string)
| EvKeys (pattern : string)
| EvTtl (key : string)
| EvSign (payload : TokenPayload)
| EvVerify (token : string)
| EvDecode (token : string).

(** [db] is the keyspace, [clock] is [Date.now()] in milliseconds, [faults]
    says of each coming Redis command whether it fails ([true]; an empty
    schedule is a healthy store), [uuids] counts the calls of [uuidv4] and
    [trace] records the outside calls made so far. *)
Record World : Type := mkWorld {
  db : gmap string Entry;
  clock : Z;
  faults : list bool;
  uuids : nat;
  trace : list Event
}.

Definition with_db (m : gmap string Entry) (w : World) : World :=
  mkWorld m (clock w) (faults w) (uuids w) (trace w).

Definition with_faults (fs : list bool) (w : World) : World :=
  mkWorld (db w) (clock w) fs (uuids w) (trace w).

Definition with_uuids (n : nat) (w : World) : World :=
  mkWorld (db w) (clock w) (faults w) n (trace w).

Definition log (ev : Event) (w : World) : World :=
  mkWorld (db w) (clock w) (faults w) (uuids w) (trace w ++ [ev]).

(** Time passing between two calls of the service. *)
Definition advance (ms : Z) (w : World) : World :=
  mkWorld (db w) (clock w + ms) (faults w) (uuids w) (trace w).

(** ** Exceptions and state *)

Inductive Error : Type :=
| RedisError
| JsonWebTokenError
| TokenExpiredError
| SyntaxError
| SignError.

Inductive Result (A : Type) : Type :=
| Ok (a : A)
| Throw (e : Error).

Arguments Ok {A} a.
Arguments Throw {A} e.

(** An [async] method: it runs on the world and returns or throws. *)
Definition M (A : Type) : Type := World -> Result A * World.

Definition ret {A} (a : A) : M A := fun w => (Ok a, w).

Definition throw {A} (e : Error) : M A := fun w => (Throw e, w).

Definition bind {A B} (m : M A) (k : A -> M B) : M B :=
  fun w =>
    match m w with
    | (Ok a, w') => k a w'
    | (Throw e, w') => (Throw e, w')
    end.

(** [try { m } catch (error) { h error }] *)
Definition try_catch {A} (m : M A) (h : Error -> M A) : M A :=
  fun w =>
    match m w with
    | (Ok a, w') => (Ok a, w')
    | (Throw e, w') => h e w'
    end.

Notation "'let!' x ':=' m 'in' k" := (bind m (fun x => k))
  (at level 10, x pattern, m at level 100, k at level 200).

Notation "m1 ';;!' m2" := (bind m1 (fun _ => m2))
  (at level 100, right associativity).

(** [for (const x of xs) { body x }], the body updating the local [acc]. *)
Fixpoint for_of {A S} (xs : list A) (acc : S) (body : S -> A -> M S) : M S :=
  match xs with
  | [] => ret acc
  | x :: rest => let! acc' := body acc x in for_of rest acc' body
  end.

(** ** Strings *)

Fixpoint string_drop (n : nat) (s : string) : string :=
  match n, s with
  | O, _ => s
  | S n', String _ s' => string_drop n' s'
  | S _, EmptyString => EmptyString
  end.

(** [s.replace(pat, rep)] with a string pattern: the first occurrence. *)
Fixpoint String_replace (s pat rep : string) : string :=
  if String.prefix pat s then rep +:+ string_drop (String.length pat) s
  else
    match s with
    | EmptyString => EmptyString
    | String c s' => String c (String_replace s' pat rep)
    end.

(** ** The Redis commands the service uses *)

(** [Math.floor(Date.now() / 1000)] *)
Definition now_s (w : World) : Z := clock w / 1000.

Definition live (t : Z) (e : Entry) : bool :=
  match expireAt e with
  | None => true
  | Some x => t <? x
  end.

(** What a read of [k] sees: a key past its expiry is gone. *)
Definition lookup_live (w : World) (k : string) : option Entry :=
  match db w !! k with
  | Some e => if live (now_s w) e then Some e else None
  | None => None
  end.

(** A command is recorded, then fails or runs as the schedule says. *)
Definition command {A} (ev : Event) (run : M A) : M A :=
  fun w =>
    let w1 := log ev w in
    match faults w1 with
    | true :: fs => (Throw RedisError, with_faults fs w1)
    | false :: fs => run (with_faults fs w1)
    | [] => run w1
    end.

(** How many of the one key [k] exist: 1 or 0. *)
Definition count_live (w : World) (k : string) : Z :=
  match lookup_live w k with
  | Some _ => 1
  | None => 0
  end.

Definition redis_exists (k : string) : M Z :=
  command (EvExists k) (fun w => (Ok (count_live w k), w)).

Definition redis_get (k : string) : M (option string) :=
  command (EvGet k)
    (fun w => (Ok (value <$> lookup_live w k), w)).

(** SETEX refuses a time that is not positive. *)
Definition redis_setex (k : string) (seconds : Z) (v : string) : M unit :=
  command (EvSetex k seconds v)
    (fun w =>
       if 0 <? seconds
       then (Ok tt,
             with_db (<[k := mkEntry v (Some (now_s w + seconds))]> (db w)) w)
       else (Throw RedisError, w)).

Definition redis_del (k : string) : M Z :=
  command (EvDel k)
    (fun w => (Ok (count_live w k), with_db (delete k (db w)) w)).

(** TTL: -2 for no key, -1 for a persistent key, else the seconds left. *)
Definition redis_ttl (k : string) : M Z :=
  command (EvTtl k)
    (fun w =>
       (Ok match lookup_live w k with
           | None => -2
           | Some e =>
               match expireAt e with
               | None => -1
               | Some x => x - now_s w
               end
           end, w)).

(** KEYS [prefix*]: the live keys that start with [prefix], in the
    server's order. *)
Definition keys_with_prefix (prefix : string) (w : World) : list string :=
  filter (fun k => String.prefix prefix k = true)
    (fst <$>
     map_to_list (filter (fun kv => live (now_s w) (snd kv) = true) (db w))).

Definition redis_keys (prefix : string) : M (list string) :=
  command (EvKeys (prefix +:+ "*"))
    (fun w => (Ok (keys_with_prefix prefix w), w)).

(** ** jsonwebtoken, [Date], uuid and [JSON] as the service calls them *)

Section Service.

Variable P : Platform.

(** [Date.now()] *)
Definition Date_now : M Z := fun w => (Ok (clock w), w).

(** [new Date().toISOString()] *)
Definition new_Date_toISOString : M string :=
  fun w => (Ok (toISOString P (clock w)), w).

(** [uuidv4()] *)
Definition uuidv4 : M string :=
  fun w => (Ok (uuid_of P (uuids w)), with_uuids (S (uuids w)) w).

(** [JSON.parse(text)]: a [SyntaxError] where it throws. *)
Definition JSON_parse_or_throw (text : string) : M SessionData :=
  match JSON_parse P text with
  | Some o => ret o
  | None => throw SyntaxError
  end.

(** [jwt.sign(payload, secret, { expiresIn, issuer, audience })]: the
    payload gets [iat], [exp = iat + expiresIn], [iss] and [aud]. *)
Definition jwt_sign (payload : TokenPayload) (secret : string)
    (expiresIn : Z) (issuer audience : string) : M string :=
  fun w =>
    let claims :=
      mkTokenPayload (userId payload) (email payload) (sessionId payload)
        (tokenType payload)
        (Some (now_s w + expiresIn)) (Some (now_s w))
        (Some issuer) (Some audience) in
    match jws_encode P claims secret with
    | Some t => (Ok t, log (EvSign claims) w)
    | None => (Throw SignError, log (EvSign claims) w)
    end.

Definition option_string_eqb (o : option string) (s : string) : bool :=
  match o with
  | Some x => String.eqb x s
  | None => false
  end.

(** The checks of [jwt.verify(token, secret, { issuer, audience })] in the
    library's order: shape, signature, expiry, audience, issuer. *)
Definition jwt_check (token secret issuer audience : string) (t : Z)
    : Result TokenPayload :=
  match jws_decode P token with
  | None => Throw JsonWebTokenError
  | Some payload =>
      if negb (jws_check P token secret) then Throw JsonWebTokenError
      else if match exp payload with
              | Some e => e <=? t
              | None => false
              end then Throw TokenExpiredError
      else if negb (option_string_eqb (aud payload) audience)
      then Throw JsonWebTokenError
      else if negb (option_string_eqb (iss payload) issuer)
      then Throw JsonWebTokenError
      else Ok payload
  end.

Definition jwt_verify (token secret issuer audience : string)
    : M TokenPayload :=
  fun w => (jwt_check token secret issuer audience (now_s w),
            log (EvVerify token) w).

(** [jwt.decode(token)]: the payload, unchecked, or [null]. *)
Definition jwt_decode (token : string) : M (option TokenPayload) :=
  fun w => (Ok (jws_decode P token), log (EvDecode token) w).

(** A string in a condition: the empty string is falsy. *)
Definition truthy (s : string) : bool := negb (String.eqb s "").

(** ** TokenService *)

(** ['15m'] and ['7d'] as jsonwebtoken reads them, in seconds. *)
Definition ACCESS_TOKEN_EXPIRY : Z := 15 * 60.
Definition REFRESH_TOKEN_EXPIRY : Z := 7 * 24 * 60 * 60.
Definition REDIS_TOKEN_PREFIX : string := "token:".
Definition REDIS_BLACKLIST_PREFIX : string := "blacklist:".
Definition REDIS_REFRESH_PREFIX : string := "refresh:".
Definition ISSUER : string := "honojs-template".
Definition AUDIENCE : string := "honojs-template-client".

Definition generateTokenPair (userId email : string) : M TokenPair :=
  let! sessionId := uuidv4 in
  let accessPayload :=
    mkTokenPayload userId email sessionId access None None None None in
  let refreshPayload :=
    mkTokenPayload userId email sessionId refresh None None None None in
  let! accessToken :=
    jwt_sign accessPayload (JWT_SECRET P) ACCESS_TOKEN_EXPIRY ISSUER AUDIENCE in
  let! refreshToken :=
    jwt_sign refreshPayload (JWT_SECRET P) REFRESH_TOKEN_EXPIRY ISSUER AUDIENCE in
  let! t1 := Date_now in
  let accessTokenExpiresAt := t1 + 15 * 60 * 1000 in
  let! t2 := Date_now in
  let refreshTokenExpiresAt := t2 + 7 * 24 * 60 * 60 * 1000 in
  redis_setex (REDIS_REFRESH_PREFIX +:+ sessionId) (7 * 24 * 60 * 60)
    refreshToken ;;!
  let! createdAt := new_Date_toISOString in
  let! lastUsedAt := new_Date_toISOString in
  redis_setex (REDIS_TOKEN_PREFIX +:+ sessionId) (7 * 24 * 60 * 60)
    (JSON_stringify P
       (mkSessionData (Some userId) (Some email) (Some createdAt)
          (Some lastUsedAt))) ;;!
  ret (mkTokenPair accessToken refreshToken accessTokenExpiresAt
         refreshTokenExpiresAt).

Definition updateSessionLastUsed (sessionId : string) : M unit :=
  try_catch
    (let sessionKey := REDIS_TOKEN_PREFIX +:+ sessionId in
     let! sessionData := redis_get sessionKey in
     match sessionData with
     | Some text =>
         if truthy text then
           let! session := JSON_parse_or_throw text in
           let! stamp := new_Date_toISOString in
           let session' :=
             mkSessionData (sd_userId session) (sd_email session)
               (sd_createdAt session) (Some stamp) in
           let! ttl := redis_ttl sessionKey in
           redis_setex sessionKey
             (if 0 <? ttl then ttl else 7 * 24 * 60 * 60)
             (JSON_stringify P session')
         else ret tt
     | None => ret tt
     end)
    (fun _ => ret tt).

Definition verifyToken (token : string) : M (option TokenPayload) :=
  try_catch
    (let! isBlacklisted := redis_exists (REDIS_BLACKLIST_PREFIX +:+ token) in
     if negb (isBlacklisted =? 0) then ret None
     else
       let! payload := jwt_verify token (JWT_SECRET P) ISSUER AUDIENCE in
       (if truthy (sessionId payload)
        then updateSessionLastUsed (sessionId payload)
        else ret tt) ;;!
       ret (Some payload))
    (fun _ => ret None).

Definition refreshAccessToken (refreshToken : string)
    : M (option AccessGrant) :=
  try_catch
    (let! verified := verifyToken refreshToken in
     match verified with
     | None => ret None
     | Some payload =>
         if negb (TokenType_eqb (tokenType payload) refresh) then ret None
         else
           let! storedRefreshToken :=
             redis_get (REDIS_REFRESH_PREFIX +:+ sessionId payload) in
           match storedRefreshToken with
           | None => ret None
           | Some stored =>
               if negb (truthy stored) || negb (String.eqb stored refreshToken)
               then ret None
               else
                 let accessPayload :=
                   mkTokenPayload (userId payload) (email payload)
                     (sessionId payload) access None None None None in
                 let! accessToken :=
                   jwt_sign accessPayload (JWT_SECRET P) ACCESS_TOKEN_EXPIRY
                     ISSUER AUDIENCE in
                 let! t := Date_now in
                 let accessTokenExpiresAt := t + 15 * 60 * 1000 in
                 updateSessionLastUsed (sessionId payload) ;;!
                 ret (Some (mkAccessGrant accessToken accessTokenExpiresAt))
           end
     end)
    (fun _ => ret None).

Definition revokeToken (token : string) : M unit :=
  try_catch
    (let! payload := jwt_decode token in
     match payload with
     | Some p =>
         match exp p with
         | Some e =>
             if negb (e =? 0) then
               let! t := Date_now in
               let ttl := e - t / 1000 in
               if 0 <? ttl
               then redis_setex (REDIS_BLACKLIST_PREFIX +:+ token) ttl "1"
               else ret tt
             else ret tt
         | None => ret tt
         end
     | None => ret tt
     end)
    (fun error => throw error).

Definition revokeSession (sessionId : string) : M unit :=
  try_catch
    (redis_del (REDIS_REFRESH_PREFIX +:+ sessionId) ;;!
     redis_del (REDIS_TOKEN_PREFIX +:+ sessionId) ;;!
     ret tt)
    (fun error => throw error).

Definition revokeAllUserTokens (userId : string) : M unit :=
  try_catch
    (let! sessionKeys := redis_keys REDIS_TOKEN_PREFIX in
     for_of sessionKeys tt
       (fun _ key =>
          let! sessionData := redis_get key in
          match sessionData with
          | Some text =>
              if truthy text then
                let! session := JSON_parse_or_throw text in
                if option_string_eqb (sd_userId session) userId then
                  let sessionId := String_replace key REDIS_TOKEN_PREFIX "" in
                  revokeSession sessionId
                else ret tt
              else ret tt
          | None => ret tt
          end))
    (fun error => throw error).

Definition getUserSessions (userId : string) : M (list SessionInfo) :=
  try_catch
    (let sessions := [] in
     let! sessionKeys := redis_keys REDIS_TOKEN_PREFIX in
     let! sessions :=
       for_of sessionKeys sessions
         (fun sessions key =>
            let! sessionData := redis_get key in
            match sessionData with
            | Some text =>
                if truthy text then
                  let! session := JSON_parse_or_throw text in
                  if option_string_eqb (sd_userId session) userId then
                    ret (sessions ++
                         [mkSessionInfo
                            (String_replace key REDIS_TOKEN_PREFIX "")
                            (sd_createdAt session) (sd_lastUsedAt session)])
                  else ret sessions
                else ret sessions
            | None => ret sessions
            end) in
     ret sessions)
    (fun _ => ret []).

End Service.

(** ** A reference platform

    A small concrete instance of the libraries, over a length-prefixed wire
    format.  It shows that [Lawful] can be met and lets the service run on
    concrete inputs.  Its "signature" is the secret itself, written in
    front of the payload: enough for the laws, nothing more. *)
Module Wire.

Local Open Scope char_scope.

(** A natural number in unary, closed by [0]. *)
Fixpoint put_len (n : nat) (rest : string) : string :=
  match n with
  | O => String "0" rest
  | S n' => String "1" (put_len n' rest)
  end.

Fixpoint get_len (s : string) : option (nat * string) :=
  match s with
  | String c r =>
      if Ascii.eqb c "0" then Some (O, r)
      else if Ascii.eqb c "1" then
        match get_len r with
        | Some (n, r') => Some (S n, r')
        | None => None
        end
      else None
  | EmptyString => None
  end.

Fixpoint take (n : nat) (s : string) : option (string * string) :=
  match n with
  | O => Some (EmptyString, s)
  | S n' =>
      match s with
      | String c r =>
          match take n' r with
          | Some (a, b) => Some (String c a, b)
          | None => None
          end
      | EmptyString => None
      end
  end.

(** A string: its length, then its characters. *)
Definition put_string (s rest : string) : string :=
  put_len (String.length s) (s +:+ rest).

Definition get_string (t : string) : option (string * string) :=
  match get_len t with
  | Some (n, r) => take n r
  | None => None
  end.

Definition put_opt_string (o : option string) (rest : string) : string :=
  match o with
  | Some s => String "S" (put_string s rest)
  | None => String "N" rest
  end.

Definition get_opt_string (t : string) : option (option string * string) :=
  match t with
  | String c r =>
      if Ascii.eqb c "S" then
        match get_string r with
        | Some (s, r') => Some (Some s, r')
        | None => None
        end
      else if Ascii.eqb c "N" then Some (None, r)
      else None
  | EmptyString => None
  end.

(** A positive number, lowest bit first, closed by a dot. *)
Fixpoint put_pos (p : positive) (rest : string) : string :=
  match p with
  | xH => String "." rest
  | xO p' => String "0" (put_pos p' rest)
  | xI p' => String "1" (put_pos p' rest)
  end.

Fixpoint get_pos (s : string) : option (positive * string) :=
  match s with
  | String c r =>
      if Ascii.eqb c "." then Some (xH, r)
      else if Ascii.eqb c "0" then
        match get_pos r with
        | Some (p, r') => Some (xO p, r')
        | None => None
        end
      else if Ascii.eqb c "1" then
        match get_pos r with
        | Some (p, r') => Some (xI p, r')
        | None => None
        end
      else None
  | EmptyString => None
  end.

Definition put_Z (z : Z) (rest : string) : string :=
  match z with
  | Z0 => String "z" rest
  | Zpos p => String "+" (put_pos p rest)
  | Zneg p => String "-" (put_pos p rest)
  end.

Definition get_Z (t : string) : option (Z * string) :=
  match t with
  | String c r =>
      if Ascii.eqb c "z" then Some (Z0, r)
      else if Ascii.eqb c "+" then
        match get_pos r with
        | Some (p, r') => Some (Zpos p, r')
        | None => None
        end
      else if Ascii.eqb c "-" then
        match get_pos r with
        | Some (p, r') => Some (Zneg p, r')
        | None => None
        end
      else None
  | EmptyString => None
  end.

Definition put_opt_Z (o : option Z) (rest : string) : string :=
  match o with
  | Some z => String "S" (put_Z z rest)
  | None => String "N" rest
  end.

Definition get_opt_Z (t : string) : option (option Z * string) :=
  match t with
  | String c r =>
      if Ascii.eqb c "S" then
        match get_Z r with
        | Some (z, r') => Some (Some z, r')
        | None => None
        end
      else if Ascii.eqb c "N" then Some (None, r)
      else None
  | EmptyString => None
  end.

Definition put_type (ty : TokenType) (rest : string) : string :=
  match ty with
  | access => String "A" rest
  | refresh => String "R" rest
  end.

Definition get_type (t : string) : option (TokenType * string) :=
  match t with
  | String c r =>
      if Ascii.eqb c "A" then Some (access, r)
      else if Ascii.eqb c "R" then Some (refresh, r)
      else None
  | EmptyString => None
  end.

Definition put_payload (p : TokenPayload) (rest : string) : string :=
  put_string (userId p)
    (put_string (email p)
       (put_string (sessionId p)
          (put_type (tokenType p)
             (put_opt_Z (exp p)
                (put_opt_Z (iat p)
                   (put_opt_string (iss p)
                      (put_opt_string (aud p) rest))))))).

Definition get_payload (t : string) : option (TokenPayload * string) :=
  match get_string t with
  | Some (u, t1) =>
  match get_string t1 with
  | Some (e, t2) =>
  match get_string t2 with
  | Some (s, t3) =>
  match get_type t3 with
  | Some (ty, t4) =>
  match get_opt_Z t4 with
  | Some (x, t5) =>
  match get_opt_Z t5 with
  | Some (i, t6) =>
  match get_opt_string t6 with
  | Some (ir, t7) =>
  match get_opt_string t7 with
  | Some (a, t8) => Some (mkTokenPayload u e s ty x i ir a, t8)
  | None => None end
  | None => None end
  | None => None end
  | None => None end
  | None => None end
  | None => None end
  | None => None end
  | None => None end.

Definition put_session (s : SessionData) : string :=
  put_opt_string (sd_userId s)
    (put_opt_string (sd_email s)
       (put_opt_string (sd_createdAt s)
          (put_opt_string (sd_lastUsedAt s) EmptyString))).

Definition get_session (t : string) : option SessionData :=
  match get_opt_string t with
  | Some (u, t1) =>
  match get_opt_string t1 with
  | Some (e, t2) =>
  match get_opt_string t2 with
  | Some (c, t3) =>
  match get_opt_string t3 with
  | Some (l, EmptyString) => Some (mkSessionData u e c l)
  | _ => None end
  | None => None end
  | None => None end
  | None => None end.

(** The token: the secret, then the payload. *)
Definition encode (p : TokenPayload) (secret : string) : option string :=
  Some (put_string secret (put_payload p EmptyString)).

Definition decode (t : string) : option TokenPayload :=
  match get_string t with
  | Some (_, body) =>
      match get_payload body with
      | Some (p, EmptyString) => Some p
      | _ => None
      end
  | None => None
  end.

Definition check (t secret : string) : bool :=
  match get_string t with
  | Some (k, _) => String.eqb k secret
  | None => false
  end.

Definition platform : Platform :=
  mkPlatform "k"%string encode decode check put_session get_session
    (fun ms => put_Z ms EmptyString)
    (fun n => ("s" +:+ put_len n EmptyString)%string).

End Wire.

(** ** The sweeps over the store *)

(** The result of [cleanupExpiredTokens]. *)
Record CleanupResult : Type := mkCleanupResult {
  deletedCount : Z
}.

(** [TokenService.cleanupExpiredTokens]: session rows that have no expiry
    are deleted and counted; any error gives a count of 0. *)
Definition cleanupExpiredTokens : M CleanupResult :=
  try_catch
    (let deletedCount := 0 in
     let! sessionKeys := redis_keys REDIS_TOKEN_PREFIX in
     let! deletedCount :=
       for_of sessionKeys deletedCount
         (fun deletedCount key =>
            let! ttl := redis_ttl key in
            if ttl =? -1 then
              redis_del key ;;!
              ret (deletedCount + 1)
            else ret deletedCount) in
     ret (mkCleanupResult deletedCount))
    (fun _ => ret (mkCleanupResult 0)).

(** [cleanupExpiredSessions] of the session cleanup job: the keys under
    [session:] and [blacklist:] whose TTL is not positive are deleted. *)
Definition cleanupExpiredSessions : M unit :=
  let! startTime := Date_now in
  try_catch
    (let! sessionKeys := redis_keys "session:" in
     let! blacklistKeys := redis_keys "blacklist:" in
     let expiredSessions := 0 in
     let expiredTokens := 0 in
     let! expiredSessions :=
       for_of sessionKeys expiredSessions
         (fun expiredSessions key =>
            let! ttl := redis_ttl key in
            if ttl <=? 0 then
              redis_del key ;;!
              ret (expiredSessions + 1)
            else ret expiredSessions) in
     let! expiredTokens :=
       for_of blacklistKeys expiredTokens
         (fun expiredTokens key =>
            let! ttl := redis_ttl key in
            if ttl <=? 0 then
              redis_del key ;;!
              ret (expiredTokens + 1)
            else ret expiredTokens) in
     let! t := Date_now in
     let duration := t - startTime in
     ret tt)
    (fun error => throw error).

(** ** The token cleanup job *)

(** A number in a template literal; the counts here are integers. *)
Definition Number_toString (n : Z) : string :=
  NilZero.string_of_int (Z.to_int n).

(** The members of [CronJobStatus] that [tokenCleanupJob.execute] sets;
    [metadata] is flattened into its two members. *)
Record CronJobStatus : Type := mkCronJobStatus {
  success : bool;
  message : string;
  duration : Z;
  error : option string;
  metadata_deletedCount : option Z;
  metadata_executedAt : string
}.

Section Callers.

Variable P : Platform.

(** [error instanceof Error ? error.message : 'Unknown error']: the
    messages of the errors of the libraries are theirs to choose. *)
Variable Error_message : Error -> string.

(** [tokenCleanupJob.execute(context)]; [context] is not used. *)
Definition tokenCleanupJob_execute : M CronJobStatus :=
  let! startTime := Date_now in
  try_catch
    (let! result := cleanupExpiredTokens in
     let! t := Date_now in
     let duration := t - startTime in
     let! executedAt := new_Date_toISOString P in
     ret (mkCronJobStatus true
            ("Cleaned up " +:+ Number_toString (deletedCount result) +:+
             " expired tokens")
            duration None (Some (deletedCount result)) executedAt))
    (fun error =>
       let! t := Date_now in
       let duration := t - startTime in
       let! executedAt := new_Date_toISOString P in
       ret (mkCronJobStatus false
              ("Token cleanup failed: " +:+ Error_message error)
              duration (Some (Error_message error)) None executedAt)).

(** ** The HTTP side: exceptions with a status *)

(** What the callers of the service throw: an [HTTPException], a plain
    [new Error(message)], or an error that came up from below. *)
Inductive JsError : Type :=
| HTTPException (status : Z) (message : string)
| PlainError (message : string)
| Lower (e : Error).

Inductive Outcome (A : Type) : Type :=
| Done (a : A)
| Raised (e : JsError).

Arguments Done {A} a.
Arguments Raised {A} e.

Definition Handler (A : Type) : Type := World -> Outcome A * World.

Definition hret {A} (a : A) : Handler A := fun w => (Done a, w).

Definition hthrow {A} (e : JsError) : Handler A := fun w => (Raised e, w).

Definition hbind {A B} (m : Handler A) (k : A -> Handler B) : Handler B :=
  fun w =>
    match m w with
    | (Done a, w') => k a w'
    | (Raised e, w') => (Raised e, w')
    end.

Definition htry {A} (m : Handler A) (h : JsError -> Handler A) : Handler A :=
  fun w =>
    match m w with
    | (Done a, w') => (Done a, w')
    | (Raised e, w') => h e w'
    end.

(** A call into the service: its errors come up unchanged. *)
Definition lift {A} (m : M A) : Handler A :=
  fun w =>
    match m w with
    | (Ok a, w') => (Done a, w')
    | (Throw e, w') => (Raised (Lower e), w')
    end.

(** [error.message] *)
Definition JsError_message (e : JsError) : string :=
  match e with
  | HTTPException _ m => m
  | PlainError m => m
  | Lower e' => Error_message e'
  end.

(** [s.includes(sub)] *)
Fixpoint String_includes (s sub : string) : bool :=
  if String.prefix sub s then true
  else
    match s with
    | EmptyString => false
    | String _ s' => String_includes s' sub
    end.

(** An optional string in a condition: [undefined] and [""] are falsy. *)
Definition truthy_opt (o : option string) : bool :=
  match o with
  | Some s => truthy s
  | None => false
  end.

(** [extractTokenFromHeader(authHeader)] *)
Definition extractTokenFromHeader (authHeader : option string)
    : option string :=
  match authHeader with
  | Some h =>
      if negb (truthy h) || negb (String.prefix "Bearer " h) then None
      else Some (string_drop 7 h)
  | None => None
  end.

(** The row [prisma.user.findUnique] selects. *)
Record User : Type := mkUser {
  user_id : string;
  user_email : string;
  user_name : string;
  user_createdAt : Z;
  user_updatedAt : Z
}.

(** What [authMiddleware] sets in the context for the handlers. *)
Record AuthContext : Type := mkAuthContext {
  ctx_user : User;
  ctx_sessionId : string;
  ctx_tokenPayload : TokenPayload
}.

(** [prisma.user.findUnique({ where: { id } })]: the database is not part
    of this development. *)
Variable findUnique : string -> M (option User).

(** [authMiddleware]: [authHeader] is [c.req.header('Authorization')] and
    [next] the rest of the chain, run with what the middleware set. *)
Definition authMiddleware (authHeader : option string)
    (next : AuthContext -> Handler unit) : Handler unit :=
  let token := extractTokenFromHeader authHeader in
  if negb (truthy_opt token)
  then hthrow (HTTPException 401 "No token provided")
  else
    htry
      (hbind (lift (verifyToken P (default EmptyString token)))
         (fun payload =>
            match payload with
            | None => hthrow (HTTPException 401 "Invalid access token")
            | Some payload =>
                if negb (TokenType_eqb (tokenType payload) access)
                then hthrow (HTTPException 401 "Invalid access token")
                else
                  hbind (lift (findUnique (userId payload)))
                    (fun user =>
                       match user with
                       | None => hthrow (HTTPException 401 "User not found")
                       | Some user =>
                           next (mkAuthContext user (sessionId payload)
                                   payload)
                       end)
            end))
      (fun error =>
         match error with
         | HTTPException _ _ => hthrow error
         | _ => hthrow (HTTPException 401 "Invalid or expired token")
         end).

(** [AuthService.refreshToken] *)
Definition AuthService_refreshToken (refreshToken : string) : Handler AccessGrant :=
  hbind (lift (refreshAccessToken P refreshToken))
    (fun result =>
       match result with
       | None => hthrow (PlainError "Invalid or expired refresh token")
       | Some grant => hret grant
       end).

(** [AuthService.logout]; the result is the [message] it returns. *)
Definition AuthService_logout (sessionId token : option string) : Handler string :=
  hbind
    (if truthy_opt sessionId
     then lift (revokeSession (default EmptyString sessionId))
     else if truthy_opt token
          then lift (revokeToken P (default EmptyString token))
          else hret tt)
    (fun _ => hret "Logged out successfully"%string).

(** A JSON response: [c.json({ success: true, data }, status)]. *)
Record Response (A : Type) : Type := mkResponse {
  res_status : Z;
  res_success : bool;
  res_data : A
}.

Arguments mkResponse {A} res_status res_success res_data.
Arguments res_status {A} r.
Arguments res_success {A} r.
Arguments res_data {A} r.

(** [authController.refreshToken]; [body] is what
    [const { refreshToken } = await c.req.json()] gives: the member, or the
    error of a body that is no JSON. *)
Definition authController_refreshToken (body : Outcome (option string))
    : Handler (Response AccessGrant) :=
  htry
    (hbind (fun w => (body, w))
       (fun refreshToken =>
          if negb (truthy_opt refreshToken)
          then hthrow (HTTPException 400 "Refresh token is required")
          else
            hbind (AuthService_refreshToken (default EmptyString refreshToken))
              (fun result => hret (mkResponse 200 true result))))
    (fun error =>
       if String_includes (JsError_message error) "Invalid or expired"
       then hthrow (HTTPException 401 (JsError_message error))
       else hthrow (HTTPException 500 "Failed to refresh token")).

(** [authController.logout]; [sessionId] is [c.get('sessionId')] and
    [authHeader] is [c.req.header('Authorization')]. *)
Definition authController_logout (sessionId authHeader : option string)
    : Handler (Response string) :=
  htry
    (let token :=
       match authHeader with
       | Some h => Some (String_replace h "Bearer " "")
       | None => None
       end in
     hbind (AuthService_logout sessionId token)
       (fun result => hret (mkResponse 200 true result)))
    (fun _ => hthrow (HTTPException 500 "Failed to logout")).

End Callers.

Arguments Done {A} a.
Arguments Raised {A} e.
Arguments mkResponse {A} res_status res_success res_data.
Arguments res_status {A} r.
Arguments res_success {A} r.
Arguments res_data {A} r.

(** ** The handlers of the sessions *)

Section SessionHandlers.

Variable P : Platform.

(** [AuthService.logoutAll]; the result is the [message] it returns. *)
Definition AuthService_logoutAll (userId : string) : Handler string :=
  hbind (lift (revokeAllUserTokens P userId))
    (fun _ => hret "Logged out from all devices successfully"%string).

(** [AuthService.getUserSessions] *)
Definition AuthService_getUserSessions (userId : string)
    : Handler (list SessionInfo) :=
  lift (getUserSessions P userId).

(** [AuthService.revokeSession]; the result is the [message] it returns. *)
Definition AuthService_revokeSession (sessionId : string) : Handler string :=
  hbind (lift (revokeSession sessionId))
    (fun _ => hret "Session revoked successfully"%string).

(** [authController.logoutAll]; [user] is [c.get('user')], which the
    middleware set. *)
Definition authController_logoutAll (user : User)
    : Handler (Response string) :=
  htry
    (hbind (AuthService_logoutAll (user_id user))
       (fun result => hret (mkResponse 200 true result)))
    (fun _ =>
       hthrow (HTTPException 500 "Failed to logout from all devices")).

(** [authController.getSessions]; the data of the response is its
    [sessions] member. *)
Definition authController_getSessions (user : User)
    : Handler (Response (list SessionInfo)) :=
  htry
    (hbind (AuthService_getUserSessions (user_id user))
       (fun sessions => hret (mkResponse 200 true sessions)))
    (fun _ => hthrow (HTTPException 500 "Failed to get user sessions")).

(** [authController.revokeSession]; [sessionId] is the route parameter. *)
Definition authController_revokeSession (sessionId : option string)
    : Handler (Response string) :=
  htry
    (if negb (truthy_opt sessionId)
     then hthrow (HTTPException 400 "Session ID is required")
     else
       hbind (AuthService_revokeSession (default EmptyString sessionId))
         (fun result => hret (mkResponse 200 true result)))
    (fun _ => hthrow (HTTPException 500 "Failed to revoke session")).

End SessionHandlers.

(** ** Vocabulary of the statements *)

(** Two worlds a reader of the store cannot tell apart. *)
Definition same_store (w w' : World) : Prop :=
  db w' = db w /\ clock w' = clock w.

(** Every key outside [K] is as it was, and so is the clock. *)
Definition frame_on (K : string -> Prop) (w w' : World) : Prop :=
  clock w' = clock w /\ forall k, ~ K k -> db w' !! k = db w !! k.

(** The keys of the session rows. *)
Definition session_key (k : string) : Prop :=
  exists sid, k = REDIS_TOKEN_PREFIX +:+ sid.

(** The two keys of session [sid]. *)
Definition keys_of_session (sid : string) (k : string) : Prop :=
  k = REDIS_REFRESH_PREFIX +:+ sid \/ k = REDIS_TOKEN_PREFIX +:+ sid.

(** [m] relates every world it starts in to the one it ends in by [R],
    whether it returns or throws. *)
Definition preserves {A} (R : World -> World -> Prop) (m : M A) : Prop :=
  forall w r w', m w = (r, w') -> R w w'.

(** A relation on worlds that a failed or logged command cannot break. *)
Record Stable (R : World -> World -> Prop) : Prop := mkStable {
  stable_refl : forall w, R w w;
  stable_trans : forall w1 w2 w3, R w1 w2 -> R w2 w3 -> R w1 w3;
  stable_same : forall w w', same_store w w' -> R w w'
}.

(** The world once a command has been sent, whatever came of it: the
    command is recorded and its entry of the schedule used up. *)
Definition after_command (ev : Event) (w : World) : World :=
  match faults w with
  | _ :: fs => with_faults fs (log ev w)
  | [] => log ev w
  end.

(** Is [token] on the revocation list, as a read at [w] sees it? *)
Definition blacklisted (w : World) (token : string) : bool :=
  match lookup_live w (REDIS_BLACKLIST_PREFIX +:+ token) with
  | Some _ => true
  | None => false
  end.

(** The answer the specification gives for [verifyToken]: [null] when the
    store cannot be reached, when the token is revoked and when
    jsonwebtoken rejects it for whatever reason; the payload otherwise. *)
Definition verdict (P : Platform) (token : string) (w : World)
    : option TokenPayload :=
  match faults w with
  | true :: _ => None
  | _ =>
      if blacklisted w token then None
      else
        match jwt_check P token (JWT_SECRET P) ISSUER AUDIENCE (now_s w) with
        | Ok payload => Some payload
        | Throw _ => None
        end
  end.

(** The claims jsonwebtoken signs at second [t] for a token of type [ty]
    living [ttl] seconds. *)
Definition signed_claims (uid mail sid : string) (ty : TokenType)
    (t ttl : Z) : TokenPayload :=
  mkTokenPayload uid mail sid ty (Some (t + ttl)) (Some t)
    (Some ISSUER) (Some AUDIENCE).

(** The row [updateSessionLastUsed] writes back for a row that parsed to
    [session]: the same members with [lastUsedAt] set to the current
    instant. *)
Definition touched_row (P : Platform) (session : SessionData) (w : World)
    : string :=
  JSON_stringify P
    (mkSessionData (sd_userId session) (sd_email session)
       (sd_createdAt session) (Some (toISOString P (clock w)))).

(** The seconds [updateSessionLastUsed] passes to SETEX for entry [e]. *)
Definition touched_seconds (e : Entry) (w : World) : Z :=
  match expireAt e with
  | Some x => x - now_s w
  | None => 7 * 24 * 60 * 60
  end.

(** A Redis command on the row of session [sid]. *)
Definition touch_event (sid : string) (ev : Event) : Prop :=
  match ev with
  | EvGet k | EvTtl k | EvSetex k _ _ => k = REDIS_TOKEN_PREFIX +:+ sid
  | _ => False
  end.

(** [token] is what jsonwebtoken signed for [claims] with the service's
    secret, issuer and audience. *)
Definition issued (P : Platform) (claims : TokenPayload) (token : string)
    : Prop :=
  jws_encode P claims (JWT_SECRET P) = Some token /\
  iss claims = Some ISSUER /\ aud claims = Some AUDIENCE.

(** The session object [generateTokenPair] stores at instant [ms]. *)
Definition new_session (P : Platform) (uid mail : string) (ms : Z)
    : SessionData :=
  mkSessionData (Some uid) (Some mail) (Some (toISOString P ms))
    (Some (toISOString P ms)).

(** The element [getUserSessions] lists for the row under [key], when a
    read sees a row there that belongs to [uid]. *)
Definition session_of (P : Platform) (uid : string) (w : World)
    (key : string) : option SessionInfo :=
  match lookup_live w key with
  | Some e =>
      if truthy (value e) then
        match JSON_parse P (value e) with
        | Some session =>
            if option_string_eqb (sd_userId session) uid
            then Some (mkSessionInfo
                         (String_replace key REDIS_TOKEN_PREFIX "")
                         (sd_createdAt session) (sd_lastUsedAt session))
            else None
        | None => None
        end
      else None
  | None => None
  end.

(** Every session row a read can see is a JSON object. *)
Definition rows_parse (P : Platform) (w : World) : Prop :=
  forall key e,
    String.prefix REDIS_TOKEN_PREFIX key = true ->
    lookup_live w key = Some e ->
    truthy (value e) = true ->
    is_Some (JSON_parse P (value e)).

(** The body of the loop of [getUserSessions], named. *)
Definition list_step (P : Platform) (userId : string)
    (sessions : list SessionInfo) (key : string) : M (list SessionInfo) :=
  let! sessionData := redis_get key in
  match sessionData with
  | Some text =>
      if truthy text then
        let! session := JSON_parse_or_throw P text in
        if option_string_eqb (sd_userId session) userId then
          ret (sessions ++
               [mkSessionInfo (String_replace key REDIS_TOKEN_PREFIX "")
                  (sd_createdAt session) (sd_lastUsedAt session)])
        else ret sessions
      else ret sessions
  | None => ret sessions
  end.

(** The body of the loop of [revokeAllUserTokens], named. *)
Definition revoke_step (P : Platform) (userId : string) (_ : unit)
    (key : string) : M unit :=
  let! sessionData := redis_get key in
  match sessionData with
  | Some text =>
      if truthy text then
        let! session := JSON_parse_or_throw P text in
        if option_string_eqb (sd_userId session) userId then
          let sessionId := String_replace key REDIS_TOKEN_PREFIX "" in
          revokeSession sessionId
        else ret tt
      else ret tt
  | None => ret tt
  end.

(** From [w] to [w'] the clock stood still and every session row that is
    new or changed holds a stringified session object. *)
Definition writes_rows (P : Platform) (w w' : World) : Prop :=
  clock w' = clock w /\
  forall k e,
    String.prefix REDIS_TOKEN_PREFIX k = true ->
    db w' !! k = Some e ->
    db w !! k = Some e \/ exists session, value e = JSON_stringify P session.

(** The body of the loop of a sweep, named; [test] is its condition on the
    TTL of the key. *)
Definition sweep_step (test : Z -> bool) (count : Z) (key : string) : M Z :=
  let! ttl := redis_ttl key in
  if test ttl then
    redis_del key ;;!
    ret (count + 1)
  else ret count.

(** From [w] to [w'] the clock stood still and the only change is that
    keys in [K] which a read saw and which had no expiry are gone. *)
Definition only_drops (K : string -> Prop) (w w' : World) : Prop :=
  clock w' = clock w /\
  forall k,
    db w' !! k = db w !! k \/
    (db w' !! k = None /\ K k /\
     exists e, lookup_live w k = Some e /\ expireAt e = None).

(** A key that a read sees and that has no expiry. *)
Definition is_orphan (w : World) (k : string) : bool :=
  match lookup_live w k with
  | Some e =>
      match expireAt e with
      | None => true
      | Some _ => false
      end
  | None => false
  end.

(** Those of the keys [ks] that a read sees and that have no expiry. *)
Definition orphans (w : World) (ks : list string) : list string :=
  filter (fun k => is_orphan w k = true) ks.

(** Every key of the store has an expiry. *)
Definition all_expiring (w : World) : Prop :=
  forall k e, db w !! k = Some e -> is_Some (expireAt e).

(** Every key that is new or changed from [w] to [w'] has an expiry. *)
Definition adds_expiring (w w' : World) : Prop :=
  forall k e,
    db w' !! k = Some e -> db w !! k = Some e \/ is_Some (expireAt e).

(** A key the sweep may meet: one a read sees, or one that is gone. *)
Definition sweepable (w : World) (k : string) : Prop :=
  db w !! k = None \/ is_Some (lookup_live w k).

(** From [w] to [w'] no key has appeared. *)
Definition no_new_keys (w w' : World) : Prop :=
  forall k, db w !! k = None -> db w' !! k = None.

(** The keys the session cleanup job looks at. *)
Definition swept_key (k : string) : Prop :=
  String.prefix "session:" k = true \/ String.prefix "blacklist:" k = true.

(** ** Scenarios on the reference platform *)

(** An empty, healthy store five seconds into the epoch. *)
Definition w_start : World := mkWorld ∅ 5000 [] 0 [].

(** User [u1] logs in. *)
Definition login : Result TokenPair * World :=
  generateTokenPair Wire.platform "u1" "a@x.com" w_start.

Definition w_login : World := snd login.

Definition login_access : string :=
  match fst login with
  | Ok tp => accessToken tp
  | Throw _ => EmptyString
  end.

Definition login_refresh : string :=
  match fst login with
  | Ok tp => refreshToken tp
  | Throw _ => EmptyString
  end.

(** What the two tokens of that login carry. *)
Definition login_access_payload : TokenPayload :=
  signed_claims "u1" "a@x.com" "s0" access 5 ACCESS_TOKEN_EXPIRY.

Definition login_refresh_payload : TokenPayload :=
  signed_claims "u1" "a@x.com" "s0" refresh 5 REFRESH_TOKEN_EXPIRY.

(** The store after the login, with a fault schedule that lets the
    blacklist lookup and the read of the refresh record through and fails
    each read of the session row. *)
Definition w_flaky : World := with_faults [false; true; false; true] w_login.

(** The store after the access token of the login has been revoked. *)
Definition w_revoked : World :=
  snd (revokeToken Wire.platform login_access w_login).

(** A string that is no token. *)
Definition garbage : string := "not-a-token".

(** The store after the login with a session row that has no expiry. *)
Definition w_orphan : World :=
  with_db (<["token:old" := mkEntry "x" None]> (db w_login)) w_login.

(** A store that fails at the second command of a login. *)
Definition w_half : World := with_faults [false; true] w_start.

(** The store after session [s0] of the login has been revoked. *)
Definition w_logged_out : World := snd (revokeSession "s0" w_login).

(** User [u1], and a database that has that user alone. *)
Definition user1 : User := mkUser "u1" "a@x.com" "Ann" 0 0.

Definition findUnique1 (id : string) : M (option User) :=
  fun w => (Ok (if String.eqb id "u1" then Some user1 else None), w).

(** A chain that does nothing after the middleware. *)
Definition next_done (_ : AuthContext) : Handler unit := hret tt.

(** The header of a request that carries [token]. *)
Definition bearer (token : string) : option string :=
  Some ("Bearer " +:+ token).

(** * Properties *)

(** ** The monad and the commands *)

Lemma try_catch_unit_ok (m : M unit) (w : World) :
  fst (try_catch m (fun _ => ret tt) w) = Ok tt.
Proof.
  unfold try_catch. destruct (m w) as [[[]|e] w']; reflexivity.
Qed.

Lemma bind_Ok_inv {A B} (m : M A) (k : A -> M B) w b w' :
  bind m k w = (Ok b, w') ->
  exists a w1, m w = (Ok a, w1) /\ k a w1 = (Ok b, w').
Proof.
  unfold bind. destruct (m w) as [[a|e] w1]; intros H; [eauto | discriminate].
Qed.

Lemma try_rethrow_Ok_inv {A} (m : M A) w a w' :
  try_catch m (fun error => throw error) w = (Ok a, w') -> m w = (Ok a, w').
Proof.
  unfold try_catch, throw. destruct (m w) as [[x|e] w1]; intros H;
    [assumption | discriminate].
Qed.

Lemma same_store_refl w : same_store w w.
Proof. split; reflexivity. Qed.

Lemma same_store_trans w1 w2 w3 :
  same_store w1 w2 -> same_store w2 w3 -> same_store w1 w3.
Proof. intros [? ?] [? ?]. split; congruence. Qed.

Lemma same_store_log ev w : same_store w (log ev w).
Proof. split; reflexivity. Qed.

Lemma same_store_now w w' : same_store w w' -> now_s w' = now_s w.
Proof. intros [_ H]. unfold now_s. now rewrite H. Qed.

Lemma same_store_lookup w w' k :
  same_store w w' -> lookup_live w' k = lookup_live w k.
Proof.
  intros H. unfold lookup_live. rewrite (same_store_now _ _ H).
  destruct H as [-> _]. reflexivity.
Qed.

Lemma command_healthy {A} ev (run : M A) w :
  faults w = [] -> command ev run w = run (log ev w).
Proof. unfold command. simpl. intros ->. reflexivity. Qed.

(** A command either fails before it runs, or runs on the same store. *)
Lemma command_inv {A} ev (run : M A) w r w' :
  command ev run w = (r, w') ->
  (r = Throw RedisError /\ same_store w w') \/
  (exists w1, same_store w w1 /\ run w1 = (r, w')).
Proof.
  unfold command. simpl. destruct (faults w) as [|[] fs]; intros H.
  - right. exists (log ev w). split; [apply same_store_log | exact H].
  - left. inversion H; subst. split; [reflexivity | split; reflexivity].
  - right. exists (with_faults fs (log ev w)).
    split; [split; reflexivity | exact H].
Qed.

Lemma redis_get_inv k w v w' :
  redis_get k w = (Ok v, w') ->
  v = value <$> lookup_live w k /\ same_store w w'.
Proof.
  intros H. apply command_inv in H as [[? _]|(w1 & Hs & H)]; [discriminate|].
  inversion H; subst. split; [|exact Hs].
  now rewrite (same_store_lookup _ _ _ Hs).
Qed.

Lemma redis_get_same k w r w' : redis_get k w = (r, w') -> same_store w w'.
Proof.
  intros H. apply command_inv in H as [[_ ?]|(w1 & Hs & H)]; [assumption|].
  inversion H; subst. exact Hs.
Qed.

Lemma redis_exists_inv k w n w' :
  redis_exists k w = (Ok n, w') ->
  n = count_live w k /\ same_store w w'.
Proof.
  intros H. apply command_inv in H as [[? _]|(w1 & Hs & H)]; [discriminate|].
  inversion H; subst. split; [|exact Hs].
  unfold count_live. now rewrite (same_store_lookup _ _ _ Hs).
Qed.

Lemma redis_keys_inv p w ks w' :
  redis_keys p w = (Ok ks, w') ->
  ks = keys_with_prefix p w /\ same_store w w'.
Proof.
  intros H. apply command_inv in H as [[? _]|(w1 & Hs & H)]; [discriminate|].
  inversion H; subst. split; [|exact Hs].
  unfold keys_with_prefix. rewrite (same_store_now _ _ Hs).
  destruct Hs as [-> _]. reflexivity.
Qed.

Lemma redis_del_inv k w n w' :
  redis_del k w = (Ok n, w') ->
  db w' = delete k (db w) /\ clock w' = clock w.
Proof.
  intros H. apply command_inv in H as [[? _]|(w1 & [Hd Hc] & H)]; [discriminate|].
  inversion H; subst. simpl. now rewrite Hd.
Qed.

(** The three key spaces are disjoint. *)
Lemma refresh_key_not_token a b :
  REDIS_REFRESH_PREFIX +:+ a <> REDIS_TOKEN_PREFIX +:+ b.
Proof. discriminate. Qed.

Lemma blacklist_key_not_token a b :
  REDIS_BLACKLIST_PREFIX +:+ a <> REDIS_TOKEN_PREFIX +:+ b.
Proof. discriminate. Qed.

Lemma blacklist_key_not_refresh a b :
  REDIS_BLACKLIST_PREFIX +:+ a <> REDIS_REFRESH_PREFIX +:+ b.
Proof. discriminate. Qed.

(** ** Frames *)

Lemma same_store_stable : Stable same_store.
Proof.
  split; [apply same_store_refl | apply same_store_trans | trivial].
Qed.

Lemma frame_on_stable K : Stable (frame_on K).
Proof.
  split.
  - intros w. split; reflexivity.
  - intros w1 w2 w3 [Hc1 H1] [Hc2 H2]. split; [congruence|].
    intros k Hk. rewrite (H2 k Hk). apply (H1 k Hk).
  - intros w w' [Hd Hc]. split; [exact Hc|]. intros k _. now rewrite Hd.
Qed.

Lemma frame_on_lookup K w w' k :
  frame_on K w w' -> ~ K k -> lookup_live w' k = lookup_live w k.
Proof.
  intros [Hc Hd] Hk. unfold lookup_live, now_s. now rewrite Hc, (Hd k Hk).
Qed.

Section Preserves.

Variable R : World -> World -> Prop.
Hypothesis HR : Stable R.

Lemma preserves_ret {A} (a : A) : preserves R (ret a).
Proof. intros w r w' H. inversion H; subst. apply (stable_refl R HR). Qed.

Lemma preserves_throw {A} e : preserves R (@throw A e).
Proof. intros w r w' H. inversion H; subst. apply (stable_refl R HR). Qed.

Lemma preserves_bind {A B} (m : M A) (k : A -> M B) :
  preserves R m -> (forall a, preserves R (k a)) -> preserves R (bind m k).
Proof.
  intros Hm Hk w r w'. unfold bind.
  destruct (m w) as [[a|e] w1] eqn:E; intros H.
  - eapply (stable_trans R HR); [eapply Hm, E | eapply Hk, H].
  - inversion H; subst. eapply Hm, E.
Qed.

Lemma preserves_try_catch {A} (m : M A) (h : Error -> M A) :
  preserves R m -> (forall e, preserves R (h e)) ->
  preserves R (try_catch m h).
Proof.
  intros Hm Hh w r w'. unfold try_catch.
  destruct (m w) as [[a|e] w1] eqn:E; intros H.
  - inversion H; subst. eapply Hm, E.
  - eapply (stable_trans R HR); [eapply Hm, E | eapply Hh, H].
Qed.

Lemma preserves_command {A} ev (run : M A) :
  preserves R run -> preserves R (command ev run).
Proof.
  intros Hrun w r w' H.
  apply command_inv in H as [[_ Hs]|(w1 & Hs & H)].
  - apply (stable_same R HR), Hs.
  - eapply (stable_trans R HR); [apply (stable_same R HR), Hs | eapply Hrun, H].
Qed.

Lemma preserves_pure {A} (f : World -> Result A) :
  preserves R (fun w => (f w, w)).
Proof. intros w r w' H. inversion H; subst. apply (stable_refl R HR). Qed.

Lemma preserves_logged {A} (f : World -> Result A) ev :
  preserves R (fun w => (f w, log ev w)).
Proof.
  intros w r w' H. inversion H; subst.
  apply (stable_same R HR), same_store_log.
Qed.

Lemma preserves_redis_get k : preserves R (redis_get k).
Proof. apply preserves_command, preserves_pure. Qed.

Lemma preserves_redis_exists k : preserves R (redis_exists k).
Proof. apply preserves_command, preserves_pure. Qed.

Lemma preserves_redis_ttl k : preserves R (redis_ttl k).
Proof. apply preserves_command. apply (preserves_pure (fun w => Ok _)). Qed.

Lemma preserves_redis_keys p : preserves R (redis_keys p).
Proof. apply preserves_command, preserves_pure. Qed.

Lemma preserves_for_of {A S} (xs : list A) (body : S -> A -> M S) :
  (forall acc x, preserves R (body acc x)) ->
  forall acc, preserves R (for_of xs acc body).
Proof.
  intros Hb. induction xs as [|x xs IH]; intros acc; simpl.
  - apply preserves_ret.
  - apply preserves_bind; [apply Hb | intros a; apply IH].
Qed.

End Preserves.

Lemma frame_redis_setex (K : string -> Prop) k s v :
  K k -> preserves (frame_on K) (redis_setex k s v).
Proof.
  intros HK. apply preserves_command; [apply frame_on_stable|].
  intros w r w'. destruct (0 <? s); intros H; inversion H; subst.
  - split; [reflexivity|]. intros k' Hk. simpl.
    rewrite lookup_insert_ne; [reflexivity | congruence].
  - split; reflexivity.
Qed.

Lemma frame_redis_del (K : string -> Prop) k :
  K k -> preserves (frame_on K) (redis_del k).
Proof.
  intros HK. apply preserves_command; [apply frame_on_stable|].
  intros w r w' H. inversion H; subst.
  split; [reflexivity|]. intros k' Hk. simpl.
  rewrite lookup_delete_ne; [reflexivity | congruence].
Qed.

(** ** What the methods leave alone *)

Section Frames.

Variable P : Platform.

Lemma preserves_JSON_parse R text :
  Stable R -> preserves R (JSON_parse_or_throw P text).
Proof.
  intros HR. unfold JSON_parse_or_throw.
  destruct (JSON_parse P text); [apply preserves_ret | apply preserves_throw];
    exact HR.
Qed.

Lemma preserves_jwt_sign R p k e i a :
  Stable R -> preserves R (jwt_sign P p k e i a).
Proof.
  intros HR w r w'. unfold jwt_sign.
  destruct (jws_encode P _ k); intros H; inversion H; subst;
    apply (stable_same R HR), same_store_log.
Qed.

Lemma frame_updateSessionLastUsed (K : string -> Prop) sid :
  K (REDIS_TOKEN_PREFIX +:+ sid) ->
  preserves (frame_on K) (updateSessionLastUsed P sid).
Proof.
  intros HK. pose proof (frame_on_stable K) as HR.
  unfold updateSessionLastUsed.
  apply preserves_try_catch; [exact HR | | intros _; now apply preserves_ret].
  apply preserves_bind; [exact HR | now apply preserves_redis_get |].
  intros [text|]; [|now apply preserves_ret].
  destruct (truthy text); [|now apply preserves_ret].
  apply preserves_bind; [exact HR | now apply preserves_JSON_parse |].
  intros session.
  apply preserves_bind; [exact HR | now apply preserves_pure |]. intros stamp.
  apply preserves_bind; [exact HR | now apply preserves_redis_ttl |]. intros ttl.
  now apply frame_redis_setex.
Qed.

Lemma frame_verifyToken token :
  preserves (frame_on session_key) (verifyToken P token).
Proof.
  pose proof (frame_on_stable session_key) as HR.
  unfold verifyToken.
  apply preserves_try_catch; [exact HR | | intros _; now apply preserves_ret].
  apply preserves_bind; [exact HR | now apply preserves_redis_exists |].
  intros n. destruct (negb (n =? 0)); [now apply preserves_ret|].
  apply preserves_bind; [exact HR | now apply preserves_logged |].
  intros payload.
  apply preserves_bind; [exact HR | | intros _; now apply preserves_ret].
  destruct (truthy (sessionId payload)); [|now apply preserves_ret].
  apply frame_updateSessionLastUsed. now exists (sessionId payload).
Qed.

Lemma frame_refreshAccessToken token :
  preserves (frame_on session_key) (refreshAccessToken P token).
Proof.
  pose proof (frame_on_stable session_key) as HR.
  unfold refreshAccessToken.
  apply preserves_try_catch; [exact HR | | intros _; now apply preserves_ret].
  apply preserves_bind; [exact HR | apply frame_verifyToken |].
  intros [payload|]; [|now apply preserves_ret].
  destruct (negb _); [now apply preserves_ret|].
  apply preserves_bind; [exact HR | now apply preserves_redis_get |].
  intros [stored|]; [|now apply preserves_ret].
  destruct (_ || _); [now apply preserves_ret|].
  apply preserves_bind; [exact HR | now apply preserves_jwt_sign |].
  intros tok.
  apply preserves_bind; [exact HR | now apply preserves_pure |]. intros t.
  apply preserves_bind; [exact HR | | intros _; now apply preserves_ret].
  apply frame_updateSessionLastUsed. now exists (sessionId payload).
Qed.

Lemma frame_revokeSession sid :
  preserves (frame_on (keys_of_session sid)) (revokeSession sid).
Proof.
  pose proof (frame_on_stable (keys_of_session sid)) as HR.
  unfold revokeSession.
  apply preserves_try_catch; [exact HR | | intros e; now apply preserves_throw].
  apply preserves_bind; [exact HR | apply frame_redis_del; now left |].
  intros _.
  apply preserves_bind; [exact HR | apply frame_redis_del; now right |].
  intros _. now apply preserves_ret.
Qed.

End Frames.


(** ** Keys and prefixes *)

Lemma append_cons c p r : String c p +:+ r = String c (p +:+ r).
Proof. reflexivity. Qed.

Lemma prefix_app p r : String.prefix p (p +:+ r) = true.
Proof.
  induction p as [|c p IH]; [now destruct r|].
  rewrite append_cons. simpl.
  destruct (ascii_dec c c) as [_|n]; [exact IH | contradiction].
Qed.

Lemma prefix_split p k :
  String.prefix p k = true -> k = p +:+ string_drop (String.length p) k.
Proof.
  revert k. induction p as [|c p IH]; intros k H; simpl; [reflexivity|].
  destruct k as [|c' k]; simpl in H; [discriminate|].
  destruct (ascii_dec c c') as [->|]; [|discriminate].
  rewrite append_cons. f_equal. now apply IH.
Qed.

Lemma string_drop_app p r : string_drop (String.length p) (p +:+ r) = r.
Proof.
  induction p as [|c p IH]; [reflexivity|]. rewrite append_cons. exact IH.
Qed.

(** Removing the prefix from a key that starts with it leaves the rest. *)
Lemma String_replace_prefix p r : String_replace (p +:+ r) p "" = r.
Proof.
  destruct (p +:+ r) as [|c s] eqn:E.
  - destruct p; [|discriminate]. change r with (EmptyString +:+ r).
    now rewrite E.
  - unfold String_replace. fold String_replace. rewrite <- E, prefix_app.
    now rewrite string_drop_app.
Qed.

Lemma token_key_sid key :
  String.prefix REDIS_TOKEN_PREFIX key = true ->
  key = REDIS_TOKEN_PREFIX +:+ String_replace key REDIS_TOKEN_PREFIX "".
Proof.
  intros H. apply prefix_split in H.
  remember (string_drop (String.length REDIS_TOKEN_PREFIX) key) as r.
  subst key. now rewrite String_replace_prefix.
Qed.

Lemma elem_of_keys_with_prefix p w k :
  k ∈ keys_with_prefix p w <->
  String.prefix p k = true /\ is_Some (lookup_live w k).
Proof.
  unfold keys_with_prefix, lookup_live.
  rewrite list_elem_of_filter, list_elem_of_fmap. split.
  - intros [Hp ([k' e] & -> & Hin)]. split; [exact Hp|].
    apply elem_of_map_to_list, map_lookup_filter_Some in Hin as [Hl Hlive].
    simpl in *. rewrite Hl, Hlive. eauto.
  - intros [Hp [e He]]. split; [exact Hp|].
    destruct (db w !! k) as [e0|] eqn:Hl; [|discriminate].
    destruct (live (now_s w) e0) eqn:Hlive; [|discriminate].
    exists (k, e0). split; [reflexivity|].
    apply elem_of_map_to_list, map_lookup_filter_Some. auto.
Qed.

(** ** The touch of a session row *)

Lemma redis_get_healthy k w :
  faults w = [] ->
  redis_get k w = (Ok (value <$> lookup_live w k), log (EvGet k) w).
Proof. intros Hf. unfold redis_get. now rewrite command_healthy. Qed.

Lemma redis_exists_healthy k w :
  faults w = [] ->
  redis_exists k w = (Ok (count_live w k), log (EvExists k) w).
Proof. intros Hf. unfold redis_exists. now rewrite command_healthy. Qed.

Lemma redis_ttl_healthy k w :
  faults w = [] ->
  redis_ttl k w =
  (Ok match lookup_live w k with
      | None => -2
      | Some e => match expireAt e with None => -1 | Some x => x - now_s w end
      end, log (EvTtl k) w).
Proof. intros Hf. unfold redis_ttl. now rewrite command_healthy. Qed.

Lemma redis_setex_healthy k s v w :
  faults w = [] -> 0 < s ->
  redis_setex k s v w =
  (Ok tt, with_db (<[k := mkEntry v (Some (now_s w + s))]> (db w))
            (log (EvSetex k s v) w)).
Proof.
  intros Hf Hs. unfold redis_setex. rewrite command_healthy by assumption.
  destruct (0 <? s) eqn:E; [reflexivity | lia].
Qed.

Lemma redis_del_healthy k w :
  faults w = [] ->
  redis_del k w =
  (Ok (count_live w k), with_db (delete k (db w)) (log (EvDel k) w)).
Proof. intros Hf. unfold redis_del. now rewrite command_healthy. Qed.

Lemma redis_keys_healthy p w :
  faults w = [] ->
  redis_keys p w = (Ok (keys_with_prefix p w), log (EvKeys (p +:+ "*")) w).
Proof. intros Hf. unfold redis_keys. now rewrite command_healthy. Qed.

Lemma lookup_live_Some_live w k e :
  lookup_live w k = Some e -> live (now_s w) e = true.
Proof.
  unfold lookup_live. destruct (db w !! k) as [e0|]; [|discriminate].
  destruct (live (now_s w) e0) eqn:E; intros H; inversion H; subst; exact E.
Qed.

Lemma live_ttl_positive e w x :
  live (now_s w) e = true -> expireAt e = Some x -> 0 < x - now_s w.
Proof. unfold live. intros H E. rewrite E in H. lia. Qed.

Lemma touched_seconds_positive w k e :
  lookup_live w k = Some e -> 0 < touched_seconds e w.
Proof.
  intros Hl. apply lookup_live_Some_live in Hl. unfold touched_seconds.
  destruct (expireAt e) as [x|] eqn:E; [|reflexivity].
  now apply (live_ttl_positive e).
Qed.

Lemma lookup_live_log ev w k : lookup_live (log ev w) k = lookup_live w k.
Proof. reflexivity. Qed.

Lemma now_s_log ev w : now_s (log ev w) = now_s w.
Proof. reflexivity. Qed.

Lemma ttl_choice e w :
  live (now_s w) e = true ->
  (if 0 <? match expireAt e with Some x => x - now_s w | None => -1 end
   then match expireAt e with Some x => x - now_s w | None => -1 end
   else 7 * 24 * 60 * 60) = touched_seconds e w.
Proof.
  intros Hl. unfold touched_seconds.
  destruct (expireAt e) as [x|] eqn:E; [|reflexivity].
  pose proof (live_ttl_positive e w x Hl E).
  destruct (0 <? x - now_s w) eqn:E'; [reflexivity | lia].
Qed.

Section Touch.

Variable P : Platform.

Lemma updateSessionLastUsed_ok sid w :
  fst (updateSessionLastUsed P sid w) = Ok tt.
Proof. apply try_catch_unit_ok. Qed.

Lemma updateSessionLastUsed_run sid w :
  exists w', updateSessionLastUsed P sid w = (Ok tt, w').
Proof.
  pose proof (updateSessionLastUsed_ok sid w) as H.
  destruct (updateSessionLastUsed P sid w) as [r w']. simpl in H. subst r.
  now exists w'.
Qed.

(** On a healthy store, a row that is there and parses is written back with
    the seconds TTL reported for it. *)
Lemma touch_present sid w e session :
  faults w = [] ->
  lookup_live w (REDIS_TOKEN_PREFIX +:+ sid) = Some e ->
  truthy (value e) = true ->
  JSON_parse P (value e) = Some session ->
  let key := REDIS_TOKEN_PREFIX +:+ sid in
  let secs := touched_seconds e w in
  let row := touched_row P session w in
  updateSessionLastUsed P sid w =
  (Ok tt,
   mkWorld (<[key := mkEntry row (Some (now_s w + secs))]> (db w)) (clock w)
     [] (uuids w)
     (trace w ++ [EvGet key; EvTtl key; EvSetex key secs row])).
Proof.
  intros Hf Hl Ht Hp. cbv zeta.
  pose proof (touched_seconds_positive w _ e Hl) as Hpos.
  unfold updateSessionLastUsed, try_catch, bind.
  rewrite redis_get_healthy by assumption. rewrite Hl.
  cbn [fmap option_fmap option_map].
  rewrite Ht. unfold JSON_parse_or_throw. rewrite Hp. unfold ret, new_Date_toISOString.
  rewrite redis_ttl_healthy by assumption.
  rewrite !lookup_live_log, !now_s_log, Hl.
  rewrite (ttl_choice e w (lookup_live_Some_live _ _ _ Hl)).
  rewrite redis_setex_healthy by assumption.
  destruct w as [d c f u t]. simpl in Hf. subst f.
  unfold with_db, log, touched_row. simpl. rewrite <- !app_assoc. reflexivity.
Qed.

(** On a healthy store, a row that is not there is left alone. *)
Lemma touch_absent sid w :
  faults w = [] ->
  lookup_live w (REDIS_TOKEN_PREFIX +:+ sid) = None ->
  updateSessionLastUsed P sid w =
  (Ok tt, log (EvGet (REDIS_TOKEN_PREFIX +:+ sid)) w).
Proof.
  intros Hf Hl. unfold updateSessionLastUsed, try_catch, bind.
  rewrite redis_get_healthy by assumption. rewrite Hl. reflexivity.
Qed.

(** On a healthy store the touch stays healthy and only issues commands on
    the row of its session, the first of them a GET. *)
Lemma touch_trace sid w :
  faults w = [] ->
  exists w' rest,
    updateSessionLastUsed P sid w = (Ok tt, w') /\
    faults w' = [] /\
    trace w' = trace w ++ EvGet (REDIS_TOKEN_PREFIX +:+ sid) :: rest /\
    Forall (touch_event sid) rest.
Proof.
  intros Hf.
  destruct (lookup_live w (REDIS_TOKEN_PREFIX +:+ sid)) as [e|] eqn:Hl.
  2:{ eexists _, []. rewrite touch_absent by assumption.
      repeat split; [exact Hf | constructor]. }
  destruct (truthy (value e)) eqn:Ht.
  2:{ eexists (log _ w), []. repeat split; [|exact Hf | constructor].
      unfold updateSessionLastUsed, try_catch, bind.
      rewrite redis_get_healthy by assumption. rewrite Hl. simpl.
      now rewrite Ht. }
  destruct (JSON_parse P (value e)) as [session|] eqn:Hp.
  - eexists _, _. rewrite (touch_present sid w e session) by assumption.
    repeat split. simpl. repeat constructor.
  - eexists (log _ w), []. repeat split; [|exact Hf | constructor].
    unfold updateSessionLastUsed, try_catch, bind.
    rewrite redis_get_healthy by assumption. rewrite Hl. simpl.
    rewrite Ht. unfold JSON_parse_or_throw. now rewrite Hp.
Qed.
End Touch.

Section TraceAny.

Variable P : Platform.

Lemma command_trace {A} ev (run : M A) w r w' :
  (forall w1 r1 w1', run w1 = (r1, w1') -> trace w1' = trace w1) ->
  command ev run w = (r, w') -> trace w' = trace w ++ [ev].
Proof.
  intros Hrun. unfold command. simpl.
  destruct (faults w) as [|[] fs]; intros H.
  - now rewrite (Hrun _ _ _ H).
  - now inversion H.
  - now rewrite (Hrun _ _ _ H).
Qed.

Lemma redis_get_trace k w r w' :
  redis_get k w = (r, w') -> trace w' = trace w ++ [EvGet k].
Proof. apply command_trace. intros w1 r1 w1' H. now inversion H. Qed.

Lemma redis_ttl_trace k w r w' :
  redis_ttl k w = (r, w') -> trace w' = trace w ++ [EvTtl k].
Proof. apply command_trace. intros w1 r1 w1' H. now inversion H. Qed.

Lemma redis_setex_trace k s v w r w' :
  redis_setex k s v w = (r, w') -> trace w' = trace w ++ [EvSetex k s v].
Proof.
  apply command_trace. intros w1 r1 w1'.
  destruct (0 <? s); intros H; now inversion H.
Qed.

Lemma redis_exists_trace k w r w' :
  redis_exists k w = (r, w') -> trace w' = trace w ++ [EvExists k].
Proof. apply command_trace. intros w1 r1 w1' H. now inversion H. Qed.

(** Whatever the store does, the touch only sends commands on the row of
    its session, the first of them a GET. *)
Lemma touch_trace_any sid w :
  exists rest,
    trace (snd (updateSessionLastUsed P sid w)) =
    trace w ++ EvGet (REDIS_TOKEN_PREFIX +:+ sid) :: rest /\
    Forall (touch_event sid) rest.
Proof.
  unfold updateSessionLastUsed, try_catch, bind.
  destruct (redis_get _ w) as [[o|e] w1] eqn:Hg;
    apply redis_get_trace in Hg;
    [|exists []; split; [exact Hg | constructor]].
  destruct o as [text|]; [|exists []; split; [exact Hg | constructor]].
  destruct (truthy text); [|exists []; split; [exact Hg | constructor]].
  unfold JSON_parse_or_throw.
  destruct (JSON_parse P text) as [session|];
    [|exists []; split; [exact Hg | constructor]].
  unfold ret, new_Date_toISOString.
  destruct (redis_ttl _ w1) as [[ttl|e] w2] eqn:Ht;
    apply redis_ttl_trace in Ht.
  2:{ exists [EvTtl (REDIS_TOKEN_PREFIX +:+ sid)]. simpl.
      split; [|repeat constructor].
      rewrite Ht, Hg, <- app_assoc. reflexivity. }
  destruct (redis_setex _ _ _ w2) as [r w3] eqn:Hs.
  apply redis_setex_trace in Hs.
  eexists [EvTtl _; EvSetex _ _ _]. split.
  - destruct r; simpl; rewrite Hs, Ht, Hg, <- !app_assoc; reflexivity.
  - repeat constructor.
Qed.

End TraceAny.

(** ** verifyToken *)

Section Verify.

Variable P : Platform.

Lemma blacklisted_count w token :
  negb (count_live w (REDIS_BLACKLIST_PREFIX +:+ token) =? 0) =
  blacklisted w token.
Proof.
  unfold count_live, blacklisted. now destruct (lookup_live w _).
Qed.

(** What [verifyToken] returns, in every world. *)
Lemma verifyToken_fst token w :
  fst (verifyToken P token w) = Ok (verdict P token w).
Proof.
  unfold verifyToken, verdict, try_catch, bind, redis_exists, command.
  cbn [faults log].
  destruct (faults w) as [|[] fs]; [| reflexivity |].
  - rewrite blacklisted_count.
    change (blacklisted (log _ w) token) with (blacklisted w token).
    destruct (blacklisted w token); [reflexivity|].
    unfold jwt_verify. rewrite now_s_log.
    destruct (jwt_check P token _ _ _ _) as [p|e]; [|reflexivity].
    destruct (truthy (sessionId p)); [|reflexivity].
    destruct (updateSessionLastUsed_run P (sessionId p)
                (log (EvVerify token) (log (EvExists (REDIS_BLACKLIST_PREFIX +:+ token)) w)))
      as [w' ->].
    reflexivity.
  - rewrite blacklisted_count.
    change (blacklisted (with_faults fs (log _ w)) token)
      with (blacklisted w token).
    destruct (blacklisted w token); [reflexivity|].
    unfold jwt_verify.
    change (now_s (with_faults fs (log _ w))) with (now_s w).
    destruct (jwt_check P token _ _ _ _) as [p|e]; [|reflexivity].
    destruct (truthy (sessionId p)); [|reflexivity].
    match goal with
    | |- context [updateSessionLastUsed P ?s ?x] =>
        destruct (updateSessionLastUsed_run P s x) as [w' ->]
    end.
    reflexivity.
Qed.

(** The steps of [verifyToken], in every world. *)
Lemma verifyToken_steps token w :
  verifyToken P token w =
  let w1 := after_command (EvExists (REDIS_BLACKLIST_PREFIX +:+ token)) w in
  let w2 := log (EvVerify token) w1 in
  if hd false (faults w) || blacklisted w token then (Ok None, w1)
  else
    match jwt_check P token (JWT_SECRET P) ISSUER AUDIENCE (now_s w) with
    | Throw _ => (Ok None, w2)
    | Ok p =>
        (Ok (Some p),
         if truthy (sessionId p)
         then snd (updateSessionLastUsed P (sessionId p) w2)
         else w2)
    end.
Proof.
  cbv zeta.
  unfold verifyToken, try_catch, bind, redis_exists, command, after_command.
  cbn [faults log].
  destruct (faults w) as [|[] fs]; cbn [hd orb]; [| reflexivity |];
    rewrite blacklisted_count;
    match goal with
    | |- context [blacklisted ?x token] =>
        change (blacklisted x token) with (blacklisted w token)
    end;
    (destruct (blacklisted w token); [reflexivity|]);
    unfold jwt_verify;
    match goal with
    | |- context [now_s ?x] => change (now_s x) with (now_s w)
    end;
    (destruct (jwt_check P token _ _ _ _) as [p|e]; [|reflexivity]);
    (destruct (truthy (sessionId p)); [|reflexivity]);
    match goal with
    | |- context [updateSessionLastUsed P ?s ?x] =>
        destruct (updateSessionLastUsed_run P s x) as [w' ->]
    end;
    reflexivity.
Qed.

Lemma verifyToken_run token w :
  exists w', verifyToken P token w = (Ok (verdict P token w), w').
Proof.
  pose proof (verifyToken_fst token w) as H.
  destruct (verifyToken P token w) as [r w']. simpl in H. subst r.
  now exists w'.
Qed.

Lemma verdict_Some_inv token w p :
  verdict P token w = Some p ->
  hd false (faults w) = false /\
  blacklisted w token = false /\
  jwt_check P token (JWT_SECRET P) ISSUER AUDIENCE (now_s w) = Ok p.
Proof.
  unfold verdict. intros H.
  assert (Hf : hd false (faults w) = false).
  { destruct (faults w) as [|[] fs]; [reflexivity | discriminate | reflexivity]. }
  assert (H' : (if blacklisted w token then None
                else match jwt_check P token (JWT_SECRET P) ISSUER AUDIENCE (now_s w)
                     with Ok payload => Some payload | Throw _ => None end)
               = Some p).
  { destruct (faults w) as [|[] fs]; [exact H | discriminate | exact H]. }
  destruct (blacklisted w token); [discriminate|].
  destruct (jwt_check P token _ _ _ _); inversion H'; subst. auto.
Qed.

(** On a healthy store: the world [verifyToken] ends in. *)
Lemma verifyToken_healthy token w :
  faults w = [] ->
  let w1 := log (EvExists (REDIS_BLACKLIST_PREFIX +:+ token)) w in
  let w2 := log (EvVerify token) w1 in
  verifyToken P token w =
  if blacklisted w token then (Ok None, w1)
  else
    match jwt_check P token (JWT_SECRET P) ISSUER AUDIENCE (now_s w) with
    | Throw _ => (Ok None, w2)
    | Ok p =>
        (Ok (Some p),
         if truthy (sessionId p)
         then snd (updateSessionLastUsed P (sessionId p) w2)
         else w2)
    end.
Proof.
  intros Hf. cbv zeta. unfold verifyToken, try_catch, bind.
  rewrite redis_exists_healthy by assumption.
  rewrite blacklisted_count.
  destruct (blacklisted w token); [reflexivity|].
  unfold jwt_verify. rewrite now_s_log.
  destruct (jwt_check P token _ _ _ _) as [p|e]; [|reflexivity].
  destruct (truthy (sessionId p)); [|reflexivity].
  match goal with
  | |- context [updateSessionLastUsed P ?s ?x] =>
      destruct (updateSessionLastUsed_run P s x) as [w' ->]
  end.
  reflexivity.
Qed.

(** Once the token has verified and the stored refresh token has been read
    and is the presented one, the grant is returned. *)
Lemma refreshAccessToken_grants token w p w1 w2 t :
  verifyToken P token w = (Ok (Some p), w1) ->
  tokenType p = refresh ->
  redis_get (REDIS_REFRESH_PREFIX +:+ sessionId p) w1 = (Ok (Some token), w2) ->
  token <> EmptyString ->
  jws_encode P
    (signed_claims (userId p) (email p) (sessionId p) access (now_s w)
       ACCESS_TOKEN_EXPIRY) (JWT_SECRET P) = Some t ->
  fst (refreshAccessToken P token w) =
  Ok (Some (mkAccessGrant t (clock w + 15 * 60 * 1000))).
Proof.
  intros Hv Hty Hg Hne He.
  pose proof (frame_verifyToken P token w _ _ Hv) as [Hc1 _].
  pose proof (redis_get_same _ _ _ _ Hg) as [_ Hc2].
  unfold refreshAccessToken, try_catch, bind.
  rewrite Hv, Hty. cbn [TokenType_eqb negb]. rewrite Hg.
  assert (Htr : truthy token = true).
  { unfold truthy.
    destruct (String.eqb_spec token ""); [contradiction | reflexivity]. }
  rewrite Htr, String.eqb_refl. cbn [negb orb].
  unfold jwt_sign.
  assert (Hn : now_s w2 = now_s w) by (unfold now_s; congruence).
  rewrite Hn. cbn [userId email sessionId tokenType].
  unfold signed_claims in He. rewrite He. unfold Date_now. cbn [clock log].
  match goal with
  | |- context [updateSessionLastUsed P ?s ?x] =>
      destruct (updateSessionLastUsed_run P s x) as [w' ->]
  end.
  unfold ret. simpl. now rewrite Hc2, Hc1.
Qed.

(** A healthy store is still healthy after [verifyToken]. *)
Lemma verifyToken_stays_healthy token w :
  faults w = [] -> faults (snd (verifyToken P token w)) = [].
Proof.
  intros Hf. rewrite (verifyToken_healthy token w Hf). cbv zeta.
  destruct (blacklisted w token); [exact Hf|].
  destruct (jwt_check P token _ _ _ _) as [q|]; [|exact Hf].
  destruct (truthy (sessionId q)); [|exact Hf]. simpl.
  match goal with
  | |- context [updateSessionLastUsed P ?s ?x] =>
      destruct (touch_trace P s x Hf) as (w' & rest & -> & Hf' & _)
  end.
  exact Hf'.
Qed.

End Verify.

Section VerifyClaims.

Variable P : Platform.

(** C1. For every input string [verifyToken] returns and never throws, and
    what it returns is the payload or [null]: [null] when the store lookup
    fails, when the token is blacklisted and when jsonwebtoken rejects it as
    expired, malformed or wrongly signed, the same [null] in every case. *)
Theorem verifyToken_collapses_failures token w :
  fst (verifyToken P token w) = Ok (verdict P token w) /\
  (verdict P token w = None <->
   hd false (faults w) = true \/
   blacklisted w token = true \/
   exists e,
     jwt_check P token (JWT_SECRET P) ISSUER AUDIENCE (now_s w) = Throw e).
Proof.
  split; [apply verifyToken_fst|].
  unfold verdict. split.
  - intros H. destruct (faults w) as [|[] fs]; simpl; auto;
      (destruct (blacklisted w token); [auto|]; right; right;
       destruct (jwt_check P token _ _ _ _) as [p|e]; [discriminate | eauto]).
  - intros [H|[H|[e H]]].
    + destruct (faults w) as [|[] fs]; [discriminate | reflexivity | discriminate].
    + rewrite H. now destruct (faults w) as [|[] fs].
    + rewrite H. destruct (faults w) as [|[] fs]; [| reflexivity |];
        now destruct (blacklisted w token).
Qed.

(** C2. In every world [verifyToken] first asks the store for the
    blacklist key; if that fails or the token is blacklisted it answers
    [null] without calling [jwt.verify].  Otherwise it verifies the token
    and answers [null] if that fails.  Only when verification has
    succeeded does it go on to the session row, first with a GET; and on
    a healthy store, when the row is there and parses, it then reads the
    TTL and writes the row back with SETEX, [lastUsedAt] set to the
    current instant, so that the store holds the updated row.  In the
    first two cases the store is left as it was. *)
Theorem verifyToken_check_order token w :
  let asked := EvExists (REDIS_BLACKLIST_PREFIX +:+ token) in
  let r := fst (verifyToken P token w) in
  let w' := snd (verifyToken P token w) in
  (hd false (faults w) = true \/ blacklisted w token = true ->
   r = Ok None /\ trace w' = trace w ++ [asked] /\ db w' = db w) /\
  (hd false (faults w) = false -> blacklisted w token = false ->
   forall e,
     jwt_check P token (JWT_SECRET P) ISSUER AUDIENCE (now_s w) = Throw e ->
     r = Ok None /\
     trace w' = trace w ++ [asked; EvVerify token] /\ db w' = db w) /\
  (hd false (faults w) = false -> blacklisted w token = false ->
   forall p,
     jwt_check P token (JWT_SECRET P) ISSUER AUDIENCE (now_s w) = Ok p ->
     r = Ok (Some p) /\
     exists rest,
       trace w' = trace w ++ asked :: EvVerify token :: rest /\
       Forall (touch_event (sessionId p)) rest /\
       (truthy (sessionId p) = true ->
        let key := REDIS_TOKEN_PREFIX +:+ sessionId p in
        (exists rest', rest = EvGet key :: rest') /\
        (faults w = [] ->
         forall e session,
           lookup_live w key = Some e ->
           truthy (value e) = true ->
           JSON_parse P (value e) = Some session ->
           let row := touched_row P session w in
           let secs := touched_seconds e w in
           rest = [EvGet key; EvTtl key; EvSetex key secs row] /\
           db w' = <[key := mkEntry row (Some (now_s w + secs))]> (db w)))).
Proof.
  cbv zeta. rewrite (verifyToken_steps P token w). cbv zeta.
  assert (Ht : forall ev, trace (after_command ev w) = trace w ++ [ev]).
  { intros ev. unfold after_command. now destruct (faults w). }
  assert (Hd : forall ev, db (after_command ev w) = db w).
  { intros ev. unfold after_command. now destruct (faults w). }
  split; [|split].
  - intros H.
    assert (E : hd false (faults w) || blacklisted w token = true).
    { destruct H as [-> | ->]; [reflexivity | apply orb_true_r]. }
    rewrite E. simpl. auto.
  - intros -> -> e ->. simpl. rewrite Ht, <- app_assoc. auto.
  - intros -> -> p ->. simpl. split; [reflexivity|].
    destruct (truthy (sessionId p)).
    + match goal with
      | |- context [updateSessionLastUsed P ?s ?x] =>
          destruct (touch_trace_any P s x) as (rest & Htr & Hall)
      end.
      exists (EvGet (REDIS_TOKEN_PREFIX +:+ sessionId p) :: rest).
      split; [|split].
      * rewrite Htr. simpl. rewrite Ht, <- !app_assoc. reflexivity.
      * constructor; [reflexivity | exact Hall].
      * intros _. split; [now exists rest|].
        intros Hf e session Hl Hte Hp.
        unfold after_command in Htr |- *. rewrite Hf in Htr |- *.
        set (w2 := log (EvVerify token)
                     (log (EvExists (REDIS_BLACKLIST_PREFIX +:+ token)) w))
          in *.
        assert (Hl2 : lookup_live w2 (REDIS_TOKEN_PREFIX +:+ sessionId p)
                      = Some e)
          by (unfold w2; now rewrite !lookup_live_log).
        pose proof (touch_present P (sessionId p) w2 e session Hf Hl2 Hte Hp)
          as Hrun.
        cbv zeta in Hrun. rewrite Hrun in Htr |- *.
        cbn [snd trace db] in Htr |- *.
        apply app_inv_head in Htr. rewrite <- Htr. split; reflexivity.
    + exists []. simpl. split; [|split].
      * rewrite Ht, <- app_assoc. reflexivity.
      * constructor.
      * discriminate.
Qed.

(** C10. A failure while the session's [lastUsedAt] is updated never leaves
    [updateSessionLastUsed]: it returns normally in every world, whatever
    the store does and whether or not the row is there.  So [verifyToken]
    returns the payload as soon as the blacklist lookup and [jwt.verify]
    have passed, and [refreshAccessToken] returns the new access token as
    soon as the stored refresh token has been read and matched, for every
    schedule of store failures after that; and a [null] from [verifyToken]
    can only come from the blacklist lookup, the blacklist or
    [jwt.verify]. *)
Theorem touch_failure_is_swallowed sid token w :
  fst (updateSessionLastUsed P sid w) = Ok tt /\
  (forall p,
     hd false (faults w) = false ->
     blacklisted w token = false ->
     jwt_check P token (JWT_SECRET P) ISSUER AUDIENCE (now_s w) = Ok p ->
     fst (verifyToken P token w) = Ok (Some p)) /\
  (forall p w1 w2 t,
     verifyToken P token w = (Ok (Some p), w1) ->
     tokenType p = refresh ->
     redis_get (REDIS_REFRESH_PREFIX +:+ sessionId p) w1 = (Ok (Some token), w2) ->
     token <> EmptyString ->
     jws_encode P
       (signed_claims (userId p) (email p) (sessionId p) access (now_s w)
          ACCESS_TOKEN_EXPIRY) (JWT_SECRET P) = Some t ->
     fst (refreshAccessToken P token w) =
     Ok (Some (mkAccessGrant t (clock w + 15 * 60 * 1000)))) /\
  (fst (verifyToken P token w) = Ok None ->
   hd false (faults w) = true \/
   blacklisted w token = true \/
   exists e,
     jwt_check P token (JWT_SECRET P) ISSUER AUDIENCE (now_s w) = Throw e).
Proof.
  split; [apply updateSessionLastUsed_ok|]. split; [|split].
  - intros p Hf Hb Hj. rewrite verifyToken_fst. f_equal.
    unfold verdict. rewrite Hb, Hj.
    destruct (faults w) as [|[] fs]; [reflexivity | discriminate | reflexivity].
  - apply refreshAccessToken_grants.
  - rewrite verifyToken_fst. intros H. inversion H as [Hv].
    unfold verdict in Hv.
    destruct (faults w) as [|[] fs]; simpl; auto;
      (destruct (blacklisted w token); [auto|]; right; right;
       destruct (jwt_check P token _ _ _ _) as [p|e]; [discriminate | eauto]).
Qed.

End VerifyClaims.

(** ** The reference platform is lawful *)

Lemma Wire_get_put_len n rest :
  Wire.get_len (Wire.put_len n rest) = Some (n, rest).
Proof.
  induction n as [|n IH]; simpl; [reflexivity|]. now rewrite IH.
Qed.

Lemma Wire_take_app s rest :
  Wire.take (String.length s) (s +:+ rest) = Some (s, rest).
Proof.
  induction s as [|c s IH]; simpl; [reflexivity|].
  change (String.append s rest) with (s +:+ rest). now rewrite IH.
Qed.

Lemma Wire_get_put_string s rest :
  Wire.get_string (Wire.put_string s rest) = Some (s, rest).
Proof.
  unfold Wire.get_string, Wire.put_string.
  rewrite Wire_get_put_len. apply Wire_take_app.
Qed.

Lemma Wire_get_put_opt_string o rest :
  Wire.get_opt_string (Wire.put_opt_string o rest) = Some (o, rest).
Proof.
  destruct o as [s|]; simpl; [|reflexivity].
  now rewrite Wire_get_put_string.
Qed.

Lemma Wire_get_put_pos p rest :
  Wire.get_pos (Wire.put_pos p rest) = Some (p, rest).
Proof.
  induction p as [p IH|p IH|]; simpl; [| |reflexivity]; now rewrite IH.
Qed.

Lemma Wire_get_put_Z z rest : Wire.get_Z (Wire.put_Z z rest) = Some (z, rest).
Proof.
  destruct z as [|p|p]; simpl; [reflexivity| |]; now rewrite Wire_get_put_pos.
Qed.

Lemma Wire_get_put_opt_Z o rest :
  Wire.get_opt_Z (Wire.put_opt_Z o rest) = Some (o, rest).
Proof.
  destruct o as [z|]; simpl; [|reflexivity]. now rewrite Wire_get_put_Z.
Qed.

Lemma Wire_get_put_type ty rest :
  Wire.get_type (Wire.put_type ty rest) = Some (ty, rest).
Proof. now destruct ty. Qed.

Lemma Wire_get_put_payload p rest :
  Wire.get_payload (Wire.put_payload p rest) = Some (p, rest).
Proof.
  unfold Wire.get_payload, Wire.put_payload.
  rewrite !Wire_get_put_string, Wire_get_put_type, !Wire_get_put_opt_Z,
    !Wire_get_put_opt_string.
  now destruct p.
Qed.

Lemma Wire_get_put_session s : Wire.get_session (Wire.put_session s) = Some s.
Proof.
  unfold Wire.get_session, Wire.put_session.
  rewrite !Wire_get_put_opt_string. now destruct s.
Qed.

Lemma Wire_lawful : Lawful Wire.platform.
Proof.
  split.
  - intros p k t H. inversion H; subst. simpl. unfold Wire.decode.
    now rewrite Wire_get_put_string, Wire_get_put_payload.
  - intros p k t H. inversion H; subst. simpl. unfold Wire.check.
    rewrite Wire_get_put_string. apply String.eqb_refl.
  - intros s. apply Wire_get_put_session.
Qed.

(** ** The expiry of a touched row *)

Lemma touched_expiry w k e :
  lookup_live w k = Some e ->
  Some (now_s w + touched_seconds e w) =
  match expireAt e with
  | Some x => Some x
  | None => Some (now_s w + 7 * 24 * 60 * 60)
  end.
Proof.
  intros _. unfold touched_seconds. destruct (expireAt e); f_equal. lia.
Qed.

Lemma lookup_live_insert_eq w k e :
  live (now_s w) e = true ->
  lookup_live (with_db (<[k := e]> (db w)) w) k = Some e.
Proof.
  intros H. unfold lookup_live. simpl. rewrite lookup_insert_eq.
  change (now_s (with_db _ w)) with (now_s w). now rewrite H.
Qed.

Section TouchClaims.

Variable P : Platform.
Hypothesis HL : Lawful P.

(** The session row after a successful verification on a healthy store. *)
Lemma verifyToken_touches token w p e session :
  faults w = [] ->
  verdict P token w = Some p ->
  truthy (sessionId p) = true ->
  lookup_live w (REDIS_TOKEN_PREFIX +:+ sessionId p) = Some e ->
  truthy (value e) = true ->
  JSON_parse P (value e) = Some session ->
  let key := REDIS_TOKEN_PREFIX +:+ sessionId p in
  let secs := touched_seconds e w in
  let row := touched_row P session w in
  verifyToken P token w =
  (Ok (Some p),
   mkWorld (<[key := mkEntry row (Some (now_s w + secs))]> (db w)) (clock w)
     [] (uuids w)
     (trace w ++ [EvExists (REDIS_BLACKLIST_PREFIX +:+ token); EvVerify token;
                  EvGet key; EvTtl key; EvSetex key secs row])).
Proof.
  intros Hf Hv Hs Hl Ht Hp. cbv zeta.
  apply verdict_Some_inv in Hv as (_ & Hb & Hj).
  rewrite (verifyToken_healthy P token w Hf). cbv zeta. rewrite Hb, Hj, Hs.
  rewrite (touch_present P (sessionId p) _ e session); try assumption.
  simpl. rewrite <- !app_assoc. reflexivity.
Qed.

(** C3, as the code has it.  On a healthy store, when verification of
    [token] succeeds and the row of its session is there and parses,
    [verifyToken] and a successful [refreshAccessToken] leave that row
    rewritten with [lastUsedAt] set to the current instant and with the
    expiry time it already had: the seconds TTL reports are written back.
    Only a row without an expiry gets the full seven days. *)
Theorem touch_keeps_expiry token w p e session :
  faults w = [] ->
  verdict P token w = Some p ->
  truthy (sessionId p) = true ->
  lookup_live w (REDIS_TOKEN_PREFIX +:+ sessionId p) = Some e ->
  truthy (value e) = true ->
  JSON_parse P (value e) = Some session ->
  let key := REDIS_TOKEN_PREFIX +:+ sessionId p in
  let written :=
    mkEntry (touched_row P session w)
      (match expireAt e with
       | Some x => Some x
       | None => Some (now_s w + 7 * 24 * 60 * 60)
       end) in
  db (snd (verifyToken P token w)) !! key = Some written /\
  (forall g,
     fst (refreshAccessToken P token w) = Ok (Some g) ->
     db (snd (refreshAccessToken P token w)) !! key = Some written).
Proof.
  intros Hf Hv Hs Hl Ht Hp. cbv zeta.
  pose proof (verifyToken_touches token w p e session Hf Hv Hs Hl Ht Hp) as Hrun.
  cbv zeta in Hrun. rewrite (touched_expiry w _ e Hl) in Hrun.
  set (key := REDIS_TOKEN_PREFIX +:+ sessionId p) in *.
  set (written := mkEntry (touched_row P session w) _) in *.
  split.
  { rewrite Hrun. simpl. apply lookup_insert_eq. }
  intros g. unfold refreshAccessToken, try_catch, bind. rewrite Hrun.
  destruct (negb (TokenType_eqb (tokenType p) refresh)); [discriminate|].
  rewrite redis_get_healthy by reflexivity.
  match goal with
  | |- context [value <$> ?x] => destruct (value <$> x) as [stored|]
  end; [|discriminate].
  destruct (negb (truthy stored) || negb (String.eqb stored token));
    [discriminate|].
  unfold jwt_sign.
  match goal with
  | |- context [jws_encode P ?c ?k] => destruct (jws_encode P c k) as [t|]
  end; [|discriminate].
  unfold Date_now. intros _.
  match goal with
  | |- context [updateSessionLastUsed P ?s ?x] =>
      set (w3 := x) in *
  end.
  assert (Hlive : live (now_s w) written = true).
  { apply lookup_live_Some_live in Hl. unfold live in *. subst written. simpl.
    destruct (expireAt e) as [x|]; [exact Hl | lia]. }
  assert (Hl3 : lookup_live w3 key = Some written).
  { unfold lookup_live. subst w3. simpl. rewrite lookup_insert_eq.
    change (now_s _) with (now_s w). now rewrite Hlive. }
  destruct (truthy (value written)) eqn:Htw.
  - rewrite (touch_present P (sessionId p) w3 written
               (mkSessionData (sd_userId session) (sd_email session)
                  (sd_createdAt session) (Some (toISOString P (clock w)))));
      [| reflexivity | exact Hl3 | exact Htw
       | apply (JSON_parse_stringify P HL) ].
    simpl. fold key. rewrite lookup_insert_eq. f_equal.
    unfold touched_row, written. simpl. f_equal.
    unfold touched_seconds. simpl. change (now_s w3) with (now_s w).
    destruct (expireAt e); f_equal; lia.
  - assert (Hrun2 : updateSessionLastUsed P (sessionId p) w3 =
                    (Ok tt, log (EvGet key) w3)).
    { unfold updateSessionLastUsed, try_catch, bind.
      rewrite redis_get_healthy by reflexivity. fold key. rewrite Hl3.
      cbn [fmap option_fmap option_map]. now rewrite Htw. }
    rewrite Hrun2. simpl. apply lookup_insert_eq.
Qed.

End TouchClaims.

(** C3 as the specification states it fails: 100 seconds after the login,
    a successful [verifyToken] leaves the session row with the expiry it
    had, second 604805, not with a fresh seven days from second 105. *)
Lemma touch_resets_ttl_counterexample :
  ~ (forall w token p w',
       faults w = [] ->
       verifyToken Wire.platform token w = (Ok (Some p), w') ->
       is_Some (lookup_live w (REDIS_TOKEN_PREFIX +:+ sessionId p)) ->
       exists row,
         db w' !! (REDIS_TOKEN_PREFIX +:+ sessionId p) =
         Some (mkEntry row (Some (now_s w + 7 * 24 * 60 * 60)))).
Proof.
  intros H.
  destruct (H (advance 100000 w_login) login_access login_access_payload
              (snd (verifyToken Wire.platform login_access
                      (advance 100000 w_login))))
    as [row Hrow].
  - reflexivity.
  - vm_compute. reflexivity.
  - vm_compute. eauto.
  - vm_compute in Hrow. discriminate Hrow.
Qed.

(** The login scenario, 100 seconds on: both methods leave the row with
    the expiry it had, second 604805. *)
Lemma touch_keeps_expiry_witness :
  let written :=
    mkEntry
      (touched_row Wire.platform
         (new_session Wire.platform "u1" "a@x.com" 5000)
         (advance 100000 w_login))
      (Some 604805) in
  db (snd (verifyToken Wire.platform login_access (advance 100000 w_login)))
    !! (REDIS_TOKEN_PREFIX +:+ "s0") = Some written /\
  db (snd (refreshAccessToken Wire.platform login_refresh
             (advance 100000 w_login)))
    !! (REDIS_TOKEN_PREFIX +:+ "s0") = Some written.
Proof.
  cbv zeta. split.
  - refine (proj1 (touch_keeps_expiry Wire.platform Wire_lawful login_access
                     (advance 100000 w_login) login_access_payload
                     (mkEntry (JSON_stringify Wire.platform
                                 (new_session Wire.platform "u1" "a@x.com" 5000))
                        (Some 604805))
                     _ _ _ _ _ _ _));
      vm_compute; reflexivity.
  - refine (proj2 (touch_keeps_expiry Wire.platform Wire_lawful login_refresh
                     (advance 100000 w_login) login_refresh_payload
                     (mkEntry (JSON_stringify Wire.platform
                                 (new_session Wire.platform "u1" "a@x.com" 5000))
                        (Some 604805))
                     _ _ _ _ _ _ _)
              (mkAccessGrant
                 (match fst (refreshAccessToken Wire.platform login_refresh
                               (advance 100000 w_login)) with
                  | Ok (Some g) => grantToken g
                  | _ => EmptyString
                  end) 1005000) _);
      vm_compute; reflexivity.
Defined.

(** ** refreshAccessToken *)

Lemma refresh_key_not_session sid : ~ session_key (REDIS_REFRESH_PREFIX +:+ sid).
Proof. intros [s H]. now apply refresh_key_not_token in H. Qed.

Lemma blacklist_key_not_session tok :
  ~ session_key (REDIS_BLACKLIST_PREFIX +:+ tok).
Proof. intros [s H]. now apply blacklist_key_not_token in H. Qed.

Section RefreshClaims.

Variable P : Platform.

(** C4. [refreshAccessToken] never throws.  Whenever it returns a grant,
    the presented token verified, its [tokenType] is [refresh] and it is
    the very string stored under [refresh:<sessionId>]; the grant is a
    freshly signed access token for the same user and session and nothing
    else.  In every case the refresh records are left as they were: the
    refresh token is not rotated.  On a healthy store the three conditions
    (and a signature that can be made) are also enough for a grant. *)
Theorem refreshAccessToken_requires_stored_match token w :
  (exists r, fst (refreshAccessToken P token w) = Ok r) /\
  (forall g,
     fst (refreshAccessToken P token w) = Ok (Some g) ->
     exists p,
       fst (verifyToken P token w) = Ok (Some p) /\
       tokenType p = refresh /\
       value <$> lookup_live w (REDIS_REFRESH_PREFIX +:+ sessionId p) =
       Some token /\
       jws_encode P
         (signed_claims (userId p) (email p) (sessionId p) access (now_s w)
            ACCESS_TOKEN_EXPIRY) (JWT_SECRET P) = Some (grantToken g) /\
       grantExpiresAt g = clock w + 15 * 60 * 1000) /\
  (forall sid,
     db (snd (refreshAccessToken P token w)) !! (REDIS_REFRESH_PREFIX +:+ sid) =
     db w !! (REDIS_REFRESH_PREFIX +:+ sid)) /\
  (forall p t,
     faults w = [] ->
     token <> EmptyString ->
     fst (verifyToken P token w) = Ok (Some p) ->
     tokenType p = refresh ->
     value <$> lookup_live w (REDIS_REFRESH_PREFIX +:+ sessionId p) =
     Some token ->
     jws_encode P
       (signed_claims (userId p) (email p) (sessionId p) access (now_s w)
          ACCESS_TOKEN_EXPIRY) (JWT_SECRET P) = Some t ->
     fst (refreshAccessToken P token w) =
     Ok (Some (mkAccessGrant t (clock w + 15 * 60 * 1000)))).
Proof.
  split; [|split; [|split]].
  - unfold refreshAccessToken, try_catch.
    match goal with
    | |- context [match ?m w with _ => _ end] =>
        destruct (m w) as [[r|e] w']
    end; simpl; eauto.
  - intros g.
    destruct (verifyToken_run P token w) as [w1 Hv].
    pose proof (frame_verifyToken P token w _ _ Hv) as Hfr.
    rewrite verifyToken_fst.
    unfold refreshAccessToken, try_catch, bind. rewrite Hv.
    destruct (verdict P token w) as [p|]; [|discriminate].
    destruct (tokenType p) eqn:Hty; [discriminate|]. cbn [TokenType_eqb negb].
    destruct (redis_get _ w1) as [[o|er] w2] eqn:Hg; [|discriminate].
    apply redis_get_inv in Hg as [Ho [_ Hc2]].
    rewrite (frame_on_lookup _ _ _ _ Hfr (refresh_key_not_session _)) in Ho.
    destruct o as [stored|]; [|discriminate].
    destruct (truthy stored); [|discriminate].
    destruct (String.eqb_spec stored token) as [->|]; [|discriminate].
    cbn [negb orb]. unfold jwt_sign.
    assert (Hn : now_s w2 = now_s w).
    { unfold now_s. destruct Hfr as [Hc1 _]. congruence. }
    rewrite Hn. cbn [userId email sessionId tokenType].
    fold (signed_claims (userId p) (email p) (sessionId p) access (now_s w)
            ACCESS_TOKEN_EXPIRY).
    destruct (jws_encode P _ (JWT_SECRET P)) as [t|] eqn:He; [|discriminate].
    unfold Date_now. cbn [clock log].
    match goal with
    | |- context [updateSessionLastUsed P ?s ?x] =>
        destruct (updateSessionLastUsed_run P s x) as [w' ->]
    end.
    unfold ret. simpl. intros H. inversion H; subst. simpl.
    exists p. repeat split; auto.
    destruct Hfr as [Hc1 _]. congruence.
  - intros sid.
    destruct (refreshAccessToken P token w) as [r w'] eqn:Hr.
    apply frame_refreshAccessToken in Hr as [_ Hd].
    apply Hd, refresh_key_not_session.
  - intros p t Hf Hne Hv Hty Hst He.
    destruct (verifyToken P token w) as [r w1] eqn:Hrun. simpl in Hv. subst r.
    pose proof (frame_verifyToken P token w _ _ Hrun) as Hfr.
    pose proof (verifyToken_stays_healthy P token w Hf) as Hf1.
    rewrite Hrun in Hf1. simpl in Hf1.
    eapply (refreshAccessToken_grants P token w p w1); eauto.
    rewrite redis_get_healthy by assumption.
    rewrite (frame_on_lookup _ _ _ _ Hfr (refresh_key_not_session _)).
    now rewrite Hst.
Qed.

End RefreshClaims.

(** The login scenario: the refresh token of the login is granted a new
    access token. *)
Lemma refreshAccessToken_requires_stored_match_witness :
  fst (refreshAccessToken Wire.platform login_refresh w_login) =
  Ok (Some (mkAccessGrant login_access 905000)).
Proof.
  refine (proj2 (proj2 (proj2
            (refreshAccessToken_requires_stored_match Wire.platform
               login_refresh w_login)))
            login_refresh_payload login_access _ _ _ _ _ _);
    vm_compute; try reflexivity; discriminate.
Defined.

(** ** revokeToken *)

Lemma try_rethrow_id {A} (m : M A) w :
  try_catch m (fun error => throw error) w = m w.
Proof. unfold try_catch, throw. now destruct (m w) as [[a|e] w']. Qed.

Lemma redis_setex_inv k s v w r w' :
  redis_setex k s v w = (r, w') ->
  (r <> Ok tt /\ db w' = db w) \/
  (r = Ok tt /\ 0 < s /\
   db w' = <[k := mkEntry v (Some (now_s w + s))]> (db w)).
Proof.
  intros H. apply command_inv in H as [[-> [Hd _]]|(w1 & Hs & H)].
  - left. split; [discriminate | exact Hd].
  - destruct (0 <? s) eqn:E; inversion H; subst.
    + right. split; [reflexivity|]. split; [lia|]. simpl.
      rewrite (same_store_now _ _ Hs). destruct Hs as [-> _]. reflexivity.
    + left. split; [discriminate | apply Hs].
Qed.

Section RevokeToken.

Variable P : Platform.

Lemma revokeToken_unfold token w :
  revokeToken P token w =
  let w0 := log (EvDecode token) w in
  match jws_decode P token with
  | Some p =>
      match exp p with
      | Some e =>
          if negb (e =? 0) then
            if 0 <? e - now_s w
            then redis_setex (REDIS_BLACKLIST_PREFIX +:+ token)
                   (e - now_s w) "1" w0
            else (Ok tt, w0)
          else (Ok tt, w0)
      | None => (Ok tt, w0)
      end
  | None => (Ok tt, w0)
  end.
Proof.
  unfold revokeToken. rewrite try_rethrow_id. unfold bind, jwt_decode.
  destruct (jws_decode P token) as [p|]; [|reflexivity].
  destruct (exp p) as [e|]; [|reflexivity].
  destruct (negb (e =? 0)); [|reflexivity].
  unfold Date_now. cbn [clock log]. fold (now_s w).
  destruct (0 <? e - now_s w); reflexivity.
Qed.

(** C6. [revokeToken] hands SETEX the token's own [exp] minus the current
    second, and only when that is strictly positive.  So whenever the store
    changes, the change is one blacklist entry whose expiry is the token's
    [exp]: it lives exactly the token's remaining lifetime and is gone when
    the token has expired.  On a healthy store a positive remainder does
    write the entry, and revoking a token that has already expired returns
    normally and changes nothing. *)
Theorem revokeToken_ttl_is_remaining_lifetime token w :
  let key := REDIS_BLACKLIST_PREFIX +:+ token in
  let r := fst (revokeToken P token w) in
  let w' := snd (revokeToken P token w) in
  (db w' = db w \/
   exists p e,
     jws_decode P token = Some p /\ exp p = Some e /\
     0 < e - now_s w /\
     db w' = <[key := mkEntry "1" (Some e)]> (db w) /\
     (forall t, live t (mkEntry "1" (Some e)) = true <-> t < e)) /\
  (forall p e,
     faults w = [] ->
     jws_decode P token = Some p -> exp p = Some e -> e <> 0 ->
     0 < e - now_s w ->
     r = Ok tt /\
     db w' = <[key := mkEntry "1" (Some e)]> (db w) /\
     trace w' = trace w ++ [EvDecode token; EvSetex key (e - now_s w) "1"]) /\
  (forall p e,
     jws_decode P token = Some p -> exp p = Some e ->
     e - now_s w <= 0 ->
     r = Ok tt /\ db w' = db w /\ faults w' = faults w).
Proof.
  cbv zeta. rewrite revokeToken_unfold. cbv zeta.
  split; [|split].
  - destruct (jws_decode P token) as [p|]; [|now left].
    destruct (exp p) as [e|] eqn:He; [|now left].
    destruct (negb (e =? 0)); [|now left].
    destruct (0 <? e - now_s w) eqn:Hpos; [|now left].
    destruct (redis_setex _ _ _ _) as [r w'] eqn:Hs.
    apply redis_setex_inv in Hs as [[_ Hd]|(_ & Hp & Hd)]; [now left|].
    right. exists p, e. repeat split; try assumption; try lia.
    + simpl. rewrite Hd. rewrite now_s_log. do 3 f_equal. lia.
    + unfold live. simpl. lia.
    + unfold live. simpl. lia.
  - intros p e Hf -> -> Hne Hpos.
    destruct (Z.eqb_spec e 0) as [|_]; [contradiction|]. cbn [negb].
    destruct (0 <? e - now_s w) eqn:E; [|lia].
    rewrite redis_setex_healthy by assumption. simpl.
    rewrite now_s_log, <- app_assoc.
    replace (now_s w + (e - now_s w)) with e by lia. auto.
  - intros p e -> -> Hle.
    destruct (0 <? e - now_s w) eqn:E; [lia|].
    destruct (negb (e =? 0)); simpl; auto.
Qed.

(** C9. [revokeToken] on a string that does not decode, or whose payload
    has no [exp], returns normally, sends nothing to the store and leaves
    it as it was; and it returns what a revocation that did write an entry
    returns, so the caller sees no difference. *)
Theorem revokeToken_undecodable_is_silent token w :
  jws_decode P token = None \/
  (exists p, jws_decode P token = Some p /\ exp p = None) ->
  fst (revokeToken P token w) = Ok tt /\
  db (snd (revokeToken P token w)) = db w /\
  faults (snd (revokeToken P token w)) = faults w /\
  trace (snd (revokeToken P token w)) = trace w ++ [EvDecode token] /\
  (forall token2 w2,
     db (snd (revokeToken P token2 w2)) <> db w2 ->
     fst (revokeToken P token2 w2) = fst (revokeToken P token w)).
Proof.
  intros H.
  assert (Hrun : revokeToken P token w = (Ok tt, log (EvDecode token) w)).
  { rewrite revokeToken_unfold. cbv zeta.
    destruct H as [->|(p & -> & ->)]; reflexivity. }
  rewrite Hrun. simpl. repeat split.
  intros token2 w2. rewrite revokeToken_unfold. cbv zeta.
  destruct (jws_decode P token2) as [p|]; [|now intros []].
  destruct (exp p) as [e|]; [|now intros []].
  destruct (negb (e =? 0)); [|now intros []].
  destruct (0 <? e - now_s w2); [|now intros []].
  destruct (redis_setex _ _ _ _) as [r w'] eqn:Hs.
  apply redis_setex_inv in Hs as [[_ Hd]|(-> & _ & _)]; simpl.
  - intros Hne. now elim Hne.
  - reflexivity.
Qed.

End RevokeToken.

(** ** generateTokenPair *)

Lemma redis_setex_Ok_inv k s v w w' :
  redis_setex k s v w = (Ok tt, w') ->
  db w' = <[k := mkEntry v (Some (now_s w + s))]> (db w) /\
  clock w' = clock w /\ uuids w' = uuids w.
Proof.
  unfold redis_setex, command. simpl.
  destruct (faults w) as [|[] fs]; simpl; destruct (0 <? s);
    intros H; inversion H; subst; simpl; auto.
Qed.

Section Issue.

Variable P : Platform.

Lemma jwt_sign_Ok_inv payload k ttl i a w t w' :
  jwt_sign P payload k ttl i a w = (Ok t, w') ->
  jws_encode P
    (mkTokenPayload (userId payload) (email payload) (sessionId payload)
       (tokenType payload) (Some (now_s w + ttl)) (Some (now_s w))
       (Some i) (Some a)) k = Some t /\
  same_store w w' /\ uuids w' = uuids w.
Proof.
  unfold jwt_sign. destruct (jws_encode P _ k) as [t'|]; intros H;
    inversion H; subst. repeat split.
Qed.


Hypothesis HL : Lawful P.

(** jsonwebtoken accepts what it issued until the second [exp]. *)
Lemma jwt_check_issued claims token t :
  issued P claims token ->
  jwt_check P token (JWT_SECRET P) ISSUER AUDIENCE t =
  if match exp claims with Some e => e <=? t | None => false end
  then Throw TokenExpiredError
  else Ok claims.
Proof.
  intros (He & Hi & Ha). unfold jwt_check.
  rewrite (jws_decode_encode P HL _ _ _ He), (jws_check_encode P HL _ _ _ He).
  cbn [negb]. destruct (match exp claims with Some _ => _ | None => _ end);
    [reflexivity|].
  rewrite Ha, Hi. unfold option_string_eqb. now rewrite !String.eqb_refl.
Qed.

(** [verifyToken] on an issued token: the payload until [exp], [null]
    from then on. *)
Lemma verifyToken_issued claims token e w :
  issued P claims token -> exp claims = Some e ->
  hd false (faults w) = false ->
  blacklisted w token = false ->
  fst (verifyToken P token w) =
  Ok (if e <=? now_s w then None else Some claims).
Proof.
  intros Hi He Hf Hb. rewrite verifyToken_fst. f_equal. unfold verdict.
  rewrite Hb, (jwt_check_issued claims token _ Hi), He.
  destruct (faults w) as [|[] fs]; [| discriminate |];
    now destruct (e <=? now_s w).
Qed.


End Issue.


(** ** revokeSession *)

Lemma revokeSession_inv sid w w' :
  revokeSession sid w = (Ok tt, w') ->
  db w' =
  delete (REDIS_TOKEN_PREFIX +:+ sid)
    (delete (REDIS_REFRESH_PREFIX +:+ sid) (db w)) /\
  clock w' = clock w.
Proof.
  intros H. apply try_rethrow_Ok_inv in H.
  apply bind_Ok_inv in H as (n1 & wa & H1 & H).
  apply bind_Ok_inv in H as (n2 & wb & H2 & H).
  apply redis_del_inv in H1 as [Hd1 Hc1].
  apply redis_del_inv in H2 as [Hd2 Hc2].
  unfold ret in H. inversion H; subst. split; congruence.
Qed.

Lemma revokeSession_healthy sid w :
  faults w = [] ->
  revokeSession sid w =
  (Ok tt,
   mkWorld (delete (REDIS_TOKEN_PREFIX +:+ sid)
              (delete (REDIS_REFRESH_PREFIX +:+ sid) (db w)))
     (clock w) [] (uuids w)
     (trace w ++ [EvDel (REDIS_REFRESH_PREFIX +:+ sid);
                  EvDel (REDIS_TOKEN_PREFIX +:+ sid)])).
Proof.
  intros Hf. unfold revokeSession. rewrite try_rethrow_id. unfold bind.
  rewrite redis_del_healthy by assumption.
  rewrite redis_del_healthy by assumption.
  destruct w as [d c f u t]. simpl in Hf. subst f.
  unfold ret, with_db, log. simpl. rewrite <- app_assoc. reflexivity.
Qed.

Lemma now_s_advance dt w : 0 <= dt -> now_s w <= now_s (advance dt w).
Proof.
  intros H. unfold now_s, advance. simpl.
  apply Z.div_le_mono; lia.
Qed.

Lemma live_earlier t t' e : t <= t' -> live t' e = true -> live t e = true.
Proof. unfold live. destruct (expireAt e); [lia | reflexivity]. Qed.

(** A key that a read does not see now is not seen later either, as long
    as nobody writes it. *)
Lemma blacklisted_later w w2 token :
  db w2 !! (REDIS_BLACKLIST_PREFIX +:+ token) =
  db w !! (REDIS_BLACKLIST_PREFIX +:+ token) ->
  now_s w <= now_s w2 ->
  blacklisted w token = false -> blacklisted w2 token = false.
Proof.
  unfold blacklisted, lookup_live. intros -> Ht.
  destruct (db w !! _) as [e|]; [|reflexivity].
  destruct (live (now_s w2) e) eqn:E2; [|reflexivity].
  now rewrite (live_earlier _ _ e Ht E2).
Qed.

Section RevokeSession.

Variable P : Platform.
Hypothesis HL : Lawful P.

(** C5, as the code has it.  A [revokeSession] that returns has deleted
    exactly the refresh record and the session row of that session and has
    written no blacklist entry.  From then on [refreshAccessToken] answers
    [null] to every token of that session, while [verifyToken], which never
    looks at the session, still accepts the tokens issued under it, access
    and refresh alike, each until its own [exp]. *)
Theorem revokeSession_effect sid w w' :
  revokeSession sid w = (Ok tt, w') ->
  db w' =
  delete (REDIS_TOKEN_PREFIX +:+ sid)
    (delete (REDIS_REFRESH_PREFIX +:+ sid) (db w)) /\
  (forall token,
     db w' !! (REDIS_BLACKLIST_PREFIX +:+ token) =
     db w !! (REDIS_BLACKLIST_PREFIX +:+ token)) /\
  (forall token w2,
     db w2 = db w' ->
     (forall p, fst (verifyToken P token w2) = Ok (Some p) ->
                sessionId p = sid) ->
     fst (refreshAccessToken P token w2) = Ok None) /\
  (forall claims token e dt,
     issued P claims token -> exp claims = Some e ->
     hd false (faults w') = false ->
     blacklisted w token = false ->
     0 <= dt ->
     fst (verifyToken P token (advance dt w')) =
     Ok (if e <=? now_s (advance dt w') then None else Some claims)).
Proof.
  intros H. pose proof (revokeSession_inv sid w w' H) as [Hd Hc].
  assert (Hbl : forall token,
            db w' !! (REDIS_BLACKLIST_PREFIX +:+ token) =
            db w !! (REDIS_BLACKLIST_PREFIX +:+ token)).
  { intros token. rewrite Hd.
    rewrite lookup_delete_ne by (intros E; symmetry in E;
                                 now apply blacklist_key_not_token in E).
    rewrite lookup_delete_ne by (intros E; symmetry in E;
                                 now apply blacklist_key_not_refresh in E).
    reflexivity. }
  split; [exact Hd|]. split; [exact Hbl|]. split.
  - intros token w2 Hd2 Hsid.
    destruct (verifyToken_run P token w2) as [w3 Hv].
    pose proof (frame_verifyToken P token w2 _ _ Hv) as Hfr.
    unfold refreshAccessToken, try_catch, bind. rewrite Hv.
    destruct (verdict P token w2) as [p|] eqn:Hverd; [|reflexivity].
    assert (Hs : sessionId p = sid).
    { apply Hsid. rewrite verifyToken_fst. now rewrite Hverd. }
    destruct (negb _); [reflexivity|].
    destruct (redis_get _ w3) as [[o|er] w4] eqn:Hg; [|reflexivity].
    apply redis_get_inv in Hg as [Ho _].
    rewrite (frame_on_lookup _ _ _ _ Hfr (refresh_key_not_session _)) in Ho.
    unfold lookup_live in Ho. rewrite Hs, Hd2, Hd in Ho.
    rewrite lookup_delete_ne in Ho
      by (intros E; symmetry in E; now apply refresh_key_not_token in E).
    rewrite lookup_delete_eq in Ho. subst o. reflexivity.
  - intros claims token e dt Hi He Hf Hb Hdt.
    apply (verifyToken_issued P HL claims token e); try assumption.
    apply (blacklisted_later w); [apply Hbl | | exact Hb].
    etransitivity; [|apply now_s_advance; exact Hdt].
    unfold now_s. rewrite Hc. lia.
Qed.

End RevokeSession.

(** C5 as the specification states it fails: after the session of the
    login is revoked, [verifyToken] still returns the payload of its
    refresh token. *)
Lemma revoked_refresh_token_counterexample :
  ~ (forall uid mail w pair w1 w2,
       generateTokenPair Wire.platform uid mail w = (Ok pair, w1) ->
       revokeSession (uuid_of Wire.platform (uuids w)) w1 = (Ok tt, w2) ->
       fst (verifyToken Wire.platform (refreshToken pair) w2) = Ok None).
Proof.
  intros H.
  specialize (H "u1"%string "a@x.com"%string w_start
                (mkTokenPair login_access login_refresh 905000 604805000)
                w_login (snd (revokeSession "s0" w_login))).
  assert (Hv : fst (verifyToken Wire.platform login_refresh
                      (snd (revokeSession "s0" w_login))) =
               Ok (Some login_refresh_payload))
    by (vm_compute; reflexivity).
  simpl refreshToken in H. rewrite Hv in H.
  assert (Hn : Ok (Some login_refresh_payload) = Ok None -> False)
    by discriminate.
  apply Hn, H; vm_compute; reflexivity.
Qed.

(** The login scenario after [revokeSession]: no refresh any more, while
    the access token verifies at second 904 and no longer at second 906,
    its [exp] being 905. *)
Lemma revokeSession_effect_witness :
  fst (refreshAccessToken Wire.platform login_refresh
         (snd (revokeSession "s0" w_login))) = Ok None /\
  fst (verifyToken Wire.platform login_access
         (advance 899000 (snd (revokeSession "s0" w_login)))) =
  Ok (Some login_access_payload) /\
  fst (verifyToken Wire.platform login_access
         (advance 901000 (snd (revokeSession "s0" w_login)))) = Ok None.
Proof.
  destruct (revokeSession_effect Wire.platform Wire_lawful "s0" w_login
              (snd (revokeSession "s0" w_login)))
    as (_ & _ & Hr & Hv); [vm_compute; reflexivity|].
  split; [|split].
  - apply Hr; [reflexivity|].
    intros p Hp. vm_compute in Hp. inversion Hp. reflexivity.
  - rewrite (Hv login_access_payload login_access 905 899000);
      [ vm_compute; reflexivity | repeat split | reflexivity
      | vm_compute; reflexivity | vm_compute; reflexivity | lia ].
  - rewrite (Hv login_access_payload login_access 905 901000);
      [ vm_compute; reflexivity | repeat split | reflexivity
      | vm_compute; reflexivity | vm_compute; reflexivity | lia ].
Defined.

(** ** Scanning the session rows *)

Lemma session_of_same P uid w w' k :
  same_store w w' -> session_of P uid w' k = session_of P uid w k.
Proof.
  intros H. unfold session_of. now rewrite (same_store_lookup _ _ _ H).
Qed.

Lemma lookup_live_weaken w w' k e :
  clock w' = clock w -> db w' ⊆ db w ->
  lookup_live w' k = Some e -> lookup_live w k = Some e.
Proof.
  intros Hc Hd. unfold lookup_live, now_s. rewrite Hc.
  destruct (db w' !! k) as [e'|] eqn:E; [|discriminate].
  now rewrite (lookup_weaken _ _ _ _ E Hd).
Qed.

Lemma session_of_weaken P uid w w' k :
  clock w' = clock w -> db w' ⊆ db w ->
  session_of P uid w k = None -> session_of P uid w' k = None.
Proof.
  intros Hc Hd. unfold session_of.
  destruct (lookup_live w' k) as [e|] eqn:E; [|reflexivity].
  now rewrite (lookup_live_weaken w w' k e Hc Hd E).
Qed.


Lemma omap_session_of_same P uid w w' (ks : list string) :
  same_store w w' ->
  omap (session_of P uid w') ks = omap (session_of P uid w) ks.
Proof.
  intros H. induction ks as [|k ks IH]; [reflexivity|].
  change (omap (session_of P uid w') (k :: ks))
    with (match session_of P uid w' k with
          | Some y => y :: omap (session_of P uid w') ks
          | None => omap (session_of P uid w') ks
          end).
  rewrite IH, (session_of_same P uid w w' k H). reflexivity.
Qed.

Section Scan.

Variable P : Platform.
Variable uid : string.

Lemma getUserSessions_unfold :
  getUserSessions P uid =
  try_catch
    (let! sessionKeys := redis_keys REDIS_TOKEN_PREFIX in
     let! sessions := for_of sessionKeys [] (list_step P uid) in
     ret sessions)
    (fun _ => ret []).
Proof. reflexivity. Qed.

Lemma revokeAllUserTokens_unfold :
  revokeAllUserTokens P uid =
  try_catch
    (let! sessionKeys := redis_keys REDIS_TOKEN_PREFIX in
     for_of sessionKeys tt (revoke_step P uid))
    (fun error => throw error).
Proof. reflexivity. Qed.

(** A step of the listing that returns has appended the element of its key,
    if there is one, and nothing else. *)
Lemma list_step_inv acc key w r w' :
  list_step P uid acc key w = (Ok r, w') ->
  r = acc ++ option_list (session_of P uid w key) /\ same_store w w'.
Proof.
  unfold list_step. intros H.
  apply bind_Ok_inv in H as (o & w1 & Hg & H).
  apply redis_get_inv in Hg as [-> Hs]. unfold session_of.
  destruct (lookup_live w key) as [e|]; simpl in H |- *.
  2:{ inversion H; subst. now rewrite app_nil_r. }
  destruct (truthy (value e)).
  2:{ inversion H; subst. now rewrite app_nil_r. }
  apply bind_Ok_inv in H as (s & w2 & Hp & H).
  unfold JSON_parse_or_throw in Hp.
  destruct (JSON_parse P (value e)) as [s'|]; [|discriminate].
  inversion Hp; subst s' w2; clear Hp.
  destruct (option_string_eqb (sd_userId s) uid); inversion H; subst;
    [split; [reflexivity | exact Hs] | now rewrite app_nil_r].
Qed.

Lemma list_loop_inv ks : forall acc w r w',
  for_of ks acc (list_step P uid) w = (Ok r, w') ->
  r = acc ++ omap (session_of P uid w) ks /\ same_store w w'.
Proof.
  induction ks as [|k ks IH]; intros acc w r w' H; simpl in H.
  - inversion H; subst. simpl. rewrite app_nil_r. split; [reflexivity|].
    apply same_store_refl.
  - apply bind_Ok_inv in H as (acc' & w1 & Hstep & H).
    apply list_step_inv in Hstep as [-> Hs1].
    apply IH in H as [-> Hs2]. split.
    + rewrite <- app_assoc. f_equal. simpl.
      rewrite (omap_session_of_same P uid w w1 ks Hs1).
      now destruct (session_of P uid w k).
    + eapply same_store_trans; eassumption.
Qed.



(** A step of the revocation that returns has left no row of [uid] under
    its key, and has at most deleted keys. *)
Lemma revoke_step_inv key w w' :
  String.prefix REDIS_TOKEN_PREFIX key = true ->
  revoke_step P uid tt key w = (Ok tt, w') ->
  clock w' = clock w /\ db w' ⊆ db w /\ session_of P uid w' key = None.
Proof.
  intros Hk. unfold revoke_step. intros H.
  apply bind_Ok_inv in H as (o & w1 & Hg & H).
  apply redis_get_inv in Hg as [-> Hs].
  assert (Hsame : forall w2, (Ok tt, w1) = (Ok tt, w2) ->
            session_of P uid w key = None ->
            clock w2 = clock w /\ db w2 ⊆ db w /\ session_of P uid w2 key = None).
  { intros w2 E Hn. inversion E; subst w2. destruct Hs as [Hd Hc].
    split; [exact Hc|]. split; [now rewrite Hd|].
    now rewrite (session_of_same P uid w w1 key (conj Hd Hc)). }
  unfold session_of in Hsame.
  destruct (lookup_live w key) as [e|]; simpl in H; [|now apply Hsame].
  destruct (truthy (value e)); [|now apply Hsame].
  apply bind_Ok_inv in H as (s & w2 & Hp & H).
  unfold JSON_parse_or_throw in Hp.
  destruct (JSON_parse P (value e)) as [s'|]; [|discriminate].
  inversion Hp; subst s' w2; clear Hp.
  destruct (option_string_eqb (sd_userId s) uid); [|now apply Hsame].
  apply revokeSession_inv in H as [Hd Hc]. destruct Hs as [Hd1 Hc1].
  rewrite <- (token_key_sid key Hk) in Hd.
  split; [congruence|]. split.
  - rewrite Hd, Hd1. etransitivity; apply delete_subseteq.
  - unfold session_of, lookup_live. now rewrite Hd, lookup_delete_eq.
Qed.

Lemma revoke_loop_inv ks : forall w w',
  Forall (fun k => String.prefix REDIS_TOKEN_PREFIX k = true) ks ->
  for_of ks tt (revoke_step P uid) w = (Ok tt, w') ->
  clock w' = clock w /\ db w' ⊆ db w /\
  forall k, k ∈ ks -> session_of P uid w' k = None.
Proof.
  induction ks as [|k ks IH]; intros w w' Hall H; simpl in H.
  - inversion H; subst. repeat split; [reflexivity|].
    intros k Hk. inversion Hk.
  - inversion Hall as [|? ? Hk Hks]; subst.
    apply bind_Ok_inv in H as ([] & w1 & Hstep & H).
    apply (revoke_step_inv k w w1 Hk) in Hstep as (Hc1 & Hd1 & Hn1).
    apply (IH w1 w' Hks) in H as (Hc2 & Hd2 & Hn2).
    split; [congruence|]. split; [etransitivity; eassumption|].
    intros k' Hin. apply elem_of_cons in Hin as [->|Hin]; [|now apply Hn2].
    now apply (session_of_weaken P uid w1 w').
Qed.



End Scan.


Lemma omap_all_None {A B} (f : A -> option B) (l : list A) :
  (forall x, x ∈ l -> f x = None) -> omap f l = [].
Proof.
  intros H. destruct (omap f l) as [|y l'] eqn:E; [reflexivity|].
  assert (Hy : y ∈ omap f l) by (rewrite E; left).
  apply list_elem_of_omap in Hy as (x & Hx & Hfx).
  rewrite (H x Hx) in Hfx. discriminate.
Qed.

Lemma lookup_live_later w w2 k e :
  db w2 = db w -> now_s w <= now_s w2 ->
  lookup_live w2 k = Some e -> lookup_live w k = Some e.
Proof.
  intros Hd Ht. unfold lookup_live. rewrite Hd.
  destruct (db w !! k) as [e'|]; [|discriminate].
  destruct (live (now_s w2) e') eqn:E; [|discriminate].
  now rewrite (live_earlier _ _ e' Ht E).
Qed.

(** What a later read sees under a key whose row is not new was seen
    before. *)
Lemma lookup_live_kept w w2 k e :
  (forall e', db w2 !! k = Some e' -> db w !! k = Some e') ->
  now_s w <= now_s w2 ->
  lookup_live w2 k = Some e -> lookup_live w k = Some e.
Proof.
  intros Hd Ht. unfold lookup_live.
  destruct (db w2 !! k) as [e'|] eqn:E; [|discriminate].
  rewrite (Hd e' eq_refl).
  destruct (live (now_s w2) e') eqn:El; [|discriminate].
  now rewrite (live_earlier _ _ e' Ht El).
Qed.

Section SessionClaims.

Variable P : Platform.
Variable uid : string.


(** [getUserSessions] never throws: it returns the elements of the rows it
    scanned, or the empty list when something went wrong. *)
Lemma getUserSessions_cases w :
  exists l w',
    getUserSessions P uid w = (Ok l, w') /\
    (l = [] \/
     l = omap (session_of P uid w) (keys_with_prefix REDIS_TOKEN_PREFIX w)).
Proof.
  rewrite getUserSessions_unfold. unfold try_catch, bind.
  destruct (redis_keys REDIS_TOKEN_PREFIX w) as [[ks|e] w1] eqn:Hk.
  2:{ unfold ret. eauto. }
  apply redis_keys_inv in Hk as [-> Hs].
  destruct (for_of _ [] (list_step P uid) w1) as [[r|e] w2] eqn:Hloop.
  2:{ unfold ret. eauto. }
  apply list_loop_inv in Hloop as [-> _].
  exists (omap (session_of P uid w1) (keys_with_prefix REDIS_TOKEN_PREFIX w)), w2.
  split; [reflexivity|]. right.
  apply omap_session_of_same, Hs.
Qed.

Lemma keys_all_prefixed p w :
  Forall (fun k => String.prefix p k = true) (keys_with_prefix p w).
Proof.
  apply Forall_forall. intros k Hk.
  now apply elem_of_keys_with_prefix in Hk as [Hp _].
Qed.


Lemma NoDup_keys_with_prefix p w : NoDup (keys_with_prefix p w).
Proof. apply NoDup_filter, NoDup_fst_map_to_list. Qed.





End SessionClaims.

(** ** The session rows the service writes parse *)

Section Rows.

Variable P : Platform.

Lemma writes_rows_stable : Stable (writes_rows P).
Proof.
  split.
  - intros w. split; [reflexivity | auto].
  - intros w1 w2 w3 [Hc1 H1] [Hc2 H2]. split; [congruence|].
    intros k e Hp Hl. destruct (H2 k e Hp Hl) as [Hl2|Hs]; [|now right].
    now apply H1.
  - intros w w' [Hd Hc]. split; [exact Hc|]. intros k e _ Hl. left.
    now rewrite <- Hd.
Qed.

Lemma rows_redis_setex_row k s session :
  preserves (writes_rows P) (redis_setex k s (JSON_stringify P session)).
Proof.
  apply preserves_command; [apply writes_rows_stable|].
  intros w r w'. destruct (0 <? s); intros H; inversion H; subst.
  - split; [reflexivity|]. intros k' e _. simpl.
    destruct (decide (k = k')) as [->|Hne].
    + rewrite lookup_insert_eq. intros E. inversion E; subst. right. eauto.
    + rewrite lookup_insert_ne by exact Hne. auto.
  - apply (stable_refl _ writes_rows_stable).
Qed.

Lemma rows_redis_setex_other k s v :
  String.prefix REDIS_TOKEN_PREFIX k = false ->
  preserves (writes_rows P) (redis_setex k s v).
Proof.
  intros Hk. apply preserves_command; [apply writes_rows_stable|].
  intros w r w'. destruct (0 <? s); intros H; inversion H; subst.
  - split; [reflexivity|]. intros k' e Hp. simpl.
    rewrite lookup_insert_ne by congruence. auto.
  - apply (stable_refl _ writes_rows_stable).
Qed.

Lemma rows_redis_del k : preserves (writes_rows P) (redis_del k).
Proof.
  apply preserves_command; [apply writes_rows_stable|].
  intros w r w' H. inversion H; subst. split; [reflexivity|].
  intros k' e _. simpl. intros Hl. left.
  apply lookup_delete_Some in Hl as [_ Hl]. exact Hl.
Qed.

Lemma rows_updateSessionLastUsed sid :
  preserves (writes_rows P) (updateSessionLastUsed P sid).
Proof.
  pose proof writes_rows_stable as HR. unfold updateSessionLastUsed.
  apply preserves_try_catch; [exact HR | | intros _; now apply preserves_ret].
  apply preserves_bind; [exact HR | now apply preserves_redis_get |].
  intros [text|]; [|now apply preserves_ret].
  destruct (truthy text); [|now apply preserves_ret].
  apply preserves_bind; [exact HR | now apply preserves_JSON_parse |].
  intros session.
  apply preserves_bind; [exact HR | now apply preserves_pure |]. intros stamp.
  apply preserves_bind; [exact HR | now apply preserves_redis_ttl |]. intros ttl.
  apply rows_redis_setex_row.
Qed.

Lemma rows_verifyToken token : preserves (writes_rows P) (verifyToken P token).
Proof.
  pose proof writes_rows_stable as HR. unfold verifyToken.
  apply preserves_try_catch; [exact HR | | intros _; now apply preserves_ret].
  apply preserves_bind; [exact HR | now apply preserves_redis_exists |].
  intros n. destruct (negb (n =? 0)); [now apply preserves_ret|].
  apply preserves_bind; [exact HR | now apply preserves_logged |].
  intros payload.
  apply preserves_bind; [exact HR | | intros _; now apply preserves_ret].
  destruct (truthy (sessionId payload)); [|now apply preserves_ret].
  apply rows_updateSessionLastUsed.
Qed.

Lemma rows_refreshAccessToken token :
  preserves (writes_rows P) (refreshAccessToken P token).
Proof.
  pose proof writes_rows_stable as HR. unfold refreshAccessToken.
  apply preserves_try_catch; [exact HR | | intros _; now apply preserves_ret].
  apply preserves_bind; [exact HR | apply rows_verifyToken |].
  intros [payload|]; [|now apply preserves_ret].
  destruct (negb _); [now apply preserves_ret|].
  apply preserves_bind; [exact HR | now apply preserves_redis_get |].
  intros [stored|]; [|now apply preserves_ret].
  destruct (_ || _); [now apply preserves_ret|].
  apply preserves_bind; [exact HR | now apply preserves_jwt_sign |].
  intros tok.
  apply preserves_bind; [exact HR | now apply preserves_pure |]. intros t.
  apply preserves_bind; [exact HR | | intros _; now apply preserves_ret].
  apply rows_updateSessionLastUsed.
Qed.


Lemma rows_revokeToken token : preserves (writes_rows P) (revokeToken P token).
Proof.
  pose proof writes_rows_stable as HR. unfold revokeToken.
  apply preserves_try_catch; [exact HR | | intros e; now apply preserves_throw].
  apply preserves_bind; [exact HR | now apply preserves_logged |].
  intros [p|]; [|now apply preserves_ret].
  destruct (exp p) as [e|]; [|now apply preserves_ret].
  destruct (negb (e =? 0)); [|now apply preserves_ret].
  apply preserves_bind; [exact HR | now apply preserves_pure |]. intros t.
  destruct (0 <? e - t / 1000); [|now apply preserves_ret].
  now apply rows_redis_setex_other.
Qed.

Lemma rows_revokeSession sid : preserves (writes_rows P) (revokeSession sid).
Proof.
  pose proof writes_rows_stable as HR. unfold revokeSession.
  apply preserves_try_catch; [exact HR | | intros e; now apply preserves_throw].
  apply preserves_bind; [exact HR | apply rows_redis_del |]. intros _.
  apply preserves_bind; [exact HR | apply rows_redis_del |]. intros _.
  now apply preserves_ret.
Qed.

Lemma rows_revokeAllUserTokens uid :
  preserves (writes_rows P) (revokeAllUserTokens P uid).
Proof.
  pose proof writes_rows_stable as HR. unfold revokeAllUserTokens.
  apply preserves_try_catch; [exact HR | | intros e; now apply preserves_throw].
  apply preserves_bind; [exact HR | now apply preserves_redis_keys |].
  intros ks. apply preserves_for_of; [exact HR|]. intros [] key.
  apply preserves_bind; [exact HR | now apply preserves_redis_get |].
  intros [text|]; [|now apply preserves_ret].
  destruct (truthy text); [|now apply preserves_ret].
  apply preserves_bind; [exact HR | now apply preserves_JSON_parse |].
  intros session. destruct (option_string_eqb _ _); [|now apply preserves_ret].
  apply rows_revokeSession.
Qed.

Hypothesis HL : Lawful P.


Lemma rows_parse_advance dt w :
  0 <= dt -> rows_parse P w -> rows_parse P (advance dt w).
Proof.
  intros Hdt Hrows key e Hp Hl Ht. apply (Hrows key e Hp); [|exact Ht].
  apply (lookup_live_later w (advance dt w));
    [reflexivity | now apply now_s_advance | exact Hl].
Qed.

End Rows.

(** ** The scenarios *)




(** The login scenario: the access token verifies, and the session row is
    written back with the instant of the call and the expiry it had; once
    revoked, the token is answered [null] after the one EXISTS, and the
    store is untouched. *)
Lemma verifyToken_check_order_witness :
  fst (verifyToken Wire.platform login_access w_login) =
  Ok (Some login_access_payload) /\
  (fst (verifyToken Wire.platform login_access w_revoked) = Ok None /\
   trace (snd (verifyToken Wire.platform login_access w_revoked)) =
   trace w_revoked ++ [EvExists (REDIS_BLACKLIST_PREFIX +:+ login_access)] /\
   db (snd (verifyToken Wire.platform login_access w_revoked)) = db w_revoked) /\
  db (snd (verifyToken Wire.platform login_access w_login)) =
  <[REDIS_TOKEN_PREFIX +:+ "s0" :=
      mkEntry
        (touched_row Wire.platform
           (new_session Wire.platform "u1" "a@x.com" 5000) w_login)
        (Some 604805)]> (db w_login).
Proof.
  split; [|split].
  - refine (proj1 (proj2 (proj2 (verifyToken_check_order Wire.platform
                                   login_access w_login)) _ _
                     login_access_payload _));
      vm_compute; reflexivity.
  - refine (proj1 (verifyToken_check_order Wire.platform login_access
                     w_revoked) _).
    right. vm_compute. reflexivity.
  - destruct (proj2 (proj2 (proj2 (verifyToken_check_order Wire.platform
                                     login_access w_login))
                       ltac:(vm_compute; reflexivity)
                       ltac:(vm_compute; reflexivity)
                       login_access_payload
                       ltac:(vm_compute; reflexivity)))
      as (rest & _ & _ & Hw).
    destruct (Hw eq_refl) as [_ Hup].
    rewrite (proj2 (Hup ltac:(vm_compute; reflexivity)
                      (mkEntry
                         (JSON_stringify Wire.platform
                            (new_session Wire.platform "u1" "a@x.com" 5000))
                         (Some 604805))
                      (new_session Wire.platform "u1" "a@x.com" 5000)
                      ltac:(vm_compute; reflexivity)
                      ltac:(vm_compute; reflexivity)
                      ltac:(vm_compute; reflexivity))).
    reflexivity.
Defined.

(** The login scenario on a store that fails every read of the session
    row: verification and refresh succeed all the same. *)
Lemma touch_failure_is_swallowed_witness :
  fst (verifyToken Wire.platform login_refresh w_flaky) =
  Ok (Some login_refresh_payload) /\
  fst (refreshAccessToken Wire.platform login_refresh w_flaky) =
  Ok (Some (mkAccessGrant login_access 905000)).
Proof.
  destruct (touch_failure_is_swallowed Wire.platform "s0" login_refresh
              w_flaky) as (_ & Hv & Hr & _).
  split.
  - apply Hv; vm_compute; reflexivity.
  - apply (Hr login_refresh_payload
             (snd (verifyToken Wire.platform login_refresh w_flaky))
             (snd (redis_get (REDIS_REFRESH_PREFIX +:+ "s0")
                     (snd (verifyToken Wire.platform login_refresh w_flaky))))
             login_access);
      try (vm_compute; reflexivity).
    discriminate.
Defined.

(** The login scenario: revoking the access token at second 5 blacklists it
    until second 905; revoking it at second 905 changes nothing. *)
Lemma revokeToken_ttl_is_remaining_lifetime_witness :
  (fst (revokeToken Wire.platform login_access w_login) = Ok tt /\
   db (snd (revokeToken Wire.platform login_access w_login)) =
   <[REDIS_BLACKLIST_PREFIX +:+ login_access := mkEntry "1" (Some 905)]>
     (db w_login) /\
   trace (snd (revokeToken Wire.platform login_access w_login)) =
   trace w_login ++
   [EvDecode login_access;
    EvSetex (REDIS_BLACKLIST_PREFIX +:+ login_access) (905 - now_s w_login) "1"]) /\
  (fst (revokeToken Wire.platform login_access (advance 900000 w_login)) = Ok tt /\
   db (snd (revokeToken Wire.platform login_access (advance 900000 w_login))) =
   db (advance 900000 w_login) /\
   faults (snd (revokeToken Wire.platform login_access (advance 900000 w_login))) =
   faults (advance 900000 w_login)).
Proof.
  split.
  - refine (proj1 (proj2 (revokeToken_ttl_is_remaining_lifetime Wire.platform
                            login_access w_login))
              login_access_payload 905 _ _ _ _ _);
      try (vm_compute; reflexivity). discriminate.
  - refine (proj2 (proj2 (revokeToken_ttl_is_remaining_lifetime Wire.platform
                            login_access (advance 900000 w_login)))
              login_access_payload 905 _ _ _);
      try (vm_compute; reflexivity). vm_compute. discriminate.
Defined.

(** Revoking a string that is no token returns and writes nothing. *)
Lemma revokeToken_undecodable_is_silent_witness :
  fst (revokeToken Wire.platform garbage w_login) = Ok tt /\
  db (snd (revokeToken Wire.platform garbage w_login)) = db w_login.
Proof.
  destruct (revokeToken_undecodable_is_silent Wire.platform garbage w_login)
    as (Hr & Hd & _); [left; vm_compute; reflexivity|].
  split; assumption.
Defined.



(** * Further properties of the token code *)

(** ** The sweeps *)

Lemma cleanupExpiredTokens_unfold :
  cleanupExpiredTokens =
  try_catch
    (let! sessionKeys := redis_keys REDIS_TOKEN_PREFIX in
     let! n := for_of sessionKeys 0 (sweep_step (fun ttl => ttl =? -1)) in
     ret (mkCleanupResult n))
    (fun _ => ret (mkCleanupResult 0)).
Proof. reflexivity. Qed.

Lemma cleanupExpiredSessions_unfold :
  cleanupExpiredSessions =
  (let! startTime := Date_now in
   try_catch
     (let! sessionKeys := redis_keys "session:" in
      let! blacklistKeys := redis_keys "blacklist:" in
      let! expiredSessions :=
        for_of sessionKeys 0 (sweep_step (fun ttl => ttl <=? 0)) in
      let! expiredTokens :=
        for_of blacklistKeys 0 (sweep_step (fun ttl => ttl <=? 0)) in
      let! t := Date_now in
      ret tt)
     (fun error => throw error)).
Proof. reflexivity. Qed.

Lemma only_drops_refl K w : only_drops K w w.
Proof. split; [reflexivity | auto]. Qed.

Lemma only_drops_same K w w' : same_store w w' -> only_drops K w w'.
Proof. intros [Hd Hc]. split; [exact Hc|]. intros k. left. now rewrite Hd. Qed.

Lemma only_drops_trans K w1 w2 w3 :
  only_drops K w1 w2 -> only_drops K w2 w3 -> only_drops K w1 w3.
Proof.
  intros [Hc1 H1] [Hc2 H2]. split; [congruence|]. intros k.
  destruct (H2 k) as [E2|(E2 & HK & e & Hl & He)].
  - rewrite E2. apply H1.
  - destruct (H1 k) as [E1|(E1 & _)].
    + right. split; [exact E2|]. split; [exact HK|]. exists e.
      split; [|exact He]. unfold lookup_live, now_s in *.
      now rewrite <- E1, <- Hc1.
    + unfold lookup_live in Hl. rewrite E1 in Hl. discriminate.
Qed.

Lemma only_drops_stable K : Stable (only_drops K).
Proof.
  split; [apply only_drops_refl | apply only_drops_trans
         | apply only_drops_same].
Qed.

Lemma only_drops_weaken (K K' : string -> Prop) w w' :
  (forall k, K k -> K' k) -> only_drops K w w' -> only_drops K' w w'.
Proof.
  intros HK [Hc H]. split; [exact Hc|]. intros k.
  destruct (H k) as [E|(E & Hk & He)]; [now left|]. right. auto.
Qed.

Lemma redis_ttl_inv k w t w' :
  redis_ttl k w = (Ok t, w') ->
  same_store w w' /\
  t = match lookup_live w k with
      | None => -2
      | Some e =>
          match expireAt e with
          | None => -1
          | Some x => x - now_s w
          end
      end.
Proof.
  intros H. apply command_inv in H as [[? _]|(w1 & Hs & H)]; [discriminate|].
  inversion H; subst. split; [exact Hs|].
  rewrite (same_store_lookup _ _ _ Hs), (same_store_now _ _ Hs). reflexivity.
Qed.

Lemma redis_del_cases k w r w' :
  redis_del k w = (r, w') ->
  (r = Throw RedisError /\ same_store w w') \/
  (exists c, r = Ok c /\ db w' = delete k (db w) /\ clock w' = clock w).
Proof.
  intros H. apply command_inv in H as [[-> Hs]|(w1 & [Hd Hc] & H)];
    [now left|].
  inversion H; subst. right. eexists. split; [reflexivity|]. simpl.
  now rewrite Hd.
Qed.

Section Sweep.

Variable test : Z -> bool.
Hypothesis test_positive : forall t, 0 < t -> test t = false.
Variable K : string -> Prop.

Lemma sweep_step_drops n k w r w' :
  K k -> sweepable w k ->
  sweep_step test n k w = (r, w') -> only_drops K w w'.
Proof.
  intros HK Hsw. unfold sweep_step, bind.
  destruct (redis_ttl k w) as [[t|e] wa] eqn:Ht.
  2:{ intros H. inversion H; subst. apply only_drops_same.
      eapply preserves_redis_ttl; [apply same_store_stable | exact Ht]. }
  apply redis_ttl_inv in Ht as [Hs ->].
  destruct (test _) eqn:Htest.
  2:{ intros H. inversion H; subst. now apply only_drops_same. }
  destruct (redis_del k wa) as [rd wb] eqn:Hdel.
  apply redis_del_cases in Hdel as [[-> Hs2]|(c & -> & Hd & Hc)]; intros H;
    inversion H; subst.
  - apply only_drops_same. eapply same_store_trans; eassumption.
  - destruct Hs as [Hda Hca]. split; [congruence|]. intros k'.
    rewrite Hd, Hda. destruct (decide (k' = k)) as [->|Hne].
    + rewrite lookup_delete_eq.
      destruct Hsw as [Hn|[e He]]; [left; now rewrite Hn|].
      right. split; [reflexivity|]. split; [exact HK|]. exists e.
      split; [exact He|]. rewrite He in Htest.
      destruct (expireAt e) as [x|] eqn:Hx; [|reflexivity].
      apply lookup_live_Some_live in He.
      pose proof (live_ttl_positive e w x He Hx) as Hpos.
      rewrite (test_positive _ Hpos) in Htest. discriminate.
    + left. now rewrite lookup_delete_ne.
Qed.

Lemma sweepable_after w w' k :
  only_drops K w w' -> sweepable w k -> sweepable w' k.
Proof.
  intros [Hc H] Hsw. destruct (H k) as [E|(E & _)]; [|now left].
  destruct Hsw as [Hn|Hl]; [left; congruence|]. right.
  unfold lookup_live, now_s in *. now rewrite E, Hc.
Qed.

Lemma sweep_loop_drops ks : forall n w r w',
  Forall (fun k => K k /\ sweepable w k) ks ->
  for_of ks n (sweep_step test) w = (r, w') -> only_drops K w w'.
Proof.
  induction ks as [|k ks IH]; intros n w r w' Hall H; simpl in H.
  - inversion H; subst. apply only_drops_refl.
  - inversion Hall as [|? ? [HK Hsw] Hks]; subst. unfold bind in H.
    destruct (sweep_step test n k w) as [[n1|e] w1] eqn:Hstep.
    + apply sweep_step_drops in Hstep; [|assumption..].
      eapply only_drops_trans; [exact Hstep|].
      eapply IH; [|exact H].
      eapply Forall_impl; [exact Hks|]. intros k' [HK' Hsw'].
      split; [exact HK'|]. eapply sweepable_after; eassumption.
    + inversion H; subst. eapply sweep_step_drops; eassumption.
Qed.

End Sweep.

Lemma keys_sweepable p w :
  Forall (fun k => String.prefix p k = true /\ sweepable w k)
    (keys_with_prefix p w).
Proof.
  apply Forall_forall. intros k Hk.
  apply elem_of_keys_with_prefix in Hk as [Hp Hl]. split; [exact Hp|].
  now right.
Qed.

Lemma sweepable_same w w' k : same_store w w' -> sweepable w k -> sweepable w' k.
Proof.
  intros Hs [Hn|Hl]; [left | right].
  - destruct Hs as [-> _]. exact Hn.
  - now rewrite (same_store_lookup _ _ _ Hs).
Qed.

Lemma token_test_positive t : 0 < t -> (t =? -1) = false.
Proof. intros H. apply Z.eqb_neq. lia. Qed.

Lemma session_test_positive t : 0 < t -> (t <=? 0) = false.
Proof. intros H. apply Z.leb_gt. exact H. Qed.

Lemma cleanupExpiredTokens_drops w :
  exists n w',
    cleanupExpiredTokens w = (Ok (mkCleanupResult n), w') /\
    only_drops (fun k => String.prefix REDIS_TOKEN_PREFIX k = true) w w'.
Proof.
  set (K := fun k => String.prefix REDIS_TOKEN_PREFIX k = true).
  rewrite cleanupExpiredTokens_unfold. unfold try_catch, bind.
  destruct (redis_keys REDIS_TOKEN_PREFIX w) as [[ks|e] w1] eqn:Hk.
  2:{ eexists _, _. split; [reflexivity|]. apply only_drops_same.
      eapply preserves_redis_keys; [apply same_store_stable | exact Hk]. }
  apply redis_keys_inv in Hk as [-> Hs].
  destruct (for_of _ 0 _ w1) as [r w2] eqn:Hloop.
  assert (Ho : only_drops K w w2).
  { eapply only_drops_trans; [apply only_drops_same, Hs|].
    eapply (sweep_loop_drops _ token_test_positive K); [|exact Hloop].
    eapply Forall_impl; [apply keys_sweepable|]. intros k [Hp Hsw].
    split; [exact Hp|]. eapply sweepable_same; eassumption. }
  destruct r as [n|e]; eexists _, _; (split; [reflexivity | exact Ho]).
Qed.

(** X1. In every world [cleanupExpiredTokens] returns a count and never
    throws, and all it can have done to the store is delete session rows
    that a read saw and that had no expiry: a row with an expiry, a refresh
    record, a blacklist entry are as they were. *)
Theorem cleanupExpiredTokens_only_drops_orphans w :
  exists n,
    fst (cleanupExpiredTokens w) = Ok (mkCleanupResult n) /\
    clock (snd (cleanupExpiredTokens w)) = clock w /\
    forall k,
      db (snd (cleanupExpiredTokens w)) !! k = db w !! k \/
      (db (snd (cleanupExpiredTokens w)) !! k = None /\
       String.prefix REDIS_TOKEN_PREFIX k = true /\
       exists e, lookup_live w k = Some e /\ expireAt e = None).
Proof.
  destruct (cleanupExpiredTokens_drops w) as (n & w' & Hrun & Hc & Hdrops).
  exists n. rewrite Hrun. simpl. auto.
Qed.

Lemma cleanupExpiredSessions_drops w :
  only_drops swept_key w (snd (cleanupExpiredSessions w)).
Proof.
  rewrite cleanupExpiredSessions_unfold. unfold bind at 1, Date_now at 1.
  simpl. rewrite try_rethrow_id. unfold bind.
  destruct (redis_keys "session:" w) as [[ks|e] w1] eqn:Hk1.
  2:{ apply only_drops_same.
      eapply preserves_redis_keys; [apply same_store_stable | exact Hk1]. }
  apply redis_keys_inv in Hk1 as [-> Hs1].
  destruct (redis_keys "blacklist:" w1) as [[kb|e] w2] eqn:Hk2.
  2:{ apply only_drops_same. eapply same_store_trans; [exact Hs1|].
      eapply preserves_redis_keys; [apply same_store_stable | exact Hk2]. }
  apply redis_keys_inv in Hk2 as [-> Hs2].
  pose proof (same_store_trans _ _ _ Hs1 Hs2) as Hs.
  destruct (for_of _ 0 _ w2) as [r3 w3] eqn:Hl1.
  assert (Ho3 : only_drops swept_key w2 w3).
  { eapply (sweep_loop_drops _ session_test_positive swept_key);
      [|exact Hl1].
    eapply Forall_impl; [apply (keys_sweepable "session:" w)|].
    intros k [Hp Hsw]. split; [now left|].
    apply (sweepable_same w); assumption. }
  destruct r3 as [n3|e].
  2:{ simpl. eapply only_drops_trans; [apply only_drops_same, Hs|exact Ho3]. }
  destruct (for_of _ 0 _ w3) as [r4 w4] eqn:Hl2.
  assert (Ho4 : only_drops swept_key w3 w4).
  { eapply (sweep_loop_drops _ session_test_positive swept_key);
      [|exact Hl2].
    eapply Forall_impl; [apply (keys_sweepable "blacklist:" w1)|].
    intros k [Hp Hsw]. split; [now right|].
    eapply (sweepable_after swept_key); [exact Ho3|].
    apply (sweepable_same w1); assumption. }
  assert (Ho' : only_drops swept_key w w4).
  { eapply only_drops_trans; [apply only_drops_same, Hs|].
    eapply only_drops_trans; eassumption. }
  destruct r4 as [n4|e]; simpl; exact Ho'.
Qed.

(** X2. In every world, whether it returns or throws,
    [cleanupExpiredSessions] can only have deleted keys under [session:] or
    [blacklist:] that a read saw and that had no expiry.  So the session
    rows and refresh records of the token service, and every blacklist
    entry with an expiry, are as they were. *)
Theorem cleanupExpiredSessions_only_drops_persistent w :
  clock (snd (cleanupExpiredSessions w)) = clock w /\
  forall k,
    db (snd (cleanupExpiredSessions w)) !! k = db w !! k \/
    (db (snd (cleanupExpiredSessions w)) !! k = None /\
     swept_key k /\
     exists e, lookup_live w k = Some e /\ expireAt e = None).
Proof. exact (cleanupExpiredSessions_drops w). Qed.

Lemma orphans_ext w w' (ks : list string) :
  (forall k, k ∈ ks -> is_orphan w' k = is_orphan w k) ->
  orphans w' ks = orphans w ks.
Proof.
  unfold orphans. induction ks as [|k ks IH]; intros H; [reflexivity|].
  rewrite !filter_cons, (H k) by left.
  rewrite IH by (intros k' Hk'; apply H; now right). reflexivity.
Qed.

Lemma is_orphan_lookup w w' k :
  clock w' = clock w -> db w' !! k = db w !! k ->
  is_orphan w' k = is_orphan w k.
Proof.
  intros Hc Hd. unfold is_orphan, lookup_live, now_s. now rewrite Hc, Hd.
Qed.

Section SweepHealthy.

Variable test : Z -> bool.
Hypothesis test_positive : forall t, 0 < t -> test t = false.
Hypothesis test_persistent : test (-1) = true.

(** On a healthy store the loop of a sweep deletes, of the keys a read
    sees, exactly those without expiry, and counts them. *)
Lemma sweep_loop_healthy ks : forall n w,
  faults w = [] -> NoDup ks ->
  Forall (fun k => is_Some (lookup_live w k)) ks ->
  exists w',
    for_of ks n (sweep_step test) w =
    (Ok (n + Z.of_nat (length (orphans w ks))), w') /\
    faults w' = [] /\ clock w' = clock w /\
    (forall k, k ∈ ks -> is_orphan w k = true -> db w' !! k = None) /\
    (forall k, ~ (k ∈ ks /\ is_orphan w k = true) ->
               db w' !! k = db w !! k).
Proof.
  induction ks as [|k0 ks IH]; intros n w Hf Hnd Hall.
  { exists w. simpl. unfold ret. rewrite Z.add_0_r.
    repeat split; auto. intros k Hk. inversion Hk. }
  apply NoDup_cons in Hnd as [Hk0 Hnd].
  inversion Hall as [|? ? [e He] Hks]; subst.
  rewrite Forall_forall in Hks.
  simpl. unfold bind, sweep_step at 1, bind.
  rewrite redis_ttl_healthy by assumption. rewrite He.
  destruct (expireAt e) as [x|] eqn:Hx.
  - (* the key has an expiry: it is left *)
    pose proof (live_ttl_positive e w x (lookup_live_Some_live _ _ _ He) Hx)
      as Hpos.
    rewrite (test_positive _ Hpos). unfold ret.
    assert (Ho : is_orphan w k0 = false)
      by (unfold is_orphan; now rewrite He, Hx).
    destruct (IH n (log (EvTtl k0) w) Hf Hnd) as (w' & Hrun & Hf' & Hc & HA & HB).
    { apply Forall_forall. intros k Hk. apply (Hks k Hk). }
    exists w'. rewrite Hrun.
    rewrite (orphans_ext w (log (EvTtl k0) w) ks) by reflexivity.
    unfold orphans at 2. rewrite filter_cons, Ho. fold (orphans w ks).
    repeat split; auto.
    + intros k Hk Hok. apply elem_of_cons in Hk as [->|Hk];
        [congruence | now apply HA].
    + intros k Hn. apply HB. intros [Hk Hok]. apply Hn.
      split; [now right | exact Hok].
  - (* the key has none: it is deleted and counted *)
    rewrite test_persistent. unfold bind.
    rewrite redis_del_healthy by assumption. unfold ret.
    set (w1 := with_db _ _).
    assert (Ho : is_orphan w k0 = true)
      by (unfold is_orphan; now rewrite He, Hx).
    assert (Hsame : forall k, k ∈ ks -> db w1 !! k = db w !! k).
    { intros k Hk. subst w1. simpl. apply lookup_delete_ne.
      intros ->. contradiction. }
    destruct (IH (n + 1) w1 Hf Hnd) as (w' & Hrun & Hf' & Hc & HA & HB).
    { apply Forall_forall. intros k Hk.
      unfold lookup_live. rewrite (Hsame k Hk). apply (Hks k Hk). }
    exists w'. rewrite Hrun.
    rewrite (orphans_ext w w1 ks)
      by (intros k Hk; apply is_orphan_lookup; [reflexivity | now apply Hsame]).
    unfold orphans at 2. rewrite filter_cons, Ho. fold (orphans w ks).
    split; [do 2 f_equal; simpl length; lia|].
    repeat split; auto.
    + intros k Hk Hok. apply elem_of_cons in Hk as [->|Hk].
      * rewrite HB; [subst w1; simpl; apply lookup_delete_eq|].
        intros [Hin _]. contradiction.
      * apply HA; [exact Hk|].
        rewrite (is_orphan_lookup w w1 k); [exact Hok | reflexivity |].
        now apply Hsame.
    + intros k Hn.
      assert (Hne : k <> k0) by (intros ->; apply Hn; split; [left | exact Ho]).
      rewrite HB.
      * subst w1. simpl. now apply lookup_delete_ne.
      * intros [Hk Hok]. apply Hn. split; [now right|].
        rewrite <- (is_orphan_lookup w w1 k); [exact Hok | reflexivity |].
        now apply Hsame.
Qed.

End SweepHealthy.

Lemma keys_all_live p w :
  Forall (fun k => is_Some (lookup_live w k)) (keys_with_prefix p w).
Proof.
  apply Forall_forall. intros k Hk.
  now apply elem_of_keys_with_prefix in Hk as [_ Hl].
Qed.

Lemma orphans_nil w (ks : list string) :
  (forall k, k ∈ ks -> is_orphan w k = false) -> orphans w ks = [].
Proof.
  unfold orphans. induction ks as [|k ks IH]; intros H; [reflexivity|].
  rewrite filter_cons, (H k) by left. apply IH. intros k' Hk'. apply H.
  now right.
Qed.

Lemma cleanupExpiredTokens_healthy w :
  faults w = [] ->
  exists w',
    cleanupExpiredTokens w =
    (Ok (mkCleanupResult
           (Z.of_nat (length (orphans w (keys_with_prefix REDIS_TOKEN_PREFIX w))))),
     w') /\
    faults w' = [] /\ clock w' = clock w /\
    (forall k, String.prefix REDIS_TOKEN_PREFIX k = true ->
               is_orphan w k = true -> db w' !! k = None) /\
    (forall k, ~ (String.prefix REDIS_TOKEN_PREFIX k = true /\
                  is_orphan w k = true) ->
               db w' !! k = db w !! k).
Proof.
  intros Hf. rewrite cleanupExpiredTokens_unfold. unfold try_catch, bind.
  rewrite redis_keys_healthy by assumption.
  destruct (sweep_loop_healthy (fun t => t =? -1) token_test_positive eq_refl
              (keys_with_prefix REDIS_TOKEN_PREFIX w) 0
              (log (EvKeys (REDIS_TOKEN_PREFIX +:+ "*")) w) Hf
              (NoDup_keys_with_prefix _ _) (keys_all_live _ w))
    as (w' & Hrun & Hf' & Hc & HA & HB).
  rewrite Hrun. exists w'. unfold ret.
  rewrite (orphans_ext w (log _ w)) by reflexivity.
  split; [reflexivity|]. repeat split; auto.
  - intros k Hp Ho. apply HA; [|exact Ho].
    apply elem_of_keys_with_prefix. split; [exact Hp|].
    unfold is_orphan in Ho. destruct (lookup_live w k); [eauto | discriminate].
  - intros k Hn. apply HB. intros [Hk Ho]. apply Hn.
    apply elem_of_keys_with_prefix in Hk as [Hp _]. auto.
Qed.

(** X3. On a healthy store [cleanupExpiredTokens] deletes exactly the
    session rows that a read sees and that have no expiry, leaves every
    other key as it was, and reports how many it deleted; run again at
    once it finds nothing and reports 0. *)
Theorem cleanupExpiredTokens_exact w :
  faults w = [] ->
  let w' := snd (cleanupExpiredTokens w) in
  fst (cleanupExpiredTokens w) =
  Ok (mkCleanupResult
        (Z.of_nat
           (length (orphans w (keys_with_prefix REDIS_TOKEN_PREFIX w))))) /\
  (forall k, String.prefix REDIS_TOKEN_PREFIX k = true ->
             is_orphan w k = true -> db w' !! k = None) /\
  (forall k, ~ (String.prefix REDIS_TOKEN_PREFIX k = true /\
                is_orphan w k = true) ->
             db w' !! k = db w !! k) /\
  fst (cleanupExpiredTokens w') = Ok (mkCleanupResult 0) /\
  db (snd (cleanupExpiredTokens w')) = db w'.
Proof.
  intros Hf. cbv zeta.
  destruct (cleanupExpiredTokens_healthy w Hf)
    as (w' & Hrun & Hf' & Hc & HA & HB).
  rewrite Hrun. simpl. split; [reflexivity|]. split; [exact HA|].
  split; [exact HB|].
  destruct (cleanupExpiredTokens_healthy w' Hf')
    as (w2 & Hrun2 & _ & _ & _ & HB2).
  assert (Hnone : forall k, String.prefix REDIS_TOKEN_PREFIX k = true ->
                            is_orphan w' k = false).
  { intros k Hp. destruct (is_orphan w k) eqn:Ho.
    - unfold is_orphan, lookup_live. now rewrite (HA k Hp Ho).
    - rewrite (is_orphan_lookup w w' k Hc); [exact Ho|].
      apply HB. intros [_ E]. congruence. }
  rewrite Hrun2. simpl. split.
  - rewrite orphans_nil; [reflexivity|]. intros k Hk.
    apply elem_of_keys_with_prefix in Hk as [Hp _]. now apply Hnone.
  - apply map_eq. intros k. apply HB2. intros [Hp Ho].
    rewrite (Hnone k Hp) in Ho. discriminate.
Qed.

(** ** What every write of the service has in common *)

Section AnyWrite.

Variable P : Platform.
Variable R : World -> World -> Prop.
Hypothesis HR : Stable R.
Hypothesis R_setex : forall k s v, preserves R (redis_setex k s v).
Hypothesis R_del : forall k, preserves R (redis_del k).

Lemma any_updateSessionLastUsed sid : preserves R (updateSessionLastUsed P sid).
Proof.
  unfold updateSessionLastUsed.
  apply preserves_try_catch; [exact HR | | intros _; now apply preserves_ret].
  apply preserves_bind; [exact HR | now apply preserves_redis_get |].
  intros [text|]; [|now apply preserves_ret].
  destruct (truthy text); [|now apply preserves_ret].
  apply preserves_bind; [exact HR | now apply preserves_JSON_parse |].
  intros session.
  apply preserves_bind; [exact HR | now apply preserves_pure |]. intros stamp.
  apply preserves_bind; [exact HR | now apply preserves_redis_ttl |].
  intros ttl. apply R_setex.
Qed.

Lemma any_verifyToken token : preserves R (verifyToken P token).
Proof.
  unfold verifyToken.
  apply preserves_try_catch; [exact HR | | intros _; now apply preserves_ret].
  apply preserves_bind; [exact HR | now apply preserves_redis_exists |].
  intros n. destruct (negb (n =? 0)); [now apply preserves_ret|].
  apply preserves_bind; [exact HR | now apply preserves_logged |].
  intros payload.
  apply preserves_bind; [exact HR | | intros _; now apply preserves_ret].
  destruct (truthy (sessionId payload)); [|now apply preserves_ret].
  apply any_updateSessionLastUsed.
Qed.

Lemma any_refreshAccessToken token : preserves R (refreshAccessToken P token).
Proof.
  unfold refreshAccessToken.
  apply preserves_try_catch; [exact HR | | intros _; now apply preserves_ret].
  apply preserves_bind; [exact HR | apply any_verifyToken |].
  intros [payload|]; [|now apply preserves_ret].
  destruct (negb _); [now apply preserves_ret|].
  apply preserves_bind; [exact HR | now apply preserves_redis_get |].
  intros [stored|]; [|now apply preserves_ret].
  destruct (_ || _); [now apply preserves_ret|].
  apply preserves_bind; [exact HR | now apply preserves_jwt_sign |].
  intros tok.
  apply preserves_bind; [exact HR | now apply preserves_pure |]. intros t.
  apply preserves_bind; [exact HR | | intros _; now apply preserves_ret].
  apply any_updateSessionLastUsed.
Qed.

Lemma any_generateTokenPair uid mail :
  preserves R (generateTokenPair P uid mail).
Proof.
  unfold generateTokenPair.
  apply preserves_bind; [exact HR | |].
  { intros w r w' H. inversion H; subst.
    apply (stable_same _ HR). split; reflexivity. }
  intros sid.
  apply preserves_bind; [exact HR | now apply preserves_jwt_sign |]. intros ta.
  apply preserves_bind; [exact HR | now apply preserves_jwt_sign |]. intros tr.
  apply preserves_bind; [exact HR | now apply preserves_pure |]. intros t1.
  apply preserves_bind; [exact HR | now apply preserves_pure |]. intros t2.
  apply preserves_bind; [exact HR | apply R_setex |]. intros _.
  apply preserves_bind; [exact HR | now apply preserves_pure |]. intros c.
  apply preserves_bind; [exact HR | now apply preserves_pure |]. intros l.
  apply preserves_bind; [exact HR | apply R_setex |].
  intros _. now apply preserves_ret.
Qed.

Lemma any_revokeToken token : preserves R (revokeToken P token).
Proof.
  unfold revokeToken.
  apply preserves_try_catch; [exact HR | | intros e; now apply preserves_throw].
  apply preserves_bind; [exact HR | now apply preserves_logged |].
  intros [p|]; [|now apply preserves_ret].
  destruct (exp p) as [e|]; [|now apply preserves_ret].
  destruct (negb (e =? 0)); [|now apply preserves_ret].
  apply preserves_bind; [exact HR | now apply preserves_pure |]. intros t.
  destruct (0 <? e - t / 1000); [|now apply preserves_ret].
  apply R_setex.
Qed.

Lemma any_revokeSession sid : preserves R (revokeSession sid).
Proof.
  unfold revokeSession.
  apply preserves_try_catch; [exact HR | | intros e; now apply preserves_throw].
  apply preserves_bind; [exact HR | apply R_del |]. intros _.
  apply preserves_bind; [exact HR | apply R_del |]. intros _.
  now apply preserves_ret.
Qed.

Lemma any_revokeAllUserTokens uid : preserves R (revokeAllUserTokens P uid).
Proof.
  unfold revokeAllUserTokens.
  apply preserves_try_catch; [exact HR | | intros e; now apply preserves_throw].
  apply preserves_bind; [exact HR | now apply preserves_redis_keys |].
  intros ks. apply preserves_for_of; [exact HR|]. intros [] key.
  apply preserves_bind; [exact HR | now apply preserves_redis_get |].
  intros [text|]; [|now apply preserves_ret].
  destruct (truthy text); [|now apply preserves_ret].
  apply preserves_bind; [exact HR | now apply preserves_JSON_parse |].
  intros session. destruct (option_string_eqb _ _); [|now apply preserves_ret].
  apply any_revokeSession.
Qed.

End AnyWrite.

(** ** No key without an expiry *)

Lemma adds_expiring_stable : Stable adds_expiring.
Proof.
  split.
  - intros w k e Hl. now left.
  - intros w1 w2 w3 H1 H2 k e Hl.
    destruct (H2 k e Hl) as [Hl2|He]; [now apply H1 | now right].
  - intros w w' [Hd _] k e Hl. left. now rewrite <- Hd.
Qed.

Lemma expiring_redis_setex k s v : preserves adds_expiring (redis_setex k s v).
Proof.
  apply preserves_command; [apply adds_expiring_stable|].
  intros w r w'. destruct (0 <? s); intros H; inversion H; subst.
  - intros k' e. simpl. destruct (decide (k = k')) as [->|Hne].
    + rewrite lookup_insert_eq. intros E. inversion E; subst. right.
      simpl. eauto.
    + rewrite lookup_insert_ne by exact Hne. auto.
  - apply (stable_refl _ adds_expiring_stable).
Qed.

Lemma expiring_redis_del k : preserves adds_expiring (redis_del k).
Proof.
  apply preserves_command; [apply adds_expiring_stable|].
  intros w r w' H. inversion H; subst. intros k' e. simpl. intros Hl.
  left. apply lookup_delete_Some in Hl as [_ Hl]. exact Hl.
Qed.

Lemma all_expiring_kept w w' :
  adds_expiring w w' -> all_expiring w -> all_expiring w'.
Proof.
  intros Ha Hall k e Hl. destruct (Ha k e Hl) as [Hold|He]; [|exact He].
  now apply (Hall k e).
Qed.

Lemma only_drops_adds_expiring K w w' : only_drops K w w' -> adds_expiring w w'.
Proof.
  intros [_ H] k e Hl. left.
  destruct (H k) as [E|(E & _)]; congruence.
Qed.

(** X4. The service never stores a key without an expiry: if every key of
    the store has one, every key still has one after any of its methods,
    whatever the store's failures. *)
Theorem service_keeps_all_expiring (P : Platform) w :
  all_expiring w ->
  (forall uid mail, all_expiring (snd (generateTokenPair P uid mail w))) /\
  (forall token, all_expiring (snd (verifyToken P token w))) /\
  (forall token, all_expiring (snd (refreshAccessToken P token w))) /\
  (forall token, all_expiring (snd (revokeToken P token w))) /\
  (forall sid, all_expiring (snd (revokeSession sid w))) /\
  (forall uid, all_expiring (snd (revokeAllUserTokens P uid w))).
Proof.
  intros Hall.
  assert (Hk : forall A (m : M A),
             preserves adds_expiring m -> all_expiring (snd (m w))).
  { intros A m Hm. destruct (m w) as [r w'] eqn:E.
    exact (all_expiring_kept w w' (Hm w r w' E) Hall). }
  pose proof adds_expiring_stable as HR.
  pose proof expiring_redis_setex as Hs.
  pose proof expiring_redis_del as Hd.
  repeat split; intros; apply Hk.
  - now apply any_generateTokenPair.
  - now apply any_verifyToken.
  - now apply any_refreshAccessToken.
  - now apply any_revokeToken.
  - now apply any_revokeSession.
  - now apply any_revokeAllUserTokens.
Qed.

Lemma token_loop_finds_nothing ks : forall n w n' w',
  all_expiring w ->
  for_of ks n (sweep_step (fun t => t =? -1)) w = (Ok n', w') -> n' = n.
Proof.
  induction ks as [|k ks IH]; intros n w n' w' Hall H; simpl in H.
  - now inversion H.
  - apply bind_Ok_inv in H as (n1 & w1 & Hstep & H).
    unfold sweep_step in Hstep.
    apply bind_Ok_inv in Hstep as (t & wa & Ht & Hstep).
    apply redis_ttl_inv in Ht as [Hs ->].
    assert (Hne : (match lookup_live w k with
                   | Some e => match expireAt e with
                               | Some x => x - now_s w
                               | None => -1
                               end
                   | None => -2
                   end =? -1) = false).
    { destruct (lookup_live w k) as [e|] eqn:Hl; [|reflexivity].
      assert (Hdb : db w !! k = Some e).
      { unfold lookup_live in Hl. destruct (db w !! k) as [e'|]; [|discriminate].
        destruct (live (now_s w) e'); now inversion Hl. }
      destruct (Hall k e Hdb) as [x Hx]. rewrite Hx.
      apply token_test_positive.
      apply (live_ttl_positive e w x); [|exact Hx].
      now apply lookup_live_Some_live in Hl. }
    rewrite Hne in Hstep. inversion Hstep; subst n1 w1.
    apply (IH n wa n' w'); [|exact H].
    intros k' e Hl. apply (Hall k' e). destruct Hs as [Hd _]. now rewrite <- Hd.
Qed.

(** X5. On a store in which every key has an expiry, as the service leaves
    it, both sweeps change nothing, whatever the store's failures, and
    [cleanupExpiredTokens] reports 0. *)
Theorem sweeps_find_nothing w :
  all_expiring w ->
  fst (cleanupExpiredTokens w) = Ok (mkCleanupResult 0) /\
  db (snd (cleanupExpiredTokens w)) = db w /\
  db (snd (cleanupExpiredSessions w)) = db w.
Proof.
  intros Hall.
  assert (Hsame : forall K w', only_drops K w w' -> db w' = db w).
  { intros K w' [_ H]. apply map_eq. intros k.
    destruct (H k) as [E|(_ & _ & e & Hl & He)]; [exact E|].
    assert (Hdb : db w !! k = Some e).
    { unfold lookup_live in Hl. destruct (db w !! k) as [e'|]; [|discriminate].
      destruct (live (now_s w) e'); now inversion Hl. }
    destruct (Hall k e Hdb) as [x Hx]. congruence. }
  split; [|split].
  - rewrite cleanupExpiredTokens_unfold. unfold try_catch, bind.
    destruct (redis_keys REDIS_TOKEN_PREFIX w) as [[ks|e] w1] eqn:Hk;
      [|reflexivity].
    apply redis_keys_inv in Hk as [_ [Hd _]].
    destruct (for_of _ 0 _ w1) as [[n|e] w2] eqn:Hloop; [|reflexivity].
    apply token_loop_finds_nothing in Hloop; [now subst|].
    intros k e Hl. apply (Hall k e). now rewrite <- Hd.
  - destruct (cleanupExpiredTokens_drops w) as (n & w' & Hrun & Ho).
    rewrite Hrun. simpl. exact (Hsame _ _ Ho).
  - exact (Hsame _ _ (cleanupExpiredSessions_drops w)).
Qed.

(** ** More on revocation *)

Lemma append_inj_r p a b : p +:+ a = p +:+ b -> a = b.
Proof.
  induction p as [|c p IH]; intros H; [exact H|].
  rewrite !append_cons in H. inversion H. now apply IH.
Qed.

Section RevokeMore.

Variable P : Platform.

(** What a revocation that has something to write leaves, on a healthy
    store. *)
Lemma revokeToken_writes token w p e :
  faults w = [] ->
  jws_decode P token = Some p -> exp p = Some e -> e <> 0 ->
  0 < e - now_s w ->
  revokeToken P token w =
  (Ok tt,
   with_db (<[REDIS_BLACKLIST_PREFIX +:+ token := mkEntry "1" (Some e)]> (db w))
     (log (EvSetex (REDIS_BLACKLIST_PREFIX +:+ token) (e - now_s w) "1")
        (log (EvDecode token) w))).
Proof.
  intros Hf Hd He Hne Hpos. rewrite revokeToken_unfold. cbv zeta.
  rewrite Hd, He. destruct (Z.eqb_spec e 0) as [|_]; [contradiction|].
  cbn [negb]. destruct (0 <? e - now_s w) eqn:E; [|lia].
  rewrite redis_setex_healthy by assumption. rewrite now_s_log.
  replace (now_s w + (e - now_s w)) with e by lia. reflexivity.
Qed.

(** A revocation that has nothing to write, on any store. *)
Lemma revokeToken_skips token w :
  match jws_decode P token with
  | Some p =>
      match exp p with
      | Some e => e = 0 \/ e - now_s w <= 0
      | None => True
      end
  | None => True
  end ->
  revokeToken P token w = (Ok tt, log (EvDecode token) w).
Proof.
  intros H. rewrite revokeToken_unfold. cbv zeta.
  destruct (jws_decode P token) as [p|]; [|reflexivity].
  destruct (exp p) as [e|]; [|reflexivity].
  destruct H as [->|H]; [reflexivity|].
  destruct (0 <? e - now_s w) eqn:E; [lia|].
  now destruct (negb (e =? 0)).
Qed.

(** X6. Once [revokeToken] has blacklisted a token, [verifyToken] answers
    [null] for it in every later state of the world in which the entry is
    as it was written or the second [exp] has been reached: while the
    entry lives the token is on the blacklist, and when the entry has
    expired so has the token. *)
Theorem revoked_token_stays_rejected token w p e :
  faults w = [] ->
  jws_decode P token = Some p -> exp p = Some e -> e <> 0 ->
  0 < e - now_s w ->
  forall w2,
    db w2 !! (REDIS_BLACKLIST_PREFIX +:+ token) =
    db (snd (revokeToken P token w)) !! (REDIS_BLACKLIST_PREFIX +:+ token) \/
    e <= now_s w2 ->
    fst (verifyToken P token w2) = Ok None.
Proof.
  intros Hf Hd He Hne Hpos w2 H2.
  rewrite (revokeToken_writes token w p e Hf Hd He Hne Hpos) in H2.
  simpl in H2. rewrite lookup_insert_eq in H2.
  rewrite verifyToken_fst. f_equal. unfold verdict.
  assert (Hexp : e <= now_s w2 ->
                 match jwt_check P token (JWT_SECRET P) ISSUER AUDIENCE (now_s w2)
                 with Ok payload => Some payload | Throw _ => None end = None).
  { intros Hle. unfold jwt_check. rewrite Hd, He.
    destruct (negb (jws_check P token (JWT_SECRET P))); [reflexivity|].
    destruct (e <=? now_s w2) eqn:E; [reflexivity | lia]. }
  assert (Hv : (if blacklisted w2 token then None
                else match jwt_check P token (JWT_SECRET P) ISSUER AUDIENCE
                             (now_s w2)
                     with Ok payload => Some payload | Throw _ => None end)
               = None).
  { destruct (blacklisted w2 token) eqn:Hb; [reflexivity|].
    apply Hexp. destruct H2 as [H2|H2]; [|exact H2].
    unfold blacklisted, lookup_live in Hb. rewrite H2 in Hb.
    unfold live in Hb. simpl in Hb.
    destruct (now_s w2 <? e) eqn:E; [discriminate | lia]. }
  destruct (faults w2) as [|[] fs]; [exact Hv | reflexivity | exact Hv].
Qed.

(** X7. Revoking a token again, at the same time or later, leaves the
    store as the first revocation left it: the entry is written back with
    the same expiry, or not at all. *)
Theorem revokeToken_idempotent token w dt :
  faults w = [] -> 0 <= dt ->
  db (snd (revokeToken P token (advance dt (snd (revokeToken P token w))))) =
  db (snd (revokeToken P token w)).
Proof.
  intros Hf Hdt.
  destruct (jws_decode P token) as [p|] eqn:Hd.
  2:{ rewrite !revokeToken_skips by now rewrite Hd. reflexivity. }
  destruct (exp p) as [e|] eqn:He.
  2:{ rewrite !revokeToken_skips by now rewrite Hd, He. reflexivity. }
  destruct (Z.eq_dec e 0) as [->|Hne].
  { rewrite !revokeToken_skips by (rewrite Hd, He; now left). reflexivity. }
  destruct (Z_lt_le_dec 0 (e - now_s w)) as [Hpos|Hle].
  - rewrite (revokeToken_writes token w p e Hf Hd He Hne Hpos).
    cbn [snd].
    match goal with
    | |- context [advance dt ?x] => set (w1 := x)
    end.
    destruct (Z_lt_le_dec 0 (e - now_s (advance dt w1))) as [Hpos2|Hle2].
    + rewrite (revokeToken_writes token (advance dt w1) p e); try assumption.
      simpl. apply insert_insert_eq.
    + rewrite revokeToken_skips by (rewrite Hd, He; now right). reflexivity.
  - rewrite (revokeToken_skips token w) by (rewrite Hd, He; now right).
    cbn [snd]. rewrite revokeToken_skips; [reflexivity|].
    rewrite Hd, He. right.
    pose proof (now_s_advance dt (log (EvDecode token) w) Hdt) as Hmono.
    rewrite now_s_log in Hmono. lia.
Qed.

(** X8. On a healthy store revoking one token changes the answer of
    [verifyToken] for no other token, and changes no key but the blacklist
    entry of the revoked token: each token has its own entry. *)
Theorem revokeToken_leaves_other_tokens token w :
  faults w = [] ->
  (forall k,
     k <> REDIS_BLACKLIST_PREFIX +:+ token ->
     db (snd (revokeToken P token w)) !! k = db w !! k) /\
  (forall token2,
     token2 <> token ->
     verdict P token2 (snd (revokeToken P token w)) = verdict P token2 w).
Proof.
  intros Hf.
  assert (Hrun : exists d,
             snd (revokeToken P token w) =
             with_db d (snd (revokeToken P token w)) /\
             faults (snd (revokeToken P token w)) = [] /\
             clock (snd (revokeToken P token w)) = clock w /\
             forall k, k <> REDIS_BLACKLIST_PREFIX +:+ token ->
                       db (snd (revokeToken P token w)) !! k = db w !! k).
  { rewrite revokeToken_unfold. cbv zeta.
    assert (Hskip : exists d,
               log (EvDecode token) w = with_db d (log (EvDecode token) w) /\
               faults (log (EvDecode token) w) = [] /\
               clock (log (EvDecode token) w) = clock w /\
               forall k, k <> REDIS_BLACKLIST_PREFIX +:+ token ->
                         db (log (EvDecode token) w) !! k = db w !! k).
    { exists (db w). repeat split; auto. }
    destruct (jws_decode P token) as [p|]; [|exact Hskip].
    destruct (exp p) as [e|]; [|exact Hskip].
    destruct (negb (e =? 0)); [|exact Hskip].
    destruct (0 <? e - now_s w) eqn:E; [|exact Hskip].
    rewrite redis_setex_healthy by (assumption || lia).
    eexists. simpl. repeat split; auto.
    intros k Hk. now rewrite lookup_insert_ne. }
  destruct Hrun as (d & _ & Hf' & Hc & Hframe).
  split; [exact Hframe|].
  intros token2 Hne. unfold verdict. rewrite Hf', Hf.
  assert (Hb : blacklisted (snd (revokeToken P token w)) token2 =
               blacklisted w token2).
  { unfold blacklisted, lookup_live, now_s. rewrite Hc, Hframe; [reflexivity|].
    intros E. apply append_inj_r in E. contradiction. }
  rewrite Hb. unfold now_s. now rewrite Hc.
Qed.

End RevokeMore.

(** ** What verification never does *)

Lemma no_new_keys_stable : Stable no_new_keys.
Proof.
  split.
  - intros w k Hk. exact Hk.
  - intros w1 w2 w3 H1 H2 k Hk. apply H2, H1, Hk.
  - intros w w' [Hd _] k Hk. now rewrite Hd.
Qed.

Lemma redis_setex_Throw_inv k s v w e w' :
  redis_setex k s v w = (Throw e, w') -> e = RedisError /\ same_store w w'.
Proof.
  intros H. apply command_inv in H as [[E Hs]|(w1 & Hs & H)].
  - inversion E. auto.
  - destruct (0 <? s); inversion H; subst. auto.
Qed.

Section NeverCreates.

Variable P : Platform.

(** The touch writes a row only over a row it has read. *)
Lemma touch_no_new_keys sid : preserves no_new_keys (updateSessionLastUsed P sid).
Proof.
  intros w r w' Hrun k Hk.
  pose proof (frame_updateSessionLastUsed P
                (fun k' => k' = REDIS_TOKEN_PREFIX +:+ sid) sid eq_refl
                w r w' Hrun) as [_ Hfr].
  destruct (decide (k = REDIS_TOKEN_PREFIX +:+ sid)) as [->|Hne];
    [|now rewrite (Hfr k Hne)].
  revert Hrun. unfold updateSessionLastUsed, try_catch, bind.
  destruct (redis_get _ w) as [[o|e] w1] eqn:Hg.
  - apply redis_get_inv in Hg as [-> [Hd _]].
    unfold lookup_live. rewrite Hk. simpl. intros H. inversion H; subst.
    now rewrite Hd.
  - intros H. inversion H; subst.
    pose proof (redis_get_same _ _ _ _ Hg) as [Hd _]. now rewrite Hd.
Qed.

Lemma verifyToken_no_new_keys token :
  preserves no_new_keys (verifyToken P token).
Proof.
  pose proof no_new_keys_stable as HR. unfold verifyToken.
  apply preserves_try_catch; [exact HR | | intros _; now apply preserves_ret].
  apply preserves_bind; [exact HR | now apply preserves_redis_exists |].
  intros n. destruct (negb (n =? 0)); [now apply preserves_ret|].
  apply preserves_bind; [exact HR | now apply preserves_logged |].
  intros payload.
  apply preserves_bind; [exact HR | | intros _; now apply preserves_ret].
  destruct (truthy (sessionId payload)); [|now apply preserves_ret].
  apply touch_no_new_keys.
Qed.

Lemma refreshAccessToken_no_new_keys token :
  preserves no_new_keys (refreshAccessToken P token).
Proof.
  pose proof no_new_keys_stable as HR. unfold refreshAccessToken.
  apply preserves_try_catch; [exact HR | | intros _; now apply preserves_ret].
  apply preserves_bind; [exact HR | apply verifyToken_no_new_keys |].
  intros [payload|]; [|now apply preserves_ret].
  destruct (negb _); [now apply preserves_ret|].
  apply preserves_bind; [exact HR | now apply preserves_redis_get |].
  intros [stored|]; [|now apply preserves_ret].
  destruct (_ || _); [now apply preserves_ret|].
  apply preserves_bind; [exact HR | now apply preserves_jwt_sign |].
  intros tok.
  apply preserves_bind; [exact HR | now apply preserves_pure |]. intros t.
  apply preserves_bind; [exact HR | | intros _; now apply preserves_ret].
  apply touch_no_new_keys.
Qed.

(** X9. [verifyToken] and [refreshAccessToken] never create a key,
    whatever the store's failures: a session row that was revoked or
    evicted is not brought back by a later use of a token of that
    session. *)
Theorem verification_never_creates_a_key token w k :
  db w !! k = None ->
  db (snd (verifyToken P token w)) !! k = None /\
  db (snd (refreshAccessToken P token w)) !! k = None.
Proof.
  intros Hk. split.
  - destruct (verifyToken P token w) as [r w'] eqn:E.
    exact (verifyToken_no_new_keys token w r w' E k Hk).
  - destruct (refreshAccessToken P token w) as [r w'] eqn:E.
    exact (refreshAccessToken_no_new_keys token w r w' E k Hk).
Qed.

(** X10. When [generateTokenPair] throws, the error is that of the
    signing or of the store, the session row has not been written, and the
    store is as it was or holds, at most, the refresh record of a pair
    that was never returned. *)
Theorem generateTokenPair_failure uid mail w e w' :
  generateTokenPair P uid mail w = (Throw e, w') ->
  let sid := uuid_of P (uuids w) in
  (e = SignError \/ e = RedisError) /\
  db w' !! (REDIS_TOKEN_PREFIX +:+ sid) = db w !! (REDIS_TOKEN_PREFIX +:+ sid) /\
  (db w' = db w \/
   exists tr,
     issued P
       (signed_claims uid mail sid refresh (now_s w) REFRESH_TOKEN_EXPIRY) tr /\
     db w' =
     <[REDIS_REFRESH_PREFIX +:+ sid :=
         mkEntry tr (Some (now_s w + 7 * 24 * 60 * 60))]> (db w)).
Proof.
  unfold generateTokenPair. cbv zeta. unfold bind at 1, uuidv4.
  set (wu := with_uuids _ w). set (sid := uuid_of P (uuids w)).
  unfold bind at 1.
  destruct (jwt_sign P _ _ ACCESS_TOKEN_EXPIRY _ _ wu) as [[ta|ea] wa] eqn:Ha.
  2:{ intros H. inversion H; subst. unfold jwt_sign in Ha.
      destruct (jws_encode P _ _); inversion Ha; subst. auto. }
  apply jwt_sign_Ok_inv in Ha as (_ & Hsa & _).
  unfold bind at 1.
  destruct (jwt_sign P _ _ REFRESH_TOKEN_EXPIRY _ _ wa) as [[tr|er] wb] eqn:Hr.
  2:{ intros H. inversion H; subst. unfold jwt_sign in Hr.
      destruct (jws_encode P _ _); inversion Hr; subst.
      destruct Hsa as [Hda _]. simpl. rewrite Hda. auto. }
  apply jwt_sign_Ok_inv in Hr as (Hr & Hsb & _).
  assert (Hs : same_store w wb).
  { eapply same_store_trans; [|exact Hsb].
    eapply same_store_trans; [|exact Hsa]. split; reflexivity. }
  unfold bind at 1, Date_now at 1. unfold bind at 1, Date_now at 1.
  unfold bind at 1.
  destruct (redis_setex _ _ tr wb) as [[[]|e1] wc] eqn:Hs1.
  2:{ intros H. inversion H; subst.
      apply redis_setex_Throw_inv in Hs1 as [-> [Hd _]].
      destruct Hs as [Hdb _]. rewrite Hd, Hdb. auto. }
  apply redis_setex_Ok_inv in Hs1 as (Hd1 & Hc1 & _).
  unfold bind at 1, new_Date_toISOString at 1.
  unfold bind at 1, new_Date_toISOString at 1.
  unfold bind at 1.
  destruct (redis_setex _ _ _ wc) as [[[]|e2] wd] eqn:Hs2;
    [discriminate|].
  intros H. inversion H; subst.
  apply redis_setex_Throw_inv in Hs2 as [-> [Hd2 _]].
  destruct Hs as [Hdb Hcb].
  assert (Hn : now_s wb = now_s w) by (unfold now_s; now rewrite Hcb).
  assert (Hna : now_s wa = now_s w).
  { unfold now_s. destruct Hsa as [_ ->]. reflexivity. }
  split; [now right|]. rewrite Hd2, Hd1, Hdb, Hn. split.
  - apply lookup_insert_ne. apply refresh_key_not_token.
  - right. exists tr. split; [|reflexivity].
    unfold issued, signed_claims. rewrite Hna in Hr. simpl in Hr. auto.
Qed.

End NeverCreates.

(** ** The token cleanup job *)

Lemma cleanupExpiredTokens_store_down w fs :
  faults w = true :: fs ->
  fst (cleanupExpiredTokens w) = Ok (mkCleanupResult 0).
Proof.
  intros Hf. rewrite cleanupExpiredTokens_unfold.
  unfold try_catch, bind, redis_keys, command. simpl. now rewrite Hf.
Qed.

(** X11. [tokenCleanupJob.execute] reports success in every world: since
    [cleanupExpiredTokens] keeps its errors to itself, the job's failure
    branch is never taken, and with the store down the job still reports
    success, with a count of 0. *)
Theorem tokenCleanupJob_always_reports_success
    (P : Platform) (Error_message : Error -> string) w :
  exists n st,
    fst (cleanupExpiredTokens w) = Ok (mkCleanupResult n) /\
    fst (tokenCleanupJob_execute P Error_message w) = Ok st /\
    success st = true /\
    error st = None /\
    metadata_deletedCount st = Some n /\
    message st =
    "Cleaned up " +:+ Number_toString n +:+ " expired tokens" /\
    (forall fs, faults w = true :: fs ->
                message st = "Cleaned up 0 expired tokens").
Proof.
  destruct (cleanupExpiredTokens_drops w) as (n & w' & Hrun & _).
  exists n. unfold tokenCleanupJob_execute, bind, try_catch, Date_now.
  rewrite Hrun. unfold new_Date_toISOString, ret. eexists. simpl.
  repeat split.
  intros fs Hf. pose proof (cleanupExpiredTokens_store_down w fs Hf) as H0.
  rewrite Hrun in H0. simpl in H0. inversion H0. reflexivity.
Qed.

(** ** The bearer header *)

Lemma extractTokenFromHeader_Some_inv h t :
  extractTokenFromHeader h = Some t -> h = Some ("Bearer " +:+ t).
Proof.
  unfold extractTokenFromHeader.
  destruct h as [h0|]; [|discriminate].
  destruct (truthy h0); [|discriminate]. cbn [negb orb].
  destruct (String.prefix "Bearer " h0) eqn:Hp; [|discriminate].
  cbn [negb]. intros H. inversion H; subst.
  f_equal. exact (prefix_split "Bearer " h0 Hp).
Qed.

Lemma extractTokenFromHeader_framed t :
  extractTokenFromHeader (Some ("Bearer " +:+ t)) = Some t.
Proof.
  unfold extractTokenFromHeader. rewrite prefix_app. reflexivity.
Qed.

(** X12. [extractTokenFromHeader] returns a token exactly for a header
    that is ["Bearer "] followed by that token: it undoes the framing, and
    a missing header, an empty one and any other scheme give [null]. *)
Theorem extractTokenFromHeader_bearer h t :
  extractTokenFromHeader h = Some t <-> h = Some ("Bearer " +:+ t).
Proof.
  split; [apply extractTokenFromHeader_Some_inv|].
  intros ->. apply extractTokenFromHeader_framed.
Qed.

(** ** The authentication middleware *)

Section Middleware.

Variable P : Platform.
Variable findUnique : string -> M (option User).

(** The middleware after a token was found in the header, step by step. *)
Lemma authMiddleware_steps t next w :
  truthy t = true ->
  exists w1,
    verifyToken P t w = (Ok (verdict P t w), w1) /\
    authMiddleware P findUnique (Some ("Bearer " +:+ t)) next w =
    match verdict P t w with
    | None => (Raised (HTTPException 401 "Invalid access token"), w1)
    | Some p =>
        match tokenType p with
        | refresh => (Raised (HTTPException 401 "Invalid access token"), w1)
        | access =>
            match findUnique (userId p) w1 with
            | (Throw _, w2) =>
                (Raised (HTTPException 401 "Invalid or expired token"), w2)
            | (Ok None, w2) =>
                (Raised (HTTPException 401 "User not found"), w2)
            | (Ok (Some u), w2) =>
                match next (mkAuthContext u (sessionId p) p) w2 with
                | (Done a, w3) => (Done a, w3)
                | (Raised (HTTPException s m), w3) =>
                    (Raised (HTTPException s m), w3)
                | (Raised _, w3) =>
                    (Raised (HTTPException 401 "Invalid or expired token"), w3)
                end
            end
        end
    end.
Proof.
  intros Ht. destruct (verifyToken_run P t w) as [w1 Hv]. exists w1.
  split; [exact Hv|].
  unfold authMiddleware.
  rewrite extractTokenFromHeader_framed.
  cbn [truthy_opt]. rewrite Ht. cbn [negb].
  change (default EmptyString (Some t)) with t.
  unfold htry, hbind, lift. rewrite Hv.
  destruct (verdict P t w) as [p|]; [|reflexivity].
  destruct (tokenType p); [|reflexivity]. cbn [TokenType_eqb negb].
  destruct (findUnique (userId p) w1) as [[[u|]|e] w2]; try reflexivity.
  destruct (next _ w2) as [[a|[s m|m|e]] w3]; reflexivity.
Qed.

Lemma authMiddleware_no_token h next w :
  (forall t, truthy t = true -> h <> Some ("Bearer " +:+ t)) ->
  authMiddleware P findUnique h next w =
  (Raised (HTTPException 401 "No token provided"), w).
Proof.
  intros Hn. unfold authMiddleware.
  destruct (extractTokenFromHeader h) as [t|] eqn:E; [|reflexivity].
  cbn [truthy_opt]. destruct (truthy t) eqn:Ht; [|reflexivity].
  apply extractTokenFromHeader_Some_inv in E. now elim (Hn t Ht).
Qed.

Lemma header_cases (h : option string) :
  (exists t, truthy t = true /\ h = Some ("Bearer " +:+ t)) \/
  (forall t, truthy t = true -> h <> Some ("Bearer " +:+ t)).
Proof.
  destruct (extractTokenFromHeader h) as [t|] eqn:E.
  - apply extractTokenFromHeader_Some_inv in E. subst h.
    destruct (truthy t) eqn:Ht; [left; now exists t|].
    right. intros t' Ht' Heq. inversion Heq as [H0].
    apply append_inj_r in H0. congruence.
  - right. intros t _ ->.
    rewrite extractTokenFromHeader_framed in E. discriminate.
Qed.

(** X13. What [authMiddleware] lets through: the rest of the chain runs to
    its end only for a header ["Bearer " + token] with a non-empty token
    that [verifyToken] accepts as an access token of a user the database
    has, and the chain is run with that user, session and payload; and
    whatever goes wrong, in the middleware or in the chain, what leaves is
    an [HTTPException]. *)
Theorem authMiddleware_lets_through h next w :
  (forall a, fst (authMiddleware P findUnique h next w) = Done a ->
     exists t p u w1 w2,
       h = Some ("Bearer " +:+ t) /\ t <> EmptyString /\
       verifyToken P t w = (Ok (Some p), w1) /\
       tokenType p = access /\
       findUnique (userId p) w1 = (Ok (Some u), w2) /\
       authMiddleware P findUnique h next w =
       next (mkAuthContext u (sessionId p) p) w2) /\
  (forall e, fst (authMiddleware P findUnique h next w) = Raised e ->
     exists s m, e = HTTPException s m).
Proof.
  destruct (header_cases h) as [(t & Ht & ->)|Hn].
  - destruct (authMiddleware_steps t next w Ht) as (w1 & Hv & ->).
    assert (Hne : t <> EmptyString) by (intros ->; discriminate).
    destruct (verdict P t w) as [p|];
      [|split; [discriminate | intros e He; inversion He; eauto]].
    destruct (tokenType p) eqn:Hty;
      [|split; [discriminate | intros e He; inversion He; eauto]].
    destruct (findUnique (userId p) w1) as [[[u|]|e0] w2] eqn:Hu;
      try (split; [discriminate | intros e He; inversion He; eauto]).
    destruct (next _ w2) as [[a|[s m|m|e0]] w3] eqn:Hnx;
      (split; [|intros e He; inversion He; eauto]); try discriminate.
    intros a' _. exists t, p, u, w1, w2. repeat split; auto.
  - rewrite (authMiddleware_no_token h next w Hn).
    split; [discriminate | intros e He; inversion He; eauto].
Qed.

(** X14. The answers of [authMiddleware] before the chain runs: without a
    usable bearer token it answers 401 [No token provided] and leaves the
    world untouched, not even asking the store; a token [verifyToken]
    turns down gets 401 [Invalid access token]; so does a valid refresh
    token; a lost user gets 401 [User not found]; and an error of the
    database is reported as 401 [Invalid or expired token]. *)
Theorem authMiddleware_rejections h next w :
  ((forall t, truthy t = true -> h <> Some ("Bearer " +:+ t)) ->
   authMiddleware P findUnique h next w =
   (Raised (HTTPException 401 "No token provided"), w)) /\
  (forall t, truthy t = true -> h = Some ("Bearer " +:+ t) ->
     (fst (verifyToken P t w) = Ok None ->
      fst (authMiddleware P findUnique h next w) =
      Raised (HTTPException 401 "Invalid access token")) /\
     (forall p w1, verifyToken P t w = (Ok (Some p), w1) ->
        (tokenType p = refresh ->
         fst (authMiddleware P findUnique h next w) =
         Raised (HTTPException 401 "Invalid access token")) /\
        (tokenType p = access ->
         fst (findUnique (userId p) w1) = Ok None ->
         fst (authMiddleware P findUnique h next w) =
         Raised (HTTPException 401 "User not found")) /\
        (tokenType p = access ->
         forall e, fst (findUnique (userId p) w1) = Throw e ->
         fst (authMiddleware P findUnique h next w) =
         Raised (HTTPException 401 "Invalid or expired token")))).
Proof.
  split; [apply authMiddleware_no_token|].
  intros t Ht ->.
  destruct (authMiddleware_steps t next w Ht) as (w1 & Hv & ->).
  rewrite Hv. cbn [fst]. split.
  - intros H. inversion H as [H1]. now rewrite H1.
  - intros p w1' H. inversion H as [[H1 H2]]. subst w1'. rewrite H1.
    repeat split.
    + now intros ->.
    + intros -> Hu.
      destruct (findUnique (userId p) w1) as [r w2]. cbn [fst] in Hu.
      now subst r.
    + intros -> e Hu.
      destruct (findUnique (userId p) w1) as [r w2]. cbn [fst] in Hu.
      now subst r.
Qed.

Hypothesis HL : Lawful P.

(** X15. A refresh token the service issued never authenticates a request:
    whatever the world, the database and the rest of the chain, the
    middleware answers 401 to it and the chain does not run to its end. *)
Theorem refresh_token_never_authenticates claims tok next w :
  issued P claims tok -> tokenType claims = refresh ->
  exists m,
    fst (authMiddleware P findUnique (Some ("Bearer " +:+ tok)) next w) =
    Raised (HTTPException 401 m).
Proof.
  intros Hi Hty.
  destruct (truthy tok) eqn:Ht.
  - destruct (authMiddleware_steps tok next w Ht) as (w1 & Hv & ->).
    destruct (verdict P tok w) as [p|] eqn:Hvd; [|eauto].
    apply verdict_Some_inv in Hvd as (_ & _ & Hc).
    rewrite (jwt_check_issued P HL claims tok _ Hi) in Hc.
    destruct (match exp claims with Some _ => _ | None => _ end);
      [discriminate|].
    inversion Hc; subst p. rewrite Hty. eauto.
  - rewrite authMiddleware_no_token; [eauto|].
    intros t Ht' Heq. inversion Heq as [H0].
    apply append_inj_r in H0. congruence.
Qed.

End Middleware.

(** ** The service methods and the controllers over the tokens *)

Lemma try_catch_ret_run {A} (m : M A) (a : A) w :
  exists r w', try_catch m (fun _ => ret a) w = (Ok r, w').
Proof.
  unfold try_catch, ret. destruct (m w) as [[r|e] w']; eauto.
Qed.

Section Controllers.

Variable P : Platform.
Variable Error_message : Error -> string.

Lemma refreshAccessToken_run token w :
  exists r w', refreshAccessToken P token w = (Ok r, w').
Proof. apply try_catch_ret_run. Qed.

Lemma AuthService_refreshToken_run token w :
  exists r w',
    refreshAccessToken P token w = (Ok r, w') /\
    AuthService_refreshToken P token w =
    (match r with
     | Some grant => Done grant
     | None => Raised (PlainError "Invalid or expired refresh token")
     end, w').
Proof.
  destruct (refreshAccessToken_run token w) as (r & w' & Hr).
  exists r, w'. split; [exact Hr|].
  unfold AuthService_refreshToken, hbind, lift. rewrite Hr.
  now destruct r.
Qed.

(** X16. The answers of [authController.refreshToken]: a request without a
    refresh token (absent or empty) is answered 500 [Failed to refresh
    token], because the 400 the handler throws for it is caught by the
    handler's own [catch]; with a token the answer is 200 with the grant
    when [refreshAccessToken] gives one and 401 [Invalid or expired refresh
    token] when it gives [null]; and nothing but a 401 or that 500 ever
    leaves the handler, whatever the request body was. *)
Theorem authController_refreshToken_answers body w :
  (forall tok, body = Done tok -> truthy_opt tok = false ->
     authController_refreshToken P Error_message body w =
     (Raised (HTTPException 500 "Failed to refresh token"), w)) /\
  (forall t, body = Done (Some t) -> truthy t = true ->
     exists r,
       fst (refreshAccessToken P t w) = Ok r /\
       fst (authController_refreshToken P Error_message body w) =
       match r with
       | Some grant => Done (mkResponse 200 true grant)
       | None =>
           Raised (HTTPException 401 "Invalid or expired refresh token")
       end) /\
  (forall e,
     fst (authController_refreshToken P Error_message body w) = Raised e ->
     (exists m, e = HTTPException 401 m) \/
     e = HTTPException 500 "Failed to refresh token").
Proof.
  assert (Hcatch : forall (e0 : JsError) (w0 : World) e,
    fst ((if String_includes (JsError_message Error_message e0)
               "Invalid or expired"
          then @hthrow (Response AccessGrant)
                 (HTTPException 401 (JsError_message Error_message e0))
          else hthrow (HTTPException 500 "Failed to refresh token")) w0)
    = Raised e ->
    (exists m, e = HTTPException 401 m) \/
    e = HTTPException 500 "Failed to refresh token").
  { intros e0 w0 e. destruct (String_includes _ _); cbn; intros H;
      inversion H; eauto. }
  split; [|split].
  - intros tok -> Ht.
    unfold authController_refreshToken, htry, hbind. rewrite Ht. reflexivity.
  - intros t -> Ht.
    destruct (AuthService_refreshToken_run t w) as (r & w' & Hr & Hs).
    exists r. rewrite Hr. split; [reflexivity|].
    unfold authController_refreshToken, htry, hbind.
    cbn [truthy_opt]. rewrite Ht. cbn [negb].
    change (default EmptyString (Some t)) with t. rewrite Hs.
    now destruct r.
  - intros e. unfold authController_refreshToken, htry, hbind.
    destruct body as [tok|e0]; [|apply Hcatch].
    destruct (truthy_opt tok) eqn:Ht; cbn [negb];
      [|unfold hthrow at 1; apply Hcatch].
    destruct tok as [t|]; [|discriminate].
    change (default EmptyString (Some t)) with t.
    destruct (AuthService_refreshToken_run t w) as (r & w' & _ & ->).
    destruct r as [g|]; [discriminate | apply Hcatch].
Qed.

(** The service method behind logout, case by case. *)
Lemma AuthService_logout_session sid token w :
  truthy sid = true ->
  snd (AuthService_logout P (Some sid) token w) = snd (revokeSession sid w).
Proof.
  intros Ht. unfold AuthService_logout, hbind, lift.
  cbn [truthy_opt]. rewrite Ht.
  change (default EmptyString (Some sid)) with sid.
  now destruct (revokeSession sid w) as [[[]|e] w'].
Qed.

Hypothesis HL : Lawful P.

(** X17. Logging out of a session leaves the access token of that session
    usable: with a session id, [AuthService.logout] only removes the two
    rows of the session and never looks at the token it was given, so no
    entry of the revocation list changes, and an issued token that was
    not revoked before is accepted by [verifyToken] after the logout until
    its [exp], as it was before. *)
Theorem logout_keeps_access_token_valid sid token claims tok e w :
  truthy sid = true ->
  issued P claims tok -> exp claims = Some e ->
  blacklisted w tok = false ->
  let w' := snd (AuthService_logout P (Some sid) token w) in
  (forall t, db w' !! (REDIS_BLACKLIST_PREFIX +:+ t) =
             db w !! (REDIS_BLACKLIST_PREFIX +:+ t)) /\
  (forall dt, 0 <= dt -> hd false (faults (advance dt w')) = false ->
     fst (verifyToken P tok (advance dt w')) =
     Ok (if e <=? now_s (advance dt w') then None else Some claims)).
Proof.
  intros Ht Hi He Hb w'. subst w'.
  rewrite (AuthService_logout_session sid token w Ht).
  destruct (revokeSession sid w) as [r w'] eqn:Hr. cbn [snd].
  destruct (frame_revokeSession sid w r w' Hr) as [Hc Hfr].
  assert (Hbl : forall t, db w' !! (REDIS_BLACKLIST_PREFIX +:+ t) =
                          db w !! (REDIS_BLACKLIST_PREFIX +:+ t)).
  { intros t. apply Hfr. intros [H0|H0]; discriminate H0. }
  split; [exact Hbl|].
  intros dt Hdt Hf.
  apply (verifyToken_issued P HL claims tok e _ Hi He Hf).
  apply (blacklisted_later w); [apply Hbl|  | exact Hb].
  unfold now_s, advance. cbn [clock]. rewrite Hc.
  apply Z.div_le_mono; lia.
Qed.

End Controllers.

(** ** The handlers of logout and of the sessions *)

Lemma getUserSessions_store_down P uid w fs :
  faults w = true :: fs -> fst (getUserSessions P uid w) = Ok [].
Proof.
  intros Hf. rewrite getUserSessions_unfold.
  unfold try_catch, bind, redis_keys, command. simpl. now rewrite Hf.
Qed.

(** After a [revokeAllUserTokens] that returned, the listing of that user
    is empty from then on. *)
Lemma revokeAllUserTokens_then_empty P uid w w' w2 :
  revokeAllUserTokens P uid w = (Ok tt, w') ->
  (forall k e,
     String.prefix REDIS_TOKEN_PREFIX k = true ->
     db w2 !! k = Some e -> db w' !! k = Some e) ->
  now_s w' <= now_s w2 ->
  fst (getUserSessions P uid w2) = Ok [].
Proof.
  intros Hrev Hd2 Ht2.
  rewrite revokeAllUserTokens_unfold in Hrev.
  apply try_rethrow_Ok_inv, bind_Ok_inv in Hrev as (ks & w1 & Hk & Hloop).
  apply redis_keys_inv in Hk as [-> [Hd1 Hc1]].
  pose proof (revoke_loop_inv P uid _ w1 w' (keys_all_prefixed _ w) Hloop)
    as (Hc & Hd & Hnone).
  destruct (getUserSessions_cases P uid w2) as (l2 & w3 & Hrun2 & Hl2).
  rewrite Hrun2. simpl. f_equal.
  destruct Hl2 as [->| ->]; [reflexivity|].
  apply omap_all_None. intros k Hk.
  apply elem_of_keys_with_prefix in Hk as [Hp [e He]].
  pose proof (lookup_live_kept w' w2 k e (fun e' => Hd2 k e' Hp) Ht2 He)
    as He'.
  assert (Hin : k ∈ keys_with_prefix REDIS_TOKEN_PREFIX w).
  { apply elem_of_keys_with_prefix. split; [exact Hp|]. exists e.
    apply (lookup_live_weaken w w' k e);
      [congruence | now rewrite <- Hd1 | exact He']. }
  specialize (Hnone k Hin). unfold session_of in Hnone |- *.
  rewrite He' in Hnone. now rewrite He.
Qed.

Section SessionHandlerFacts.

Variable P : Platform.

(** X18. The answers of [authController.logout]: the only error that
    leaves it is 500 [Failed to logout]; without a session id it revokes
    the token of the header, ["Bearer "] taken off, and answers 200 exactly
    when [revokeToken] returned; and without a session id and without a
    token in the header it answers 200 and has done nothing. *)
Theorem authController_logout_answers sid h w :
  (forall e, fst (authController_logout P sid h w) = Raised e ->
     e = HTTPException 500 "Failed to logout") /\
  (forall t, truthy_opt sid = false -> truthy t = true ->
     h = Some ("Bearer " +:+ t) ->
     snd (authController_logout P sid h w) = snd (revokeToken P t w) /\
     fst (authController_logout P sid h w) =
     match fst (revokeToken P t w) with
     | Ok _ => Done (mkResponse 200 true "Logged out successfully"%string)
     | Throw _ => Raised (HTTPException 500 "Failed to logout")
     end) /\
  (truthy_opt sid = false -> h = None \/ h = Some "Bearer "%string ->
   authController_logout P sid h w =
   (Done (mkResponse 200 true "Logged out successfully"%string), w)).
Proof.
  unfold authController_logout, htry.
  split; [|split].
  - intros e. destruct (hbind _ _ w) as [[a|e0] w0]; [discriminate|].
    cbn. intros H. now inversion H.
  - intros t Hs Ht ->. rewrite (String_replace_prefix "Bearer " t).
    unfold AuthService_logout, hbind, lift. rewrite Hs.
    cbn [truthy_opt]. rewrite Ht.
    change (default EmptyString (Some t)) with t.
    now destruct (revokeToken P t w) as [[[]|e] w'].
  - intros Hs Hh. unfold AuthService_logout, hbind. rewrite Hs.
    now destruct Hh as [->| ->].
Qed.

(** X19. [authController.getSessions] answers 200 in every world, with
    what [getUserSessions] lists: the handler's 500 cannot happen, since
    the service keeps its errors to itself, and with the store down the
    answer is 200 with an empty list. *)
Theorem authController_getSessions_always_answers user w :
  exists l,
    fst (getUserSessions P (user_id user) w) = Ok l /\
    fst (authController_getSessions P user w) =
    Done (mkResponse 200 true l) /\
    (forall fs, faults w = true :: fs -> l = []).
Proof.
  destruct (getUserSessions_cases P (user_id user) w) as (l & w' & Hrun & _).
  exists l. rewrite Hrun. split; [reflexivity|]. split.
  - unfold authController_getSessions, AuthService_getUserSessions, htry,
      hbind, lift. now rewrite Hrun.
  - intros fs Hf.
    pose proof (getUserSessions_store_down P (user_id user) w fs Hf) as H0.
    rewrite Hrun in H0. now inversion H0.
Qed.

(** X20. The answers of [authController.revokeSession]: without a session
    id the answer is 500 [Failed to revoke session], the 400 of the
    handler being caught by its own [catch], and the store is not asked;
    with one, the handler does what [revokeSession] does and answers 200
    exactly when that returned, which on a healthy store it does whether
    or not the session exists; and no error but that 500 leaves it. *)
Theorem authController_revokeSession_answers sid w :
  (truthy_opt sid = false ->
   authController_revokeSession sid w =
   (Raised (HTTPException 500 "Failed to revoke session"), w)) /\
  (forall s, sid = Some s -> truthy s = true ->
     snd (authController_revokeSession sid w) = snd (revokeSession s w) /\
     fst (authController_revokeSession sid w) =
     match fst (revokeSession s w) with
     | Ok _ =>
         Done (mkResponse 200 true "Session revoked successfully"%string)
     | Throw _ => Raised (HTTPException 500 "Failed to revoke session")
     end /\
     (faults w = [] ->
      fst (authController_revokeSession sid w) =
      Done (mkResponse 200 true "Session revoked successfully"%string))) /\
  (forall e, fst (authController_revokeSession sid w) = Raised e ->
     e = HTTPException 500 "Failed to revoke session").
Proof.
  unfold authController_revokeSession, htry.
  split; [|split].
  - intros Hs. now rewrite Hs.
  - intros s -> Hs. cbn [truthy_opt]. rewrite Hs. cbn [negb].
    change (default EmptyString (Some s)) with s.
    unfold AuthService_revokeSession, hbind, lift.
    split; [|split].
    + now destruct (revokeSession s w) as [[[]|e] w'].
    + now destruct (revokeSession s w) as [[[]|e] w'].
    + intros Hf. now rewrite (revokeSession_healthy s w Hf).
  - intros e. destruct (truthy_opt sid); cbn [negb].
    + destruct (hbind _ _ w) as [[a|e0] w0]; [discriminate|].
      cbn. intros H. now inversion H.
    + cbn. intros H. now inversion H.
Qed.

(** X21. After [authController.logoutAll] answered, which it does with
    200, [authController.getSessions] answers that user with an empty
    list in every later state of the world in which no session row is new
    or changed since the answer, whatever else has changed in the store
    and whatever the store does then.  Only a row written afterwards, by a
    new login or by a touch that writes a row back, ends this. *)
Theorem logoutAll_then_no_sessions user w r w' :
  authController_logoutAll P user w = (Done r, w') ->
  r = mkResponse 200 true "Logged out from all devices successfully"%string /\
  forall w2,
    (forall k e,
       String.prefix REDIS_TOKEN_PREFIX k = true ->
       db w2 !! k = Some e -> db w' !! k = Some e) ->
    now_s w' <= now_s w2 ->
    fst (authController_getSessions P user w2) =
    Done (mkResponse 200 true []).
Proof.
  unfold authController_logoutAll, AuthService_logoutAll, htry, hbind, lift.
  destruct (revokeAllUserTokens P (user_id user) w) as [[[]|e] w1] eqn:Hrev;
    [|discriminate].
  unfold hret. intros H. inversion H; subst r w'. split; [reflexivity|].
  intros w2 Hrows Ht.
  pose proof (revokeAllUserTokens_then_empty P (user_id user) w w1 w2
                Hrev Hrows Ht) as He.
  unfold authController_getSessions, AuthService_getUserSessions, htry,
    hbind, lift.
  destruct (getUserSessions P (user_id user) w2) as [r2 w3].
  cbn [fst] in He. now rewrite He.
Qed.

End SessionHandlerFacts.

(** ** The further properties on the reference platform *)

Lemma w_start_all_expiring : all_expiring w_start.
Proof. intros k e H. vm_compute in H. discriminate. Qed.

Lemma w_login_all_expiring : all_expiring w_login.
Proof.
  apply (all_expiring_kept w_start); [|exact w_start_all_expiring].
  apply (any_generateTokenPair Wire.platform adds_expiring
           adds_expiring_stable expiring_redis_setex
           "u1" "a@x.com" w_start (fst login)).
  unfold w_login. apply surjective_pairing.
Qed.

(** A session row without expiry beside the session of the login: the
    sweep deletes the one and keeps the other. *)
Lemma cleanupExpiredTokens_exact_witness :
  fst (cleanupExpiredTokens w_orphan) = Ok (mkCleanupResult 1) /\
  db (snd (cleanupExpiredTokens w_orphan)) !! "token:old" = None /\
  db (snd (cleanupExpiredTokens w_orphan)) !! "token:s0" =
  db w_orphan !! "token:s0".
Proof.
  assert (Hf : faults w_orphan = []) by (vm_compute; reflexivity).
  pose proof (cleanupExpiredTokens_exact w_orphan Hf) as H.
  cbv zeta in H. destruct H as (H1 & H2 & H3 & _).
  split; [rewrite H1; vm_compute; reflexivity|]. split.
  - apply H2; vm_compute; reflexivity.
  - apply H3. vm_compute. intros [_ H0]. discriminate H0.
Defined.

(** The store after the login, and after the revocation of its access
    token, has an expiry on every key. *)
Lemma service_keeps_all_expiring_witness : all_expiring w_revoked.
Proof.
  exact (proj1 (proj2 (proj2 (proj2
           (service_keeps_all_expiring Wire.platform w_login
              w_login_all_expiring)))) login_access).
Defined.

(** After the login the sweeps find nothing. *)
Lemma sweeps_find_nothing_witness :
  fst (cleanupExpiredTokens w_login) = Ok (mkCleanupResult 0) /\
  db (snd (cleanupExpiredTokens w_login)) = db w_login /\
  db (snd (cleanupExpiredSessions w_login)) = db w_login.
Proof. exact (sweeps_find_nothing w_login w_login_all_expiring). Defined.

(** The revoked access token of the login is turned down 100 seconds
    later, and after its [exp] too. *)
Lemma revoked_token_stays_rejected_witness :
  fst (verifyToken Wire.platform login_access (advance 100000 w_revoked)) =
  Ok None /\
  fst (verifyToken Wire.platform login_access (advance 900000 w_revoked)) =
  Ok None.
Proof.
  assert (Hf : faults w_login = []) by (vm_compute; reflexivity).
  assert (Hd : jws_decode Wire.platform login_access =
               Some login_access_payload) by (vm_compute; reflexivity).
  assert (He : exp login_access_payload = Some 905) by reflexivity.
  assert (Hz : 905 <> 0) by discriminate.
  assert (Hp : 0 < 905 - now_s w_login) by (vm_compute; reflexivity).
  split.
  - apply (revoked_token_stays_rejected Wire.platform login_access w_login
             login_access_payload 905 Hf Hd He Hz Hp).
    left. reflexivity.
  - apply (revoked_token_stays_rejected Wire.platform login_access w_login
             login_access_payload 905 Hf Hd He Hz Hp).
    right. vm_compute. discriminate.
Defined.

(** Revoking the access token of the login a minute after it was revoked
    leaves the store as it was. *)
Lemma revokeToken_idempotent_witness :
  db (snd (revokeToken Wire.platform login_access (advance 60000 w_revoked))) =
  db w_revoked.
Proof.
  apply (revokeToken_idempotent Wire.platform login_access w_login 60000);
    [vm_compute; reflexivity | lia].
Defined.

(** Revoking the access token of the login leaves the answer for its
    refresh token as it was. *)
Lemma revokeToken_leaves_other_tokens_witness :
  verdict Wire.platform login_refresh w_revoked =
  verdict Wire.platform login_refresh w_login.
Proof.
  assert (Hf : faults w_login = []) by (vm_compute; reflexivity).
  apply (proj2 (revokeToken_leaves_other_tokens Wire.platform login_access
                  w_login Hf) login_refresh).
  intros H. vm_compute in H. discriminate H.
Defined.

(** After the session of the login was revoked, using its tokens does not
    bring the session row back. *)
Lemma verification_never_creates_a_key_witness :
  db (snd (verifyToken Wire.platform login_access w_logged_out))
    !! "token:s0" = None /\
  db (snd (refreshAccessToken Wire.platform login_refresh w_logged_out))
    !! "token:s0" = None.
Proof.
  split.
  - apply (proj1 (verification_never_creates_a_key Wire.platform login_access
                    w_logged_out "token:s0" ltac:(vm_compute; reflexivity))).
  - apply (proj2 (verification_never_creates_a_key Wire.platform login_refresh
                    w_logged_out "token:s0" ltac:(vm_compute; reflexivity))).
Defined.

(** A login whose second write fails throws the error of the store and
    leaves no session row, but the refresh record is there. *)
Lemma generateTokenPair_failure_witness :
  fst (generateTokenPair Wire.platform "u1" "a@x.com" w_half) =
  Throw RedisError /\
  db (snd (generateTokenPair Wire.platform "u1" "a@x.com" w_half))
    !! "token:s0" = db w_half !! "token:s0" /\
  is_Some (db (snd (generateTokenPair Wire.platform "u1" "a@x.com" w_half))
             !! "refresh:s0").
Proof.
  assert (Hrun : generateTokenPair Wire.platform "u1" "a@x.com" w_half =
                 (Throw RedisError,
                  snd (generateTokenPair Wire.platform "u1" "a@x.com" w_half)))
    by (vm_compute; reflexivity).
  pose proof (generateTokenPair_failure Wire.platform "u1" "a@x.com" w_half
                RedisError _ Hrun) as H.
  cbv zeta in H. destruct H as (_ & H2 & _).
  split; [vm_compute; reflexivity|]. split; [exact H2|].
  vm_compute. eauto.
Defined.

(** The access token of the login passes the middleware, and the chain
    runs for user [u1] in session [s0]. *)
Lemma authMiddleware_lets_through_witness :
  exists t p u w1 w2,
    bearer login_access = Some ("Bearer " +:+ t) /\ t <> EmptyString /\
    verifyToken Wire.platform t w_login = (Ok (Some p), w1) /\
    tokenType p = access /\
    findUnique1 (userId p) w1 = (Ok (Some u), w2) /\
    authMiddleware Wire.platform findUnique1 (bearer login_access)
      next_done w_login =
    next_done (mkAuthContext u (sessionId p) p) w2.
Proof.
  apply (proj1 (authMiddleware_lets_through Wire.platform findUnique1
                  (bearer login_access) next_done w_login) tt).
  vm_compute. reflexivity.
Defined.

(** A request with a basic header is turned away at once; the revoked
    access token of the login is an invalid access token. *)
Lemma authMiddleware_rejections_witness :
  authMiddleware Wire.platform findUnique1 (Some "Basic abc"%string)
    next_done w_login =
  (Raised (HTTPException 401 "No token provided"), w_login) /\
  fst (authMiddleware Wire.platform findUnique1 (bearer login_access)
         next_done w_revoked) =
  Raised (HTTPException 401 "Invalid access token").
Proof.
  split.
  - apply (proj1 (authMiddleware_rejections Wire.platform findUnique1
                    (Some "Basic abc"%string) next_done w_login)).
    intros t _ H. vm_compute in H. discriminate H.
  - apply (proj1 (proj2 (authMiddleware_rejections Wire.platform findUnique1
                           (bearer login_access) next_done w_revoked)
                    login_access ltac:(vm_compute; reflexivity) eq_refl)).
    vm_compute. reflexivity.
Defined.

(** The refresh token of the login does not pass the middleware. *)
Lemma refresh_token_never_authenticates_witness :
  exists m,
    fst (authMiddleware Wire.platform findUnique1 (bearer login_refresh)
           next_done w_login) =
    Raised (HTTPException 401 m).
Proof.
  apply (refresh_token_never_authenticates Wire.platform findUnique1
           Wire_lawful login_refresh_payload login_refresh next_done w_login).
  - repeat split; vm_compute; reflexivity.
  - reflexivity.
Defined.

(** A refresh request without a token is answered 500, and one with the
    revoked session's token 401. *)
Lemma authController_refreshToken_answers_witness :
  authController_refreshToken Wire.platform (fun _ => "error"%string)
    (Done None) w_login =
  (Raised (HTTPException 500 "Failed to refresh token"), w_login) /\
  exists r,
    fst (refreshAccessToken Wire.platform login_refresh w_logged_out) = Ok r /\
    fst (authController_refreshToken Wire.platform (fun _ => "error"%string)
           (Done (Some login_refresh)) w_logged_out) =
    match r with
    | Some grant => Done (mkResponse 200 true grant)
    | None => Raised (HTTPException 401 "Invalid or expired refresh token")
    end.
Proof.
  split.
  - apply (proj1 (authController_refreshToken_answers Wire.platform
                    (fun _ => "error"%string) (Done None) w_login)
             None eq_refl eq_refl).
  - apply (proj1 (proj2 (authController_refreshToken_answers Wire.platform
                           (fun _ => "error"%string)
                           (Done (Some login_refresh)) w_logged_out))
             login_refresh eq_refl).
    vm_compute. reflexivity.
Defined.

(** After the logout of session [s0] the access token of the login is
    accepted a second later. *)
Lemma logout_keeps_access_token_valid_witness :
  fst (verifyToken Wire.platform login_access
         (advance 1000
            (snd (AuthService_logout Wire.platform (Some "s0"%string)
                    (Some login_access) w_login)))) =
  Ok (Some login_access_payload).
Proof.
  assert (Hi : issued Wire.platform login_access_payload login_access)
    by (repeat split; vm_compute; reflexivity).
  rewrite (proj2 (logout_keeps_access_token_valid Wire.platform Wire_lawful
                    "s0" (Some login_access) login_access_payload
                    login_access 905 w_login eq_refl Hi eq_refl
                    ltac:(vm_compute; reflexivity))
             1000 ltac:(lia) ltac:(vm_compute; reflexivity)).
  vm_compute. reflexivity.
Defined.

(** A logout without session id revokes the token of the header. *)
Lemma authController_logout_answers_witness :
  snd (authController_logout Wire.platform None (bearer login_access)
         w_login) = w_revoked.
Proof.
  apply (proj1 (proj1 (proj2 (authController_logout_answers Wire.platform
                                None (bearer login_access) w_login))
                  login_access eq_refl ltac:(vm_compute; reflexivity)
                  eq_refl)).
Defined.

(** Revoking a session without naming it is answered 500; revoking
    session [s0] after the login is answered 200. *)
Lemma authController_revokeSession_answers_witness :
  authController_revokeSession None w_login =
  (Raised (HTTPException 500 "Failed to revoke session"), w_login) /\
  fst (authController_revokeSession (Some "s0"%string) w_login) =
  Done (mkResponse 200 true "Session revoked successfully"%string).
Proof.
  split.
  - apply (proj1 (authController_revokeSession_answers None w_login) eq_refl).
  - apply (proj2 (proj2 (proj1 (proj2 (authController_revokeSession_answers
                                         (Some "s0"%string) w_login))
                           "s0"%string eq_refl eq_refl))).
    vm_compute. reflexivity.
Defined.

(** After user [u1] logged out everywhere, the listing of the sessions is
    empty a second later, with the store down or not. *)
Lemma logoutAll_then_no_sessions_witness :
  fst (authController_getSessions Wire.platform user1
         (with_faults [true]
            (advance 1000
               (snd (authController_logoutAll Wire.platform user1 w_login))))) =
  Done (mkResponse 200 true []) /\
  fst (authController_getSessions Wire.platform user1
         (advance 1000
            (snd (authController_logoutAll Wire.platform user1 w_login)))) =
  Done (mkResponse 200 true []).
Proof.
  pose proof (proj2 (logoutAll_then_no_sessions Wire.platform user1 w_login
                       (mkResponse 200 true
                          "Logged out from all devices successfully"%string)
                       (snd (authController_logoutAll Wire.platform user1
                               w_login))
                       ltac:(vm_compute; reflexivity))) as H.
  split; apply H; try (now intros k e _); vm_compute; discriminate.
Defined.
